(** * LibMultiLabel, linear tree model ([libmultilabel/linear/tree.py])

    A shallow embedding of the label tree of [tree.py]: tree building by
    recursive clustering, streaming of the per-node weight blocks into
    mapped arrays, flattening, the tree cache and the beam search, together
    with the properties of the specification that are about them.

    Conventions.
    - Python exceptions are the [Raise] results of the type [result].
    - numpy's float64 scalars are exact rationals ([Q]); [np.exp] is the real
      exponential, and [-np.inf] is a separate constructor of [entry].
    - The collaborators that live outside [tree.py] (k-means, the random
      source, the linear trainer, pickle, hashing) are the fields of the
      class [Externals]. *)

From Stdlib Require Import List ZArith QArith Qminmax Qpower Bool Lia Arith PeanoNat.
From Stdlib Require Strings.String Strings.Ascii Strings.Byte.
From Stdlib Require Import Sorting.Sorted Sorting.Permutation.
From Stdlib Require Import Reals Qreals Lra.
Import ListNotations.
Import Strings.String.StringSyntax.
Delimit Scope string_scope with string.

Set Implicit Arguments.
Open Scope nat_scope.

(* ------------------------------------------------------------------ *)
(** ** Exceptions and results *)

Inductive exn : Type :=
| AssertionError
| ValueError
| IndexError
| AttributeError
| KeyError
| UnpicklingError
| OutOfFuel.

Inductive result (A : Type) : Type :=
| Ok (a : A)
| Raise (e : exn).

Arguments Ok {A} a.
Arguments Raise {A} e.

Definition bind {A B : Type} (m : result A) (k : A -> result B) : result B :=
  match m with
  | Ok a => k a
  | Raise e => Raise e
  end.

Notation "x <- m ;; k" := (bind m (fun x => k))
  (at level 61, m at next level, right associativity).
Notation "' p <- m ;; k" := (bind m (fun p => k))
  (at level 61, p pattern, m at next level, right associativity).

(** [for x in xs: s = body(x, s)], stopping at the first exception. *)
Fixpoint for_each {A S : Type} (xs : list A) (body : A -> S -> result S) (s : S)
  : result S :=
  match xs with
  | [] => Ok s
  | x :: xs' =>
      match body x s with
      | Ok s' => for_each xs' body s'
      | Raise e => Raise e
      end
  end.

(** [range(n)] *)
Definition range (n : nat) : list nat := seq 0 n.

(* ------------------------------------------------------------------ *)
(** ** Matrices *)

(** A matrix read row by row ([y], [x], the label representation): the
    number of columns and the rows, so that [shape] is
    [(length rows, ncols)] also when there is no row. *)
Record matrix : Type := mkMatrix {
  ncols : nat;
  rows : list (list Q)
}.

Definition shape0 (m : matrix) : nat := length (rows m).
Definition shape1 (m : matrix) : nat := ncols m.

(** [m[mask]] keeps the rows and the number of columns. *)
Definition with_rows (m : matrix) (rs : list (list Q)) : matrix :=
  mkMatrix (ncols m) rs.

(** [a.data] of one row of a sparse matrix, and [m.nnz]. *)
Definition row_data (r : list Q) : list Q :=
  filter (fun v => negb (Qeq_bool v 0)) r.

Definition matrix_nnz (m : matrix) : nat :=
  length (flat_map row_data (rows m)).

(** A [scipy.sparse.csr_matrix]: the three arrays and the shape. *)
Record csr : Type := mkCsr {
  csr_data : list Q;
  csr_indices : list Z;
  csr_indptr : list Z;
  csr_shape : nat * nat
}.

Definition nnz (a : csr) : nat := length (csr_data a).

(* ------------------------------------------------------------------ *)
(** ** Mapped arrays *)

(** Modelled from the spec: [fileio.Array], the growable mapped array of
    section 4.5, is not among the sources. It is a buffer over a backing
    file: [shape[0]] is its capacity, [resize] sets the capacity and keeps
    the content, and a slice of it is a numpy view. *)
Record Array (A : Type) : Type := mkArray {
  arr_path : String.string;
  arr_cells : list A
}.

Definition Array_new {A : Type} (path : String.string) (shape : nat) (zero : A)
  : Array A :=
  mkArray path (repeat zero shape).

Definition arr_shape0 {A : Type} (a : Array A) : nat := length (arr_cells a).

Definition resize {A : Type} (zero : A) (n : nat) (a : Array A) : Array A :=
  mkArray (arr_path a)
          (firstn n (arr_cells a ++ repeat zero (n - length (arr_cells a)))).

(** A view [a[start:stop]]: where it starts in [a] and what it holds. *)
Record view (A : Type) : Type := mkView {
  view_off : nat;
  view_vals : list A
}.

(** [v = a[start:stop]; v[:] = vals]. numpy clips the slice to the array;
    the assignment needs [vals] to have the length of the view, or length
    one (which is broadcast), and raises [ValueError] otherwise. *)
Definition slice_assign {A : Type} (a : Array A) (start stop : nat) (vals : list A)
  : result (Array A * view A) :=
  let cells := arr_cells a in
  let lo := Nat.min start (length cells) in
  let hi := Nat.max lo (Nat.min stop (length cells)) in
  let put (vs : list A) :=
    Ok (mkArray (arr_path a) (firstn lo cells ++ vs ++ skipn hi cells),
        mkView lo vs) in
  if (length vals =? hi - lo)%nat then put vals
  else
    match vals with
    | [v] => put (repeat v (hi - lo))
    | _ => Raise ValueError
    end.

(** [class dummy]: a CSR matrix whose three arrays are views. *)
Record dummy : Type := mkDummy {
  dm_data : view Q;
  dm_indices : view Z;
  dm_indptr : view Z;
  dm_shape : nat * nat
}.

(** [self.nnz = self.data.size] *)
Definition dm_nnz (w : dummy) : nat := length (view_vals (dm_data w)).

(* ------------------------------------------------------------------ *)
(** ** Nodes *)

(** Modelled from the spec: [linear.FlatModel] is not among the sources;
    a node's model is a bias scalar and a weight block. This is the model
    as a node holds it: [weights] is removed from the model's [__dict__]
    by the flattener, hence the [option]. *)
Record NodeModel : Type := mkNodeModel {
  weights : option dummy;
  bias : Q
}.

(** [class Node]. [model] and [index] are attributes added after
    construction, by the trainer and by the flattener. *)
#[local] Unset Elimination Schemes.
Inductive Node : Type := mkNode {
  label_map : list nat;
  children : list Node;
  model : option NodeModel;
  index : option nat
}.
#[local] Set Elimination Schemes.

Definition isLeaf (n : Node) : bool := (length (children n) =? 0)%nat.

Definition new_node (lm : list nat) (cs : list Node) : Node :=
  mkNode lm cs None None.

(** The nodes in the order [Node.dfs] visits them. *)
Fixpoint dfs_nodes (n : Node) : list Node :=
  n :: flat_map dfs_nodes (children n).

Fixpoint height (n : Node) : nat :=
  fold_right (fun c h => Nat.max (S (height c)) h) 0 (children n).

(* ------------------------------------------------------------------ *)
(** ** The collaborators *)

Class Externals : Type := {
  (** the state of numpy's global random source *)
  rng : Type;
  (** [np.random.randint(high)] *)
  randint : Z -> rng -> Z * rng;
  (** [sklearn.cluster.KMeans(K, random_state=seed, ...).fit(rep).labels_] *)
  kmeans_labels : nat -> Z -> matrix -> result (list nat);
  (** [sklearn.preprocessing.normalize((y.T * x).tocsr(), norm="l2", axis=1)] *)
  label_representation : matrix -> matrix -> matrix;
  (** [linear.train_1vsrest(y, x, options, verbose)]: the bias and the dense
      weight matrix, as its shape and its entries *)
  train_1vsrest : matrix -> matrix -> String.string -> bool
                  -> result (Q * (nat * nat * (nat -> nat -> Q)));
  (** [pickle.load] and [pickle.dump] on the bytes of a file *)
  pickle_load : list Byte.byte -> result Node;
  pickle_dump : Node -> list Byte.byte;
  (** the first 32 hex digits of the SHA-256 of the text of the tuple of
      [y.shape], [x.shape], [y.nnz], [x.nnz], the random state, [x[0].data]
      and [x[-1].data] *)
  fingerprint : nat * nat -> nat * nat -> nat -> nat -> rng -> list Q -> list Q
                -> String.string;
  (** [uuid.uuid4().hex], by the number of identifiers drawn so far *)
  uuid4_hex : nat -> String.string;
  (** [blinkless.stack_impl.hstack_rr_to(m, cols_array, data_list,
      indices_list, indptr_list, ...)]: what it writes into the three output
      arrays *)
  hstack_rr_to : nat -> list nat -> list (list Q) -> list (list Z) -> list (list Z)
                 -> list Q * list Z * list Z
}.

(* ------------------------------------------------------------------ *)
(** ** Tree building *)

(** [a[mask]] for a boolean mask: numpy raises [IndexError] when the mask
    and the indexed axis differ in length. *)
Definition bool_index {A : Type} (mask : list bool) (xs : list A) : result (list A) :=
  if (length mask =? length xs)%nat
  then Ok (map snd (filter fst (combine mask xs)))
  else Raise IndexError.

(** [metalabels == i] *)
Definition eq_mask (metalabels : list nat) (i : nat) : list bool :=
  map (fun c => (c =? i)%nat) metalabels.

Section BuildTree.
Context {E : Externals}.

(** [_build_tree]; [fuel] bounds the depth of the Python recursion, and
    [OutOfFuel] is the model's own: see [build_tree_rec_fuel]. *)
Fixpoint build_tree_rec (fuel : nat) (label_rep : matrix) (lmap : list nat)
  (d K dmax : nat) (g : rng) : result (Node * rng) :=
  if (dmax <=? d)%nat || (shape0 label_rep <=? K)%nat
  then Ok (new_node lmap [], g)
  else
    match fuel with
    | O => Raise OutOfFuel
    | S fuel' =>
        let '(seed, g1) := randint (2 ^ 31 - 1) g in
        metalabels <- kmeans_labels K seed label_rep ;;
        '(cs, g2) <-
          for_each (range K)
            (fun i '(cs, g) =>
               child_rows <- bool_index (eq_mask metalabels i) (rows label_rep) ;;
               child_map <- bool_index (eq_mask metalabels i) lmap ;;
               '(child, g') <- build_tree_rec fuel' (with_rows label_rep child_rows)
                                 child_map
                                 (S d) K dmax g ;;
               Ok (cs ++ [child], g'))
            ([], g1) ;;
        Ok (new_node lmap cs, g2)
    end.

(** The recursion stops at depth [dmax], so [dmax - d] calls deep is enough. *)
Definition _build_tree (label_rep : matrix) (lmap : list nat) (d K dmax : nat)
  (g : rng) : result (Node * rng) :=
  build_tree_rec (dmax - d) label_rep lmap d K dmax g.

End BuildTree.


(* ------------------------------------------------------------------ *)
(** ** Streaming a weight block into the mapped arrays *)

(** The dictionary [mmap_info]. *)
Record mmap_info : Type := mkInfo {
  num_data : nat;
  num_indptr : nat;
  chunk_size : nat;
  mm_data : Array Q;
  mm_indices : Array Z;
  mm_indptr : Array Z
}.

(** [int.bit_length] *)
Definition bit_length (z : Z) : Z :=
  if (z =? 0)%Z then 0%Z else (Z.log2 (Z.abs z) + 1)%Z.

(** [2 << (n - 1).bit_length()] *)
Definition grown_size (n : nat) : nat :=
  Z.to_nat (Z.shiftl 2 (bit_length (Z.of_nat n - 1))).

(** [_as_mmap] *)
Definition _as_mmap (arr : csr) (info : mmap_info) : result (dummy * mmap_info) :=
  let n := nnz arr in
  let nd := num_data info in
  let ni := num_indptr info in
  let buffer_size := arr_shape0 (mm_data info) in
  let '(data0, indices0) :=
    if (buffer_size <? nd + n)%nat
    then (resize 0%Q (grown_size (nd + n)) (mm_data info),
          resize 0%Z (grown_size (nd + n)) (mm_indices info))
    else (mm_data info, mm_indices info) in
  '(data1, data) <- slice_assign data0 nd (nd + n) (csr_data arr) ;;
  '(indices1, indices) <- slice_assign indices0 nd (nd + n) (csr_indices arr) ;;
  '(indptr1, indptr) <-
     slice_assign (mm_indptr info) ni (ni + fst (csr_shape arr) + 1) (csr_indptr arr) ;;
  Ok (mkDummy data indices indptr (csr_shape arr),
      mkInfo (nd + n) (ni + (fst (csr_shape arr) + 1)) (chunk_size info)
             data1 indices1 indptr1).

(* ------------------------------------------------------------------ *)
(** ** Depth-first traversal *)

(** What a visit may change of a node: its [model] and its [index]. No
    visit of [tree.py] touches [label_map] or [children]. *)
Definition attrs : Type := (option NodeModel * option nat)%type.

Section Dfs.
Variable S : Type.
Variable visit : Node -> S -> result (attrs * S).

(** [Node.dfs(visit)]: the visit of the node itself, then of the children
    in order; the state of the visiting closure is threaded through. *)
Fixpoint dfs (n : Node) (s : S) : result (Node * S) :=
  '(a, s1) <- visit n s ;;
  '(cs, s2) <-
    (fix dfs_children (cs : list Node) (s : S) : result (list Node * S) :=
       match cs with
       | [] => Ok ([], s)
       | c :: cs' =>
           '(c', s') <- dfs c s ;;
           '(cs'', s'') <- dfs_children cs' s' ;;
           Ok (c' :: cs'', s'')
       end) (children n) s1 ;;
  Ok (mkNode (label_map n) cs (fst a) (snd a), s2).

(** The same loop over the children, by name. *)
Fixpoint dfs_children (cs : list Node) (s : S) : result (list Node * S) :=
  match cs with
  | [] => Ok ([], s)
  | c :: cs' =>
      '(c', s') <- dfs c s ;;
      '(cs'', s'') <- dfs_children cs' s' ;;
      Ok (c' :: cs'', s'')
  end.

End Dfs.

(** The closure [count] of [train_tree]. *)
Definition count (n : Node) (num_nodes : nat) : result (attrs * nat) :=
  Ok ((model n, index n), num_nodes + 1).

(* ------------------------------------------------------------------ *)
(** ** Training a node *)

Fixpoint map_result {A B : Type} (f : A -> result B) (xs : list A) : result (list B) :=
  match xs with
  | [] => Ok []
  | x :: xs' =>
      y <- f x ;;
      ys <- map_result f xs' ;;
      Ok (y :: ys)
  end.

(** [m[:, cols]]: [IndexError] on a column outside the matrix. *)
Definition select_cols (m : matrix) (cols : list nat) : result matrix :=
  if forallb (fun c => (c <? ncols m)%nat) cols
  then Ok (mkMatrix (length cols)
                    (map (fun r => map (fun c => nth c r 0%Q) cols) (rows m)))
  else Raise IndexError.

(** [m.getnnz(axis=1) > 0] *)
Definition has_nnz (m : matrix) : list bool :=
  map (fun r => (0 <? length (row_data r))%nat) (rows m).

(** [np.cumsum] *)
Fixpoint cumsum_from (acc : nat) (xs : list nat) : list nat :=
  match xs with
  | [] => []
  | x :: xs' => (acc + x) :: cumsum_from (acc + x) xs'
  end.

Definition cumsum (xs : list nat) : list nat := cumsum_from 0 xs.

(** A dense weight matrix: its shape and its entries. *)
Definition dense : Type := (nat * nat * (nat -> nat -> Q))%type.

(** [sparse.csr_matrix(w)] of a dense matrix [w]. *)
Definition dense_row (c : nat) (f : nat -> Q) : list (Z * Q) :=
  flat_map (fun j => if Qeq_bool (f j) 0 then [] else [(Z.of_nat j, f j)]) (range c).

Definition csr_of_dense (w : dense) : csr :=
  let '(r, c, f) := w in
  let rs := map (fun i => dense_row c (f i)) (range r) in
  mkCsr (map snd (concat rs)) (map fst (concat rs))
        (map Z.of_nat (cumsum (0 :: map (@length _) rs))) (r, c).

(** ["-B" in options] *)
Fixpoint contains (sub s : String.string) : bool :=
  String.prefix sub s ||
  match s with
  | String.EmptyString => false
  | String.String _ s' => contains sub s'
  end.

Section Training.
Context {E : Externals}.

(** The columns of [meta_y], one per child: whether the instance has a
    label of the child. *)
Definition meta_y (y : matrix) (cs : list Node) : result matrix :=
  cols <- map_result (fun child => ysel <- select_cols y (label_map child) ;;
                                   Ok (has_nnz ysel)) cs ;;
  Ok (mkMatrix (length cs)
        (map (fun i => map (fun col => if nth i col false then 1%Q else 0%Q) cols)
             (range (shape0 y)))).

(** [_train_node]; the node's new [model] and the dictionary are returned. *)
Definition _train_node (y x : matrix) (options : String.string) (node : Node)
  (info : mmap_info) : result (NodeModel * mmap_info) :=
  '(b, w) <-
     (if isLeaf node
      then ysel <- select_cols y (label_map node) ;;
           train_1vsrest ysel x options false
      else my <- meta_y y (children node) ;;
           train_1vsrest my x options false) ;;
  '(wv, info') <- _as_mmap (csr_of_dense w) info ;;
  Ok (mkNodeModel (Some wv) b, info').

(** The closure [visit] of [train_tree]. *)
Definition train_visit (y x : matrix) (options : String.string) (node : Node)
  (info : mmap_info) : result (attrs * mmap_info) :=
  ysel <- select_cols y (label_map node) ;;
  let relevant_instances := has_nnz ysel in
  yr <- bool_index relevant_instances (rows y) ;;
  xr <- bool_index relevant_instances (rows x) ;;
  '(m, info') <- _train_node (with_rows y yr) (with_rows x xr) options node info ;;
  Ok ((Some m, index node), info').

End Training.

(* ------------------------------------------------------------------ *)
(** ** Flattening *)

(** Modelled from the spec: [linear.FlatModel] is not among the sources;
    the fields are those [_flatten_model] gives to its constructor. *)
Record FlatModel : Type := mkFlatModel {
  fm_name : String.string;
  fm_weights : csr;
  fm_bias : Q;
  fm_thresholds : Q
}.

(** The dictionary [_hstack_info] returns. *)
Record hstack_info : Type := mkHstackInfo {
  hi_m : nat;
  hi_n : nat;
  hi_nnz : nat;
  hi_cols_array : list nat;
  hi_data_list : list (list Q);
  hi_indices_list : list (list Z);
  hi_indptr_list : list (list Z)
}.

(** [_hstack_info]; every block holds float64 data, so the common type
    is not computed. *)
Definition _hstack_info (blocks : list dummy) : result hstack_info :=
  match blocks with
  | [] => Raise IndexError
  | b0 :: _ =>
      let m := fst (dm_shape b0) in
      for_each blocks
        (fun block i =>
           if negb (fst (dm_shape block) =? m)%nat then Raise ValueError
           else Ok (mkHstackInfo m
                      (hi_n i + snd (dm_shape block))
                      (hi_nnz i + dm_nnz block)
                      (hi_cols_array i ++ [snd (dm_shape block)])
                      (hi_data_list i ++ [view_vals (dm_data block)])
                      (hi_indices_list i ++ [view_vals (dm_indices block)])
                      (hi_indptr_list i ++ [view_vals (dm_indptr block)])))
        (mkHstackInfo m 0 0 [] [] [] [])
  end.

Section Flatten.
Context {E : Externals}.

Local Open Scope string_scope.

(** [_mmap_hstack]; [files] are the backing files of the mapped arrays
    that exist, and the three new ones are added to them. *)
Definition _mmap_hstack (blocks : list dummy) (prefix : String.string)
  (files : list String.string) : result (csr * list String.string) :=
  if (length blocks =? 0)%nat then Ok (mkCsr [] [] [0%Z] (0, 0), files)
  else
    info <- _hstack_info blocks ;;
    let files' := files ++ [String.append prefix ".data";
                            String.append prefix ".indices";
                            String.append prefix ".indptr"] in
    let '(data, indices, indptr) :=
      hstack_rr_to (hi_m info) (hi_cols_array info) (hi_data_list info)
                   (hi_indices_list info) (hi_indptr_list info) in
    Ok (mkCsr data indices indptr (hi_m info, hi_n info), files').

(** The closure [visit] of [_flatten_model]; its state is [index] and
    [weights]. *)
Definition flatten_visit (b : Q) (node : Node) (st : nat * list dummy)
  : result (attrs * (nat * list dummy)) :=
  let '(idx, ws) := st in
  match model node with
  | None => Raise AttributeError
  | Some m =>
      if negb (Qeq_bool b (bias m)) then Raise AssertionError
      else
        match weights m with
        | None => Raise KeyError
        | Some w => Ok ((Some (mkNodeModel None (bias m)), Some idx), (S idx, ws ++ [w]))
        end
  end.

(** [_flatten_model]; the tree is returned as the traversal leaves it. *)
Definition _flatten_model (root : Node) (mmap_path : String.string)
  (files : list String.string)
  : result (FlatModel * list nat * Node * list String.string) :=
  match model root with
  | None => Raise AttributeError
  | Some rm =>
      let b := bias rm in
      '(root', (_, ws)) <- dfs (flatten_visit b) root (0, []) ;;
      '(w, files') <- _mmap_hstack ws mmap_path files ;;
      let fm := mkFlatModel "flattened-tree" w b 0 in
      let weight_map := cumsum (0 :: map (fun w => snd (dm_shape w)) ws) in
      Ok (fm, weight_map, root', files')
  end.

End Flatten.

(* ------------------------------------------------------------------ *)
(** ** The tree model and its training *)

(** The dictionary [TreeModel.mmap], without the element type. *)
Record mmap_desc : Type := mkMmapDesc {
  md_root : String.string;
  md_shape : nat * nat;
  md_nnz : nat
}.

(** [class TreeModel]; [self.name] is the constant ["mmap-tree"]. *)
Record TreeModel : Type := mkTreeModel {
  root : Node;
  flat_model : FlatModel;
  weight_map : list nat;
  mmap : mmap_desc
}.

Inductive level : Type := INFO | WARNING.

(** [dict.get] on an association list of files. *)
Fixpoint lookup {A : Type} (k : String.string) (kvs : list (String.string * A))
  : option A :=
  match kvs with
  | [] => None
  | (k', v) :: kvs' => if String.eqb k k' then Some v else lookup k kvs'
  end.

Section TrainTree.
Context {E : Externals}.

Local Open Scope string_scope.

(** What [train_tree] reads and writes outside its arguments: the random
    source, the files of [tree_cache/], the backing files of the mapped
    arrays, the identifiers drawn and the log. *)
Record World : Type := mkWorld {
  w_rng : rng;
  w_cache : list (String.string * list Byte.byte);
  w_arrays : list String.string;
  w_uuids : nat;
  w_log : list (level * String.string)
}.

(** The path of the cache entry: lines 144 to 148. [x[0]] and [x[-1]]
    raise on a matrix without rows. *)
Definition cache_path (y x : matrix) (g : rng) : result String.string :=
  match rows x with
  | [] => Raise IndexError
  | x0 :: _ =>
      let xl := last (rows x) x0 in
      Ok (String.append "tree_cache/"
            (String.append
               (fingerprint (shape0 y, shape1 y) (shape0 x, shape1 x)
                            (matrix_nnz y) (matrix_nnz x) g (row_data x0) (row_data xl))
               ".pickle"))
  end.

(** The tree, from the cache or built: lines 150 to 161. *)
Definition load_or_build (y x : matrix) (K dmax : nat) (w : World)
  : result (Node * World) :=
  path <- cache_path y x (w_rng w) ;;
  match lookup path (w_cache w) with
  | Some bytes =>
      let w1 := mkWorld (w_rng w) (w_cache w) (w_arrays w) (w_uuids w)
                        (w_log w ++ [(INFO, String.append "loading tree (no weights) from cache " path)]) in
      r <- pickle_load bytes ;;
      Ok (r, w1)
  | None =>
      '(r, g) <- _build_tree (label_representation y x) (range (shape1 y)) 0 K dmax
                   (w_rng w) ;;
      Ok (r, mkWorld g ((path, pickle_dump r) :: w_cache w) (w_arrays w) (w_uuids w)
                     (w_log w))
  end.

(** [has_bias], as the integer it is added as. *)
Definition has_bias (options : String.string) : nat :=
  if contains "-B" options then 1 else 0.

(** The capacity of [nodes.indptr]: line 190. *)
Definition indptr_capacity (num_nodes : nat) (x : matrix) (options : String.string)
  : nat :=
  num_nodes * (shape1 x + has_bias options + 1).

(** The dictionary [mmap_info] at its creation: lines 177 to 200. *)
Definition new_mmap_info (mmap_root : String.string) (num_nodes : nat) (x : matrix)
  (options : String.string) : mmap_info :=
  let chunk := 4096 in
  mkInfo 0 0 chunk
    (Array_new (String.append mmap_root "/nodes.data") chunk 0%Q)
    (Array_new (String.append mmap_root "/nodes.indices") chunk 0%Z)
    (Array_new (String.append mmap_root "/nodes.indptr")
               (indptr_capacity num_nodes x options) 0%Z).

(** The training of every node, depth first: lines 163 to 208. *)
Definition train_nodes (r : Node) (y x : matrix) (options : String.string)
  (mmap_root : String.string) : result (Node * mmap_info) :=
  '(_, num_nodes) <- dfs count r 0 ;;
  dfs (train_visit y x options) r (new_mmap_info mmap_root num_nodes x options).

(** [train_tree] *)
Definition train_tree (y x : matrix) (options : String.string) (K dmax : nat)
  (verbose : bool) (w : World) : result (TreeModel * World) :=
  '(r, w1) <- load_or_build y x K dmax w ;;
  let mmap_root := String.append "weights/" (uuid4_hex (w_uuids w1)) in
  '(r1, info) <- train_nodes r y x options mmap_root ;;
  let files1 := w_arrays w1 ++ [arr_path (mm_data info); arr_path (mm_indices info);
                                arr_path (mm_indptr info)] in
  '(fm, wm, r2, files2) <- _flatten_model r1 (String.append mmap_root "/flat_model")
                             files1 ;;
  Ok (mkTreeModel r2 fm wm
        (mkMmapDesc mmap_root (csr_shape (fm_weights fm)) (nnz (fm_weights fm))),
      mkWorld (w_rng w1) (w_cache w1) files2 (S (w_uuids w1)) (w_log w1)).

End TrainTree.

(* ------------------------------------------------------------------ *)
(** ** Beam search *)

(** An entry of the vector [_beam_search] returns: [-np.inf], or
    [np.exp(q)]. *)
Inductive entry : Type :=
| NegInf
| Exp (q : Q).


(** [np.maximum(0, 1 - pred) ** 2] at one prediction. *)
Definition hinge (p : Q) : Q := (Qmax 0 (1 - p) ^ 2)%Q.

(** [score - np.maximum(0, 1 - pred) ** 2] *)
Definition children_score (score : Q) (pred : list Q) : list Q :=
  map (fun p => (score - hinge p)%Q) pred.

(** [sorted(l, key=key)]: the sort of Python is stable. An element is
    placed before the first element of the sorted rest whose key is not
    smaller, hence before the elements of equal key that followed it. *)
Fixpoint insert_by {A : Type} (key : A -> Q) (x : A) (l : list A) : list A :=
  match l with
  | [] => [x]
  | y :: l' => if Qle_bool (key x) (key y) then x :: l else y :: insert_by key x l'
  end.

Fixpoint sorted {A : Type} (l : list A) (key : A -> Q) : list A :=
  match l with
  | [] => []
  | x :: l' => insert_by key x (sorted l' key)
  end.

(** [l[:k]]; a negative [k] counts from the end. *)
Definition take {A : Type} (k : Z) (l : list A) : list A :=
  if (0 <=? k)%Z then firstn (Z.to_nat k) l
  else firstn (length l - Z.to_nat (- k)) l.

(** [l[a:b]] *)
Definition slice {A : Type} (a b : nat) (l : list A) : list A :=
  firstn (b - a) (skipn a l).

Fixpoint set_nth {A : Type} (i : nat) (v : A) (l : list A) : list A :=
  match l, i with
  | [], _ => []
  | _ :: l', O => v :: l'
  | x :: l', S i' => x :: set_nth i' v l'
  end.

(** [scores[idxs] = vals]: [vals] has the length of [idxs] or length one,
    and every index is inside [scores]. *)
Definition fancy_assign {A : Type} (scores : list A) (idxs : list nat) (vals : list A)
  : result (list A) :=
  let put (vs : list A) :=
    for_each (combine idxs vs)
      (fun '(i, v) sc => if (i <? length sc)%nat then Ok (set_nth i v sc)
                         else Raise IndexError)
      scores in
  if (length vals =? length idxs)%nat then put vals
  else
    match vals with
    | [v] => put (repeat v (length idxs))
    | _ => Raise ValueError
    end.

Section BeamSearch.
Variable tm : TreeModel.
Variable instance_preds : list Q.
Variable beam_width : Z.

(** [instance_preds[weight_map[node.index] : weight_map[node.index + 1]]] *)
Definition node_preds (node : Node) : result (list Q) :=
  match index node with
  | None => Raise AttributeError
  | Some i =>
      match nth_error (weight_map tm) i, nth_error (weight_map tm) (i + 1) with
      | Some a, Some b => Ok (slice a b instance_preds)
      | _, _ => Raise IndexError
      end
  end.

Definition num_internal (cur_level : list (Node * Q)) : nat :=
  length (filter (fun pair => negb (isLeaf (fst pair))) cur_level).

(** The body of the [for] loop of a round: lines 101 to 108. *)
Definition expand (pair : Node * Q) (next_level : list (Node * Q))
  : result (list (Node * Q)) :=
  let '(node, score) := pair in
  if isLeaf node then Ok (next_level ++ [(node, score)])
  else
    pred <- node_preds node ;;
    Ok (next_level ++ combine (children node) (children_score score pred)).

(** What a round keeps: line 110. *)
Definition keep (next_level : list (Node * Q)) : list (Node * Q) :=
  take beam_width (sorted next_level (fun pair => (- snd pair)%Q)).

(** The [while True] loop; [fuel] bounds the number of rounds. *)
Fixpoint beam_rounds (fuel : nat) (cur_level : list (Node * Q))
  : result (list (Node * Q)) :=
  if (num_internal cur_level =? 0)%nat then Ok cur_level
  else
    match fuel with
    | O => Raise OutOfFuel
    | S fuel' =>
        next_level <- for_each cur_level expand [] ;;
        beam_rounds fuel' (keep next_level)
    end.

(** The scores of the labels of the leaves that are left: lines 113 to 119. *)
Definition leaf_scores (cur_level : list (Node * Q)) : result (list entry) :=
  let num_labels := length (label_map (root tm)) in
  for_each cur_level
    (fun '(node, score) scores =>
       pred <- node_preds node ;;
       fancy_assign scores (label_map node)
                    (map (fun p => Exp (score - hinge p)%Q) pred))
    (repeat NegInf num_labels).

(** [TreeModel._beam_search]. A round replaces the internal nodes of the
    beam by children, so the height of the tree bounds the rounds. *)
Definition _beam_search : result (list entry) :=
  cur_level <- beam_rounds (height (root tm)) [(root tm, 0%Q)] ;;
  leaf_scores cur_level.

End BeamSearch.

(* ------------------------------------------------------------------ *)
(** ** A small instance of the collaborators

    Used to run the definitions on concrete data: k-means that puts a row
    into the cluster of its first non-zero feature, a trainer that returns
    a dense block of ones of the documented shape, and a pickle that writes
    the shape of a tree as a sequence of small numbers. *)

Module Sample.

Definition first_nonzero (r : list Q) : nat :=
  (fix go (r : list Q) (i : nat) : nat :=
     match r with
     | [] => 0
     | v :: r' => if Qeq_bool v 0 then go r' (S i) else i
     end) r 0.

Definition kmeans (K : nat) (seed : Z) (rep : matrix) : result (list nat) :=
  if (K =? 0)%nat then Raise ValueError
  else Ok (map (fun r => first_nonzero r mod K) (rows rep)).

(** [y.T * x], not normalised. *)
Definition yT_x (y x : matrix) : matrix :=
  mkMatrix (ncols x)
    (map (fun j =>
            map (fun k =>
                   fold_right Qplus 0%Q
                     (map (fun yx => (nth j (fst yx) 0 * nth k (snd yx) 0)%Q)
                          (combine (rows y) (rows x))))
                (range (ncols x)))
         (range (ncols y))).

Definition train (y x : matrix) (options : String.string) (verbose : bool)
  : result (Q * dense) :=
  let b := if contains "-B"%string options then 1 else 0 in
  Ok (if contains "-B"%string options then 1%Q else (-1)%Q,
      (shape1 x + b, shape1 y, fun _ _ => 1%Q)).

Fixpoint dump (n : Node) : list nat :=
  length (label_map n) :: label_map n
  ++ length (children n) :: flat_map dump (children n).

Fixpoint load (fuel : nat) (ts : list nat) : result (Node * list nat) :=
  match fuel, ts with
  | S fuel', nl :: ts1 =>
      if (length ts1 <=? nl)%nat then Raise UnpicklingError
      else
        let lm := firstn nl ts1 in
        match skipn nl ts1 with
        | [] => Raise UnpicklingError
        | nc :: ts2 =>
            '(cs, rest) <-
              for_each (range nc)
                (fun _ '(cs, ts) => '(c, ts') <- load fuel' ts ;; Ok (cs ++ [c], ts'))
                ([], ts2) ;;
            Ok (new_node lm cs, rest)
        end
  | _, _ => Raise UnpicklingError
  end.

Definition loads (bytes : list Byte.byte) : result Node :=
  '(n, rest) <- load (length bytes) (map Byte.to_nat bytes) ;;
  match rest with
  | [] => Ok n
  | _ => Raise UnpicklingError
  end.

Definition dumps (n : Node) : list Byte.byte :=
  map (fun t => match Byte.of_nat t with Some b => b | None => Byte.xff end) (dump n).

(** The rows of every block one after the other, shifted by the columns
    of the blocks before. *)
Definition hstack_rows (m : nat) (cols : list nat) (datas : list (list Q))
  (indices indptrs : list (list Z)) : list (list (Z * Q)) :=
  map (fun r =>
         concat
           (map (fun b =>
                   let '(off, (dat, (ind, ptr))) := b in
                   let lo := Z.to_nat (nth r ptr 0%Z) in
                   let hi := Z.to_nat (nth (S r) ptr 0%Z) in
                   combine (map (fun c => (c + Z.of_nat off)%Z) (slice lo hi ind))
                           (slice lo hi dat))
                (combine (removelast (cumsum (0 :: cols)))
                         (combine datas (combine indices indptrs)))))
      (range m).

Definition hstack (m : nat) (cols : list nat) (datas : list (list Q))
  (indices indptrs : list (list Z)) : list Q * list Z * list Z :=
  let rs := hstack_rows m cols datas indices indptrs in
  (map snd (concat rs), map fst (concat rs),
   map Z.of_nat (cumsum (0 :: map (@length _) rs))).

#[export] Instance externals : Externals := {
  rng := nat;
  randint := fun high g => ((Z.of_nat g * 1103515245 + 12345) mod high, S g)%Z;
  kmeans_labels := kmeans;
  label_representation := yT_x;
  train_1vsrest := train;
  pickle_load := loads;
  pickle_dump := dumps;
  fingerprint := fun _ _ ynnz xnnz g _ _ =>
    String.append (if Nat.even (ynnz + xnnz + g) then "e" else "o")%string
                  (if Nat.even g then "0" else "1")%string;
  uuid4_hex := fun k => if Nat.even k then "a"%string else "b"%string;
  hstack_rr_to := hstack
}.

(** Four instances, three labels, two features. The labels 0, 1 and 2
    occur with the first feature only, so their representations share the
    first non-zero feature. *)
Definition y : matrix :=
  mkMatrix 3 [[1; 0; 0]; [0; 1; 0]; [0; 0; 1]; [1; 1; 0]]%Q.

Definition x : matrix :=
  mkMatrix 2 [[1; 0]; [2; 0]; [1; 0]; [3; 0]]%Q.

Definition world : World := mkWorld (0 : rng) [] [] 0 [].

End Sample.

(* ------------------------------------------------------------------ *)
(** ** The vocabulary of the properties *)

Section Vocabulary.
Context {E : Externals}.

(** [c] is what the loop of the recursive case builds for cluster [i]. *)
Definition built_child (fuel : nat) (rep : matrix) (lm ml : list nat) (d K dmax : nat)
  (i : nat) (c : Node) : Prop :=
  exists rs cm g g',
    bool_index (eq_mask ml i) (rows rep) = Ok rs /\
    bool_index (eq_mask ml i) lm = Ok cm /\
    build_tree_rec fuel (with_rows rep rs) cm (S d) K dmax g = Ok (c, g').

End Vocabulary.

(** The attributes of a node that a visit may change. *)
Definition attrs_of (n : Node) : attrs := (model n, index n).

(** The visits of a traversal, one after the other, on the nodes in the
    order of [dfs_nodes]. *)
Fixpoint visit_seq {S : Type} (visit : Node -> S -> result (attrs * S))
  (ns : list Node) (s : S) : result (list attrs * S) :=
  match ns with
  | [] => Ok ([], s)
  | n :: ns' =>
      '(a, s1) <- visit n s ;;
      '(rest, s2) <- visit_seq visit ns' s1 ;;
      Ok (a :: rest, s2)
  end.

(** The weight block and the bias a node holds, if it was trained. *)
Definition node_weights (n : Node) : option dummy :=
  match model n with
  | Some m => weights m
  | None => None
  end.

Definition trained (n : Node) : Prop :=
  exists m w, model n = Some m /\ weights m = Some w.

(** Powers of two, and the smallest one that is at least [n]. *)
Definition is_pow2 (p : nat) : Prop := exists k, p = 2 ^ k.

Definition smallest_pow2_ge (p n : nat) : Prop :=
  is_pow2 p /\ n <= p /\ forall q, is_pow2 q -> n <= q -> p <= q.

(** The view of the row pointers of a trained node lies inside a mapped
    array of capacity [cap], with one entry more than the block has rows. *)
Definition indptr_in_bounds (cap : nat) (n : Node) : Prop :=
  exists m w,
    model n = Some m /\ weights m = Some w /\
    length (view_vals (dm_indptr w)) = fst (dm_shape w) + 1 /\
    view_off (dm_indptr w) + (fst (dm_shape w) + 1) <= cap.

(** What the pair [pair] of a beam puts into the pool of the next level:
    itself if its node is a leaf, and otherwise its children with their
    scores, in the order of the children. *)
Definition emits (tm : TreeModel) (instance_preds : list Q) (pair : Node * Q)
  (out : list (Node * Q)) : Prop :=
  if isLeaf (fst pair) then out = [pair]
  else exists pred,
      node_preds tm instance_preds (fst pair) = Ok pred /\
      out = combine (children (fst pair)) (children_score (snd pair) pred).


(* ------------------------------------------------------------------ *)
(** ** The sample, built, trained and flattened *)

Import Sample.

(** The tree [_build_tree] builds for the sample with [K = 2] and
    [dmax = 1]: the three labels are in the first cluster. *)
Definition sample_tree : Node :=
  new_node [0; 1; 2] [new_node [0; 1; 2] []; new_node [] []].

(** The sample tree trained, and the mapped arrays after the training. *)
Definition sample_info : mmap_info :=
  new_mmap_info "weights/a"%string 3 x ""%string.

Definition sample_training : Node * mmap_info :=
  Eval vm_compute in
    match @train_nodes externals sample_tree y x ""%string "weights/a"%string with
    | Ok p => p
    | Raise _ => (sample_tree, sample_info)
    end.

Definition sample_root_model : NodeModel :=
  Eval vm_compute in
    match model (fst sample_training) with
    | Some m => m
    | None => mkNodeModel None 0
    end.

(** The sample tree flattened. *)
Definition sample_flat : FlatModel * list nat * Node * list String.string :=
  Eval vm_compute in
    match @_flatten_model externals (fst sample_training)
            "weights/a/flat_model"%string [] with
    | Ok p => p
    | Raise _ => (mkFlatModel ""%string (mkCsr [] [] [] (0, 0)) 0 0, [], sample_tree, [])
    end.

Definition sample_model : TreeModel :=
  let '(fm, wm, r, _) := sample_flat in
  mkTreeModel r fm wm
    (mkMmapDesc "weights/a"%string (csr_shape (fm_weights fm)) (nnz (fm_weights fm))).

(** The decision values of one instance on the five columns of the
    sample model, and the pool of the first round of its beam search. *)
Definition sample_preds : list Q := [2; -1; 1 # 2; 0; 3]%Q.

Definition sample_pool : list (Node * Q) :=
  Eval vm_compute in
    match for_each [(root sample_model, 0%Q)] (expand sample_model sample_preds) [] with
    | Ok l => l
    | Raise _ => []
    end.

(** A block of 4098 non-zero weights, more than the 4096 cells the data
    and indices arrays start with. *)
Definition sample_block : csr := csr_of_dense (2, 2049, fun _ _ => 1%Q).

Definition sample_grown : dummy * mmap_info :=
  Eval vm_compute in
    match _as_mmap sample_block sample_info with
    | Ok p => p
    | Raise _ => (mkDummy (mkView 0 []) (mkView 0 []) (mkView 0 []) (0, 0), sample_info)
    end.



(* ------------------------------------------------------------------ *)
(** ** More vocabulary: leaves, well-formed blocks and cursors *)

(** The leaves of a tree, in the order [Node.dfs] meets them. *)
Definition leaves (n : Node) : list Node := filter isLeaf (dfs_nodes n).

(** A node as [_build_tree] leaves it: no model, no index, and either no
    child or [K] children. *)
Definition shape_only (K : nat) (n : Node) : Prop :=
  model n = None /\ index n = None /\
  (children n = [] \/ length (children n) = K).

(** The label maps of the children of a node split its label map. *)
Definition splits_labels (n : Node) : Prop :=
  children n = [] \/
  Permutation (concat (map label_map (children n))) (label_map n).

(** A CSR block whose arrays agree with each other and with its shape. *)
Definition csr_wf (a : csr) : Prop :=
  length (csr_indices a) = length (csr_data a) /\
  length (csr_indptr a) = fst (csr_shape a) + 1.

(** The cursors of [mmap_info] lie inside the arrays, and the data and the
    indices arrays have one capacity. *)
Definition info_wf (info : mmap_info) : Prop :=
  num_data info <= arr_shape0 (mm_data info) /\
  arr_shape0 (mm_indices info) = arr_shape0 (mm_data info) /\
  num_indptr info <= arr_shape0 (mm_indptr info).

(** [a[start:stop]], read. *)
Definition read {A : Type} (a : Array A) (start stop : nat) : list A :=
  slice start stop (arr_cells a).

(** The values and the column indices of a trained node are views of one
    length that end at or before [used]. *)
Definition data_in_bounds (used : nat) (n : Node) : Prop :=
  exists m w,
    model n = Some m /\ weights m = Some w /\
    length (view_vals (dm_indices w)) = dm_nnz w /\
    view_off (dm_indices w) = view_off (dm_data w) /\
    view_off (dm_data w) + dm_nnz w <= used.

(** A node holds the bias [b]; a node holds a weight block of [m] rows. *)
Definition has_bias_of (b : Q) (n : Node) : Prop :=
  exists m, model n = Some m /\ b == bias m.

Definition has_rows (m : nat) (n : Node) : Prop :=
  exists w, node_weights n = Some w /\ fst (dm_shape w) = m.

(** A node whose weight block was taken out of its model. *)
Definition popped (n : Node) : Prop :=
  exists m, model n = Some m /\ weights m = None.

(** The three files [_mmap_hstack] makes for a prefix. *)
Definition hstack_files (prefix : String.string) : list String.string :=
  [String.append prefix ".data"%string;
   String.append prefix ".indices"%string;
   String.append prefix ".indptr"%string].

(* ------------------------------------------------------------------ *)
(** ** Prediction for a batch *)

(** [np.vstack] of a list of vectors: it needs a vector, and vectors of
    one length. *)
Definition vstack {A : Type} (arrays : list (list A)) : result (list (list A)) :=
  match arrays with
  | [] => Raise ValueError
  | a :: rest =>
      if forallb (fun b => (length b =? length a)%nat) rest then Ok arrays
      else Raise ValueError
  end.

Section Predict.
(** [linear.predict_values(flat_model, x)], from [linear.py], which is not
    among the sources: the decision values, a row per instance. *)
Variable linear_predict_values : FlatModel -> matrix -> list (list Q).

(** [TreeModel.predict_values] *)
Definition predict_values (tm : TreeModel) (x : matrix) (beam_width : Z)
  : result (list (list entry)) :=
  let all_preds := linear_predict_values (flat_model tm) x in
  scores <- map_result (fun instance_preds => _beam_search tm instance_preds beam_width)
                       all_preds ;;
  vstack scores.

End Predict.

(** The three files of the mapped arrays of the training under a root. *)
Definition node_files (mmap_root : String.string) : list String.string :=
  [String.append mmap_root "/nodes.data"%string;
   String.append mmap_root "/nodes.indices"%string;
   String.append mmap_root "/nodes.indptr"%string].

(* ------------------------------------------------------------------ *)
(** ** Logging ([libmultilabel/logging.py]) *)

Module Logging.

(** The levels of the [logging] module that the file names. *)
Definition NOTSET : nat := 0.
Definition INFO : nat := 20.

Definition LOG_FORMAT : String.string :=
  "%(asctime)s %(levelname)s:%(message)s"%string.

(** A log record: its level, its message, and the attribute [collect],
    if the record was made with one. *)
Record LogRecord : Type := mkLogRecord {
  levelno : nat;
  msg : String.string;
  collect : option bool
}.

(** [class ListHandler(logging.Handler)]: the level, the formatter and
    the filters of a handler, and the list [logs]. The one filter there is
    in the file is the test of [collect], so the filters are a flag. *)
Record ListHandler : Type := mkListHandler {
  lh_level : nat;
  lh_formatter : option String.string;
  lh_collect_filter : bool;
  logs : list String.string
}.

(** [ListHandler(level=level)] *)
Definition ListHandler_init (level : nat) : ListHandler :=
  mkListHandler level None false [].

(** [logging.StreamHandler()] with its level and formatter. *)
Record StreamHandler : Type := mkStreamHandler {
  sh_level : nat;
  sh_formatter : option String.string
}.

Section Handlers.
(** [logging.Handler.format]: the text of a record under the formatter
    of the handler (under the default one when there is none). *)
Variable format : option String.string -> LogRecord -> String.string.

(** [ListHandler.emit] *)
Definition emit (h : ListHandler) (record : LogRecord) : ListHandler :=
  let string := format (lh_formatter h) record in
  mkListHandler (lh_level h) (lh_formatter h) (lh_collect_filter h)
                (logs h ++ [string]).

(** [ListHandler.get_logs]: the logs, and the handler with none. *)
Definition get_logs (h : ListHandler) : list String.string * ListHandler :=
  (logs h,
   mkListHandler (lh_level h) (lh_formatter h) (lh_collect_filter h) []).

(** [lambda record: record.__dict__.get('collect', False)] *)
Definition collect_filter (record : LogRecord) : bool :=
  match collect record with
  | Some b => b
  | None => false
  end.

(** What the standard library does with a record at a handler of a
    logger ([Logger.callHandlers] and [Handler.handle]): a record below
    the level of the handler is passed over, and so is one a filter
    refuses; the others are emitted. *)
Definition handle (h : ListHandler) (record : LogRecord) : ListHandler :=
  if (lh_level h <=? levelno record)%nat
  then if negb (lh_collect_filter h) || collect_filter record
       then emit h record
       else h
  else h.

End Handlers.

(** A handler of a logger: one of the two of the file, which the
    module's globals hold too, or another one. *)
Inductive handler_ref : Type :=
| StreamRef
| CollectRef
| OtherRef (id : nat).

(** The globals [stream_handler] and [collect_handler], the root logger,
    and what [add_stream_handler] sets of the loggers of the two
    libraries. *)
Record State : Type := mkState {
  stream_handler : option StreamHandler;
  collect_handler : option ListHandler;
  root_level : nat;
  root_handlers : list handler_ref;
  transformer_default_handler : bool;
  transformer_propagation : bool;
  lightning_handlers : list handler_ref;
  lightning_propagate : bool
}.

(** [add_stream_handler] *)
Definition add_stream_handler (level : nat) (st : State) : StreamHandler * State :=
  match stream_handler st with
  | Some h => (h, st)
  | None =>
      let h := mkStreamHandler level (Some LOG_FORMAT) in
      (h, mkState (Some h) (collect_handler st) NOTSET
                  (root_handlers st ++ [StreamRef])
                  false true [] true)
  end.

(** [add_collect_handler] *)
Definition add_collect_handler (level : nat) (st : State) : ListHandler * State :=
  match collect_handler st with
  | Some h => (h, st)
  | None =>
      let h := mkListHandler level (Some LOG_FORMAT) true [] in
      (h, mkState (stream_handler st) (Some h) (root_level st)
                  (root_handlers st ++ [CollectRef])
                  (transformer_default_handler st) (transformer_propagation st)
                  (lightning_handlers st) (lightning_propagate st))
  end.

Definition href_eqb (r r' : handler_ref) : bool :=
  match r, r' with
  | StreamRef, StreamRef => true
  | CollectRef, CollectRef => true
  | OtherRef a, OtherRef b => (a =? b)%nat
  | _, _ => false
  end.

(** How often a handler is among the handlers of the root logger. *)
Definition attached (r : handler_ref) (st : State) : nat :=
  length (filter (href_eqb r) (root_handlers st)).

End Logging.

(* ------------------------------------------------------------------ *)
(** ** More of the sample *)

(** The tree of the sample with [dmax = 3]: three levels below the root. *)
Definition sample_deep : Node :=
  Eval vm_compute in
    match @_build_tree externals (yT_x y x) (range 3) 0 2 3 (0 : nat) with
    | Ok (n, _) => n
    | Raise _ => sample_tree
    end.

(** A run of [train_tree] on the sample with an empty cache, and one with
    the pickle of the sample tree in the cache. *)
Definition sample_run : TreeModel * World :=
  Eval vm_compute in
    match @train_tree externals y x ""%string 2 1 true world with
    | Ok p => p
    | Raise _ => (sample_model, world)
    end.



(** A block of two rows and three columns of ones, and the mapped arrays
    after it was appended to the empty ones. *)
Definition sample_small_block : csr := csr_of_dense (2, 3, fun _ _ => 1%Q).

Definition sample_appended : dummy * mmap_info :=
  Eval vm_compute in
    match _as_mmap sample_small_block sample_info with
    | Ok p => p
    | Raise _ => (mkDummy (mkView 0 []) (mkView 0 []) (mkView 0 []) (0, 0), sample_info)
    end.

(** The blocks of the trained sample, in the order of the nodes. *)
Definition sample_blocks : list dummy :=
  Eval vm_compute in
    flat_map (fun n => match node_weights n with Some w => [w] | None => [] end)
             (dfs_nodes (fst sample_training)).

(** Three records, of which the first and the last ask to be collected. *)
Definition sample_records : list Logging.LogRecord :=
  [Logging.mkLogRecord 20 "a"%string (Some true);
   Logging.mkLogRecord 20 "b"%string None;
   Logging.mkLogRecord 30 "c"%string (Some true)].

Definition sample_logging : Logging.State :=
  Logging.mkState None None 30 [Logging.OtherRef 0] true false [Logging.OtherRef 1] false.

(** The mapped arrays after the small block and then the large block
    were appended: the second append grows the arrays. *)
Definition sample_grown_twice : dummy * mmap_info :=
  Eval vm_compute in
    match _as_mmap sample_block (snd sample_appended) with
    | Ok p => p
    | Raise _ => sample_appended
    end.

(* ------------------------------------------------------------------ *)
(** * Properties *)

(** ** Results and loops *)

(** Induction on nodes through the list of children. *)
Lemma Node_ind' (P : Node -> Prop) :
  (forall lm cs m i, Forall P cs -> P (mkNode lm cs m i)) ->
  forall n, P n.
Proof.
  intros H.
  fix IH 1.
  intros [lm cs m i].
  apply H.
  induction cs as [|c cs IHcs]; constructor.
  - apply IH.
  - exact IHcs.
Qed.

Lemma bind_Ok {A B : Type} (m : result A) (k : A -> result B) (b : B) :
  bind m k = Ok b -> exists a, m = Ok a /\ k a = Ok b.
Proof.
  destruct m as [a|e]; simpl; intros H.
  - exists a. split; [reflexivity | exact H].
  - discriminate H.
Qed.

Lemma bind_Raise {A B : Type} (m : result A) (k : A -> result B) (e : exn) :
  bind m k = Raise e ->
  m = Raise e \/ exists a, m = Ok a /\ k a = Raise e.
Proof.
  destruct m as [a|e']; simpl; intros H.
  - right. exists a. split; [reflexivity | exact H].
  - left. inversion H. reflexivity.
Qed.

(** Splits a successful sequence of binds into its steps. *)
Ltac bind_inv H :=
  let a := fresh "a" in
  let Ha := fresh "H" a in
  apply bind_Ok in H; destruct H as [a [Ha H]].

Lemma for_each_app {A S : Type} (body : A -> S -> result S) (xs ys : list A) (s : S) :
  for_each (xs ++ ys) body s = bind (for_each xs body s) (for_each ys body).
Proof.
  revert s. induction xs as [|x xs IH]; intros s; simpl.
  - reflexivity.
  - destruct (body x s) as [s'|e]; simpl; [apply IH | reflexivity].
Qed.

Lemma for_each_ext {A S : Type} (body1 body2 : A -> S -> result S) (xs : list A) :
  (forall x s, body1 x s = body2 x s) ->
  forall s, for_each xs body1 s = for_each xs body2 s.
Proof.
  intros Hb. induction xs as [|x xs IH]; intros s; simpl.
  - reflexivity.
  - rewrite Hb. destruct (body2 x s); [apply IH | reflexivity].
Qed.

(** A loop over [seq start n] that appends one element per round. *)
Lemma for_each_collect {B St : Type} (P : nat -> B -> Prop)
  (body : nat -> list B * St -> result (list B * St)) :
  (forall i acc s acc' s',
      body i (acc, s) = Ok (acc', s') -> exists b, acc' = acc ++ [b] /\ P i b) ->
  forall n start acc s acc' s',
    for_each (seq start n) body (acc, s) = Ok (acc', s') ->
    exists bs, acc' = acc ++ bs /\ length bs = n /\
      forall k, k < n -> exists b, nth_error bs k = Some b /\ P (start + k) b.
Proof.
  intros Hbody. induction n as [|n IH]; intros start acc s acc' s' H; simpl in H.
  - inversion H; subst. exists []. rewrite app_nil_r.
    repeat split; intros; lia.
  - destruct (body start (acc, s)) as [[acc1 s1]|e] eqn:Hb; [|discriminate H].
    destruct (Hbody _ _ _ _ _ Hb) as [b [-> Pb]].
    destruct (IH _ _ _ _ _ H) as [bs [-> [Hlen Hnth]]].
    exists (b :: bs). rewrite <- app_assoc. simpl.
    repeat split; [lia|].
    intros [|k] Hk; simpl.
    + exists b. rewrite Nat.add_0_r. auto.
    + destruct (Hnth k ltac:(lia)) as [c [Hc Pc]].
      exists c. split; [exact Hc|]. replace (start + S k) with (S start + k) by lia.
      exact Pc.
Qed.

(** ** Boolean masks *)

Lemma bool_index_Ok {A : Type} (mask : list bool) (xs ys : list A) :
  bool_index mask xs = Ok ys ->
  length mask = length xs /\ ys = map snd (filter fst (combine mask xs)).
Proof.
  unfold bool_index. destruct (length mask =? length xs) eqn:Hl; intros H.
  - apply Nat.eqb_eq in Hl. inversion H. auto.
  - discriminate H.
Qed.

Lemma eq_mask_length (ml : list nat) (i : nat) : length (eq_mask ml i) = length ml.
Proof. unfold eq_mask. apply length_map. Qed.

(** The elements the mask of cluster [i] selects: none exactly when no
    row was put into cluster [i]. *)
Lemma eq_mask_select_nil {A : Type} (ml : list nat) (i : nat) (xs : list A) :
  length ml = length xs ->
  (map snd (filter fst (combine (eq_mask ml i) xs)) = [] <-> ~ In i ml).
Proof.
  revert xs. induction ml as [|c ml IH]; intros [|x xs] Hl; simpl in *;
    try discriminate Hl.
  - tauto.
  - injection Hl as Hl. specialize (IH xs Hl).
    destruct (c =? i) eqn:Hc; simpl.
    + apply Nat.eqb_eq in Hc. split; [discriminate | intros H; exfalso; apply H; auto].
    + apply Nat.eqb_neq in Hc. rewrite IH. tauto.
Qed.

Lemma for_each_total {A St : Type} (body : A -> St -> result St) (xs : list A) :
  (forall x s, exists s', body x s = Ok s') ->
  forall s, exists s', for_each xs body s = Ok s'.
Proof.
  intros Hbody. induction xs as [|x xs IH]; intros s; simpl.
  - exists s. reflexivity.
  - destruct (Hbody x s) as [s1 ->]. apply IH.
Qed.

(** One mask selects as many elements from two lists of its length. *)
Lemma mask_select_length {A B : Type} (mask : list bool) (xs : list A) (ys : list B) :
  length mask = length xs -> length mask = length ys ->
  length (map snd (filter fst (combine mask xs)))
  = length (map snd (filter fst (combine mask ys))).
Proof.
  revert xs ys. induction mask as [|b mask IH]; intros [|x xs] [|y0 ys] Hx Hy;
    simpl in *; try discriminate; [reflexivity|].
  injection Hx as Hx. injection Hy as Hy. specialize (IH xs ys Hx Hy).
  destruct b; simpl; rewrite !length_map in *; lia.
Qed.

(** ** Tree building *)

Section BuildTreeFacts.
Context {E : Externals}.

Lemma build_tree_rec_eq (fuel : nat) rep lm d K dmax g :
  build_tree_rec fuel rep lm d K dmax g =
  if (dmax <=? d)%nat || (shape0 rep <=? K)%nat
  then Ok (new_node lm [], g)
  else
    match fuel with
    | O => Raise OutOfFuel
    | S fuel' =>
        let '(seed, g1) := randint (2 ^ 31 - 1) g in
        metalabels <- kmeans_labels K seed rep ;;
        '(cs, g2) <-
          for_each (range K)
            (fun i '(cs, g) =>
               child_rows <- bool_index (eq_mask metalabels i) (rows rep) ;;
               child_map <- bool_index (eq_mask metalabels i) lm ;;
               '(child, g') <- build_tree_rec fuel' (with_rows rep child_rows)
                                 child_map (S d) K dmax g ;;
               Ok (cs ++ [child], g'))
            ([], g1) ;;
        Ok (new_node lm cs, g2)
    end.
Proof. destruct fuel; reflexivity. Qed.

(** The node built for a label map carries that label map. *)
Lemma build_tree_rec_label_map fuel rep lm d K dmax g n g' :
  build_tree_rec fuel rep lm d K dmax g = Ok (n, g') -> label_map n = lm.
Proof.
  rewrite build_tree_rec_eq.
  destruct ((dmax <=? d) || (shape0 rep <=? K)).
  - intros H. inversion H. reflexivity.
  - destruct fuel as [|fuel']; [discriminate|].
    destruct (randint (2 ^ 31 - 1) g) as [seed g1].
    intros H. bind_inv H. bind_inv H. destruct a0 as [cs g2].
    inversion H. reflexivity.
Qed.

(** The base case: a leaf for the label map. *)
Lemma build_tree_rec_base fuel rep lm d K dmax g n g' :
  build_tree_rec fuel rep lm d K dmax g = Ok (n, g') ->
  dmax <= d \/ shape0 rep <= K ->
  n = new_node lm [].
Proof.
  rewrite build_tree_rec_eq. intros H Hc.
  replace ((dmax <=? d) || (shape0 rep <=? K)) with true in H.
  - inversion H. reflexivity.
  - symmetry. apply orb_true_iff.
    destruct Hc as [Hc|Hc]; [left | right]; apply Nat.leb_le; exact Hc.
Qed.

(** Fuel beyond [dmax - d] changes nothing: the bound on the recursion is
    never what decides the result. *)
Lemma build_tree_rec_fuel fuel1 fuel2 rep lm d K dmax g :
  dmax - d <= fuel1 -> dmax - d <= fuel2 ->
  build_tree_rec fuel1 rep lm d K dmax g = build_tree_rec fuel2 rep lm d K dmax g.
Proof.
  revert fuel2 rep lm d g.
  induction fuel1 as [|f1 IH]; intros fuel2 rep lm d g H1 H2;
    rewrite (build_tree_rec_eq _ rep), (build_tree_rec_eq fuel2 rep);
    destruct ((dmax <=? d) || (shape0 rep <=? K)) eqn:Hc; try reflexivity;
    apply orb_false_iff in Hc; destruct Hc as [Hd _]; apply Nat.leb_gt in Hd.
  - lia.
  - destruct fuel2 as [|f2]; [lia|].
    destruct (randint (2 ^ 31 - 1) g) as [seed g1].
    destruct (kmeans_labels K seed rep) as [ml|e]; [simpl | reflexivity].
    f_equal. apply for_each_ext. intros i [cs g0].
    destruct (bool_index (eq_mask ml i) (rows rep)) as [rs|e]; [simpl | reflexivity].
    destruct (bool_index (eq_mask ml i) lm) as [cm|e]; [simpl | reflexivity].
    rewrite (IH f2); [reflexivity | lia | lia].
Qed.

End BuildTreeFacts.

Section BuildTreeTotal.
Context {E : Externals}.

(** What is asked of k-means: it returns a cluster id for every row. *)
Hypothesis kmeans_total :
  forall K seed rep, exists ml,
    kmeans_labels K seed rep = Ok ml /\ length ml = length (rows rep).

(** With such a k-means, [_build_tree] returns a tree: the recursion ends
    at depth [dmax] and no selection by a mask fails. *)
Lemma build_tree_rec_total (K dmax : nat) (fuel : nat) :
  forall rep lm d g,
    dmax - d <= fuel ->
    length lm = length (rows rep) ->
    exists n g', build_tree_rec fuel rep lm d K dmax g = Ok (n, g').
Proof.
  induction fuel as [|fuel IH]; intros rep lm d g Hfuel Hlen;
    rewrite build_tree_rec_eq;
    destruct ((dmax <=? d) || (shape0 rep <=? K)) eqn:Hc;
    try (eexists; eexists; reflexivity);
    apply orb_false_iff in Hc; destruct Hc as [Hd _]; apply Nat.leb_gt in Hd;
    [lia|].
  destruct (randint (2 ^ 31 - 1) g) as [seed g1].
  destruct (kmeans_total K seed rep) as [ml [-> Hml]]. cbn [bind].
  match goal with |- context [for_each ?xs ?body ?s0] =>
    assert (Hloop : exists s', for_each xs body s0 = Ok s');
      [apply for_each_total | destruct Hloop as [[cs g2] ->]] end.
  - intros i [cs g0].
    assert (H1 : length (eq_mask ml i) = length (rows rep))
      by (rewrite eq_mask_length; exact Hml).
    assert (H2 : length (eq_mask ml i) = length lm)
      by (rewrite eq_mask_length; lia).
    assert (Hb1 : bool_index (eq_mask ml i) (rows rep)
                  = Ok (map snd (filter fst (combine (eq_mask ml i) (rows rep)))))
      by (unfold bool_index; rewrite H1, Nat.eqb_refl; reflexivity).
    assert (Hb2 : bool_index (eq_mask ml i) lm
                  = Ok (map snd (filter fst (combine (eq_mask ml i) lm))))
      by (unfold bool_index; rewrite H2, Nat.eqb_refl; reflexivity).
    destruct (IH (with_rows rep (map snd (filter fst (combine (eq_mask ml i) (rows rep)))))
                 (map snd (filter fst (combine (eq_mask ml i) lm))) (S d) g0)
      as [c [g' Hc]]; [lia | |].
    + simpl. symmetry. apply mask_select_length; assumption.
    + cbn beta iota. rewrite Hb1. cbn [bind]. rewrite Hb2. cbn [bind].
      rewrite Hc. eexists. reflexivity.
  - cbn [bind]. eexists. eexists. reflexivity.
Qed.

Lemma build_tree_total rep lm d K dmax g :
  length lm = length (rows rep) ->
  exists n g', _build_tree rep lm d K dmax g = Ok (n, g').
Proof. intros Hlen. unfold _build_tree. apply build_tree_rec_total; [lia | exact Hlen]. Qed.

End BuildTreeTotal.


Section BuildTreeClaims.
Context {E : Externals}.

(** The recursive case: one child per cluster id, in the order of the ids. *)
Lemma build_tree_rec_children fuel rep lm d K dmax g n g' :
  build_tree_rec fuel rep lm d K dmax g = Ok (n, g') ->
  d < dmax -> K < shape0 rep ->
  exists fuel' ml,
    fuel = S fuel' /\
    kmeans_labels K (fst (randint (2 ^ 31 - 1) g)) rep = Ok ml /\
    length (children n) = K /\
    forall i, i < K ->
      exists c, nth_error (children n) i = Some c /\
                built_child fuel' rep lm ml d K dmax i c.
Proof.
  rewrite build_tree_rec_eq. intros H Hd HK.
  replace ((dmax <=? d) || (shape0 rep <=? K)) with false in H
    by (symmetry; apply orb_false_iff; split; apply Nat.leb_gt; assumption).
  destruct fuel as [|fuel']; [discriminate|].
  destruct (randint (2 ^ 31 - 1) g) as [seed g1]. simpl fst.
  apply bind_Ok in H. destruct H as [ml [Hml H]].
  apply bind_Ok in H. destruct H as [[cs g2] [Hloop H]].
  inversion H; subst; clear H.
  exists fuel', ml. split; [reflexivity|]. split; [exact Hml|]. simpl.
  unfold range in Hloop.
  apply (for_each_collect (built_child fuel' rep lm ml d K dmax)) in Hloop.
  - destruct Hloop as [bs [-> [Hlen Hnth]]]. simpl. split; [exact Hlen|].
    intros i Hi. destruct (Hnth i Hi) as [c [Hc Hb]]. exists c. auto.
  - clear. intros i acc s acc' s' H.
    apply bind_Ok in H. destruct H as [rs [Hrs H]].
    apply bind_Ok in H. destruct H as [cm [Hcm H]].
    apply bind_Ok in H. destruct H as [[c g'] [Hc H]].
    inversion H; subst. exists c. split; [reflexivity|].
    exists rs, cm, s. eexists. split; [exact Hrs|]. split; [exact Hcm|]. exact Hc.
Qed.

(** What a built child is: its label map is the selection of its cluster,
    and it is the empty leaf when the cluster is empty. *)
Lemma built_child_spec fuel rep lm ml d K dmax i c :
  built_child fuel rep lm ml d K dmax i c ->
  length ml = length lm /\
  bool_index (eq_mask ml i) lm = Ok (label_map c) /\
  (label_map c = [] <-> ~ In i ml) /\
  (~ In i ml -> c = new_node [] []).
Proof.
  intros [rs [cm [g [g' [Hrs [Hcm Hc]]]]]].
  assert (Hlm := Hc). apply build_tree_rec_label_map in Hlm.
  assert (Hcm' := Hcm).
  apply bool_index_Ok in Hrs. destruct Hrs as [Hl1 Ers].
  apply bool_index_Ok in Hcm'. destruct Hcm' as [Hl2 Ecm].
  rewrite eq_mask_length in Hl1, Hl2.
  split; [exact Hl2|]. split; [rewrite Hlm; exact Hcm|].
  split.
  - rewrite Hlm, Ecm. apply eq_mask_select_nil. exact Hl2.
  - intros Hi.
    assert (rs = []) as -> by (rewrite Ers; apply eq_mask_select_nil; assumption).
    assert (cm = []) as -> by (rewrite Ecm; apply eq_mask_select_nil; assumption).
    eapply build_tree_rec_base; [exact Hc|]. right.
    unfold shape0, with_rows. simpl. lia.
Qed.

(** C8. Whenever [_build_tree] takes the recursive case, the node it returns
    has exactly [K] children, the [i]-th being the child of cluster id [i]
    (its label map is the labels of cluster [i]); a cluster without any
    label still yields its child, a leaf with an empty label map. *)
Theorem build_tree_K_children rep lm d K dmax g n g' :
  _build_tree rep lm d K dmax g = Ok (n, g') ->
  d < dmax -> K < shape0 rep ->
  exists ml,
    kmeans_labels K (fst (randint (2 ^ 31 - 1) g)) rep = Ok ml /\
    length (children n) = K /\
    forall i, i < K ->
      exists c, nth_error (children n) i = Some c /\
        bool_index (eq_mask ml i) lm = Ok (label_map c) /\
        (~ In i ml -> isLeaf c = true /\ label_map c = []).
Proof.
  unfold _build_tree. intros H Hd HK.
  apply build_tree_rec_children in H; [|exact Hd|exact HK].
  destruct H as [fuel' [ml [_ [Hml [Hlen Hch]]]]].
  exists ml. split; [exact Hml|]. split; [exact Hlen|].
  intros i Hi. destruct (Hch i Hi) as [c [Hc Hb]].
  exists c. split; [exact Hc|].
  apply built_child_spec in Hb. destruct Hb as [_ [Hsel [_ Hempty]]].
  split; [exact Hsel|].
  intros Hni. rewrite (Hempty Hni). split; reflexivity.
Qed.


End BuildTreeClaims.

Lemma build_tree_K_children_witness :
  exists ml,
    Sample.kmeans 2 (fst (@randint externals (2 ^ 31 - 1) 0)) (yT_x y x) = Ok ml /\
    length (children sample_tree) = 2 /\
    forall i, i < 2 ->
      exists c, nth_error (children sample_tree) i = Some c /\
        bool_index (eq_mask ml i) (range 3) = Ok (label_map c) /\
        (~ In i ml -> isLeaf c = true /\ label_map c = []).
Proof.
  apply (@build_tree_K_children externals (yT_x y x) (range 3) 0 2 1 0 sample_tree 1).
  - vm_compute. reflexivity.
  - lia.
  - vm_compute. lia.
Defined.



(** ** Depth-first traversal *)

Section Traversal.
Variable St : Type.
Variable visit : Node -> St -> result (attrs * St).

Lemma dfs_eq (n : Node) (s : St) :
  dfs visit n s =
  ('(a, s1) <- visit n s ;;
   '(cs, s2) <- dfs_children visit (children n) s1 ;;
   Ok (mkNode (label_map n) cs (fst a) (snd a), s2)).
Proof. destruct n. reflexivity. Qed.

Lemma visit_seq_app (l1 l2 : list Node) (s : St) :
  visit_seq visit (l1 ++ l2) s =
  ('(a1, s1) <- visit_seq visit l1 s ;;
   '(a2, s2) <- visit_seq visit l2 s1 ;;
   Ok (a1 ++ a2, s2)).
Proof.
  revert s. induction l1 as [|n l1 IH]; intros s; simpl.
  - destruct (visit_seq visit l2 s) as [[a2 s2]|e]; reflexivity.
  - destruct (visit n s) as [[a s1]|e]; simpl; [|reflexivity].
    rewrite IH. destruct (visit_seq visit l1 s1) as [[a1 s1']|e]; simpl; [|reflexivity].
    destruct (visit_seq visit l2 s1') as [[a2 s2]|e]; reflexivity.
Qed.

(** A traversal is the sequence of its visits: it raises what the first
    failing visit raises, and otherwise leaves in every node what the
    visit of that node returned. *)
Lemma dfs_visit_seq (n : Node) :
  forall s,
    visit_seq visit (dfs_nodes n) s =
    match dfs visit n s with
    | Ok (n', s') => Ok (map attrs_of (dfs_nodes n'), s')
    | Raise e => Raise e
    end.
Proof.
  induction n as [lm cs m i IH] using Node_ind'. intros s.
  rewrite dfs_eq.
  change (dfs_nodes (mkNode lm cs m i))
    with (mkNode lm cs m i :: flat_map dfs_nodes cs).
  cbn [visit_seq].
  destruct (visit (mkNode lm cs m i) s) as [[a s1]|e]; simpl; [|reflexivity].
  assert (Hcs : forall s,
             visit_seq visit (flat_map dfs_nodes cs) s =
             match dfs_children visit cs s with
             | Ok (cs', s') => Ok (map attrs_of (flat_map dfs_nodes cs'), s')
             | Raise e => Raise e
             end).
  { clear s s1 a. induction IH as [|c cs Hc _ IHcs]; intros s; simpl.
    - reflexivity.
    - rewrite visit_seq_app, Hc.
      destruct (dfs visit c s) as [[c' s']|e]; simpl; [|reflexivity].
      rewrite IHcs.
      destruct (dfs_children visit cs s') as [[cs' s'']|e]; simpl; [|reflexivity].
      rewrite map_app. reflexivity. }
  rewrite Hcs.
  destruct (dfs_children visit cs s1) as [[cs' s2]|e]; simpl; [|reflexivity].
  destruct a; reflexivity.
Qed.

(** A traversal keeps the shape of the tree and the label maps. *)
Lemma dfs_label_maps (n : Node) :
  forall s n' s',
    dfs visit n s = Ok (n', s') ->
    map label_map (dfs_nodes n') = map label_map (dfs_nodes n).
Proof.
  induction n as [lm cs m i IH] using Node_ind'. intros s n' s' H.
  assert (Hch : forall s1 cs' s2,
             dfs_children visit cs s1 = Ok (cs', s2) ->
             map label_map (flat_map dfs_nodes cs')
             = map label_map (flat_map dfs_nodes cs)).
  { clear H. induction IH as [|c cs Hc _ IHcs]; intros s1 cs' s2 Hcs; simpl in Hcs.
    - inversion Hcs. reflexivity.
    - apply bind_Ok in Hcs. destruct Hcs as [[c' s1'] [Hc' Hcs]].
      apply bind_Ok in Hcs. destruct Hcs as [[cs'' s1''] [Hcs'' Hcs]].
      inversion Hcs; subst; clear Hcs. simpl.
      rewrite !map_app. f_equal.
      + eapply Hc. exact Hc'.
      + eapply IHcs. exact Hcs''. }
  rewrite dfs_eq in H.
  apply bind_Ok in H. destruct H as [[a s1] [_ H]].
  apply bind_Ok in H. destruct H as [[cs' s2] [Hcs H]].
  inversion H; subst; clear H.
  simpl. f_equal. eapply Hch. exact Hcs.
Qed.

End Traversal.

(** The closure [count] counts the nodes. *)
Lemma count_seq (ns : list Node) (k : nat) :
  exists al, visit_seq count ns k = Ok (al, k + length ns).
Proof.
  revert k. induction ns as [|n ns IH]; intros k; simpl.
  - exists []. rewrite Nat.add_0_r. reflexivity.
  - destruct (IH (k + 1)) as [al Hal]. rewrite Hal. simpl.
    eexists. do 2 f_equal. lia.
Qed.

Lemma dfs_count (r : Node) (k : nat) :
  exists r', dfs count r k = Ok (r', k + length (dfs_nodes r)).
Proof.
  destruct (count_seq (dfs_nodes r) k) as [al Hal].
  rewrite dfs_visit_seq in Hal.
  destruct (dfs count r k) as [[r' k']|e]; [|discriminate Hal].
  inversion Hal. exists r'. reflexivity.
Qed.

(** ** Prefix sums *)

Lemma cumsum_from_length (acc : nat) (xs : list nat) :
  length (cumsum_from acc xs) = length xs.
Proof.
  revert acc. induction xs as [|x xs IH]; intros acc; simpl; [|rewrite IH]; reflexivity.
Qed.

(** Consecutive entries of [acc :: cumsum_from acc xs] differ by the
    entry of [xs] between them. *)
Lemma cumsum_from_step (xs : list nat) :
  forall acc i x,
    nth_error xs i = Some x ->
    exists a, nth_error (acc :: cumsum_from acc xs) i = Some a /\
              nth_error (acc :: cumsum_from acc xs) (S i) = Some (a + x).
Proof.
  induction xs as [|x0 xs IH]; intros acc i x Hi.
  - destruct i; discriminate Hi.
  - destruct i as [|i]; simpl in Hi.
    + inversion Hi; subst. exists acc. split; reflexivity.
    + destruct (IH (acc + x0) i x Hi) as [a [Ha Hb]].
      exists a. split; [exact Ha | exact Hb].
Qed.

Lemma cumsum_cons0 (xs : list nat) : cumsum (0 :: xs) = 0 :: cumsum_from 0 xs.
Proof. reflexivity. Qed.

(** ** Flattening *)

Lemma Forall2_nth_error {A B : Type} (R : A -> B -> Prop) (l1 : list A) (l2 : list B) :
  Forall2 R l1 l2 ->
  forall i a, nth_error l1 i = Some a -> exists b, nth_error l2 i = Some b /\ R a b.
Proof.
  induction 1 as [|x y l1 l2 Hxy _ IH]; intros [|i] a Hi; simpl in *; try discriminate.
  - inversion Hi; subst. exists y. auto.
  - apply IH. exact Hi.
Qed.

Lemma for_each_Raise {A St : Type} (body : A -> St -> result St) (xs : list A) :
  forall s e, for_each xs body s = Raise e ->
              exists x s', In x xs /\ body x s' = Raise e.
Proof.
  induction xs as [|x xs IH]; intros s e H; simpl in H.
  - discriminate H.
  - destruct (body x s) as [s1|e1] eqn:Hb.
    + destruct (IH _ _ H) as [x' [s' [Hin Hx']]]. exists x', s'. simpl. auto.
    + inversion H; subst. exists x, s. simpl. auto.
Qed.

(** The visits of the flattener that succeed: the index counts the nodes,
    the blocks are collected in the order of the visits, and every bias
    was equal to the one compared with. *)
Lemma flatten_seq_Ok (b : Q) (nodes : list Node) :
  forall i ws al i' ws',
    visit_seq (flatten_visit b) nodes (i, ws) = Ok (al, (i', ws')) ->
    i' = i + length nodes /\
    map snd al = map Some (seq i (length nodes)) /\
    Forall (fun n => exists m, model n = Some m /\ b == bias m) nodes /\
    exists new, ws' = ws ++ new /\
                Forall2 (fun n w => node_weights n = Some w) nodes new.
Proof.
  induction nodes as [|n nodes IH]; intros i ws al i' ws' H; simpl in H.
  - inversion H; subst. rewrite Nat.add_0_r.
    repeat split; auto. exists []. rewrite app_nil_r. auto.
  - apply bind_Ok in H. destruct H as [[a [i1 ws1]] [Hv H]].
    apply bind_Ok in H. destruct H as [[rest [i2 ws2]] [Hrest H]].
    inversion H; subst; clear H.
    unfold flatten_visit in Hv.
    destruct (model n) as [m|] eqn:Hm; [|discriminate Hv].
    destruct (Qeq_bool b (bias m)) eqn:Hb; simpl in Hv; [|discriminate Hv].
    destruct (weights m) as [w|] eqn:Hw; [|discriminate Hv].
    inversion Hv; subst; clear Hv.
    destruct (IH _ _ _ _ _ Hrest) as [Hi [Hal [Hall [new [Hws HF]]]]].
    simpl. split; [lia|]. split; [f_equal; exact Hal|].
    split.
    + constructor; [|exact Hall]. exists m. split; [exact Hm|].
      apply Qeq_bool_iff. exact Hb.
    + exists (w :: new). rewrite Hws, <- app_assoc. split; [reflexivity|].
      constructor; [|exact HF]. unfold node_weights. rewrite Hm. exact Hw.
Qed.

(** On trained nodes the visits fail on the first bias that differs, with
    [AssertionError], and on nothing else. *)
Lemma flatten_seq_trained (b : Q) (nodes : list Node) :
  Forall trained nodes ->
  forall i ws,
    (Forall (fun n => exists m, model n = Some m /\ b == bias m) nodes /\
     exists al ws', visit_seq (flatten_visit b) nodes (i, ws)
                    = Ok (al, (i + length nodes, ws'))) \/
    (Exists (fun n => exists m, model n = Some m /\ ~ b == bias m) nodes /\
     visit_seq (flatten_visit b) nodes (i, ws) = Raise AssertionError).
Proof.
  induction 1 as [|n nodes [m [w [Hm Hw]]] _ IH]; intros i ws.
  - left. split; [constructor|]. exists [], ws. simpl. rewrite Nat.add_0_r. reflexivity.
  - cbn [visit_seq].
    destruct (Qeq_bool b (bias m)) eqn:Hb.
    + assert (Hv : flatten_visit b n (i, ws)
                   = Ok ((Some (mkNodeModel None (bias m)), Some i), (S i, ws ++ [w])))
        by (unfold flatten_visit; rewrite Hm, Hb, Hw; reflexivity).
      rewrite Hv. cbn [bind].
      destruct (IH (S i) (ws ++ [w])) as [[Hall [al [ws' Hal]]]|[Hex Hr]].
      * left. split.
        -- constructor; [|exact Hall]. exists m. split; [exact Hm|].
           apply Qeq_bool_iff. exact Hb.
        -- rewrite Hal. cbn [bind]. eexists. eexists. do 3 f_equal. simpl. lia.
      * right. split; [right; exact Hex|]. rewrite Hr. reflexivity.
    + assert (Hv : flatten_visit b n (i, ws) = Raise AssertionError)
        by (unfold flatten_visit; rewrite Hm, Hb; reflexivity).
      rewrite Hv. right. split; [|reflexivity]. left. exists m. split; [exact Hm|].
      intros Heq. apply Qeq_bool_iff in Heq. congruence.
Qed.

Lemma Forall_Exists_bias_excl (b : Q) (nodes : list Node) :
  Forall (fun n => exists m, model n = Some m /\ b == bias m) nodes ->
  Exists (fun n => exists m, model n = Some m /\ ~ b == bias m) nodes ->
  False.
Proof.
  intros Hall Hex. rewrite Forall_forall in Hall. rewrite Exists_exists in Hex.
  destruct Hex as [n [Hin [m [Hm Hne]]]].
  destruct (Hall n Hin) as [m' [Hm' Heq]].
  rewrite Hm in Hm'. inversion Hm'; subst. contradiction.
Qed.

Section FlattenFacts.
Context {E : Externals}.

Lemma hstack_info_Raise (blocks : list dummy) (e : exn) :
  _hstack_info blocks = Raise e -> e = IndexError \/ e = ValueError.
Proof.
  unfold _hstack_info. destruct blocks as [|b0 bs]; intros H.
  - inversion H. auto.
  - apply for_each_Raise in H. destruct H as [x [s' [_ H]]].
    destruct (negb (fst (dm_shape x) =? fst (dm_shape b0))); inversion H. auto.
Qed.

Lemma mmap_hstack_Raise blocks prefix files e :
  _mmap_hstack blocks prefix files = Raise e -> e = IndexError \/ e = ValueError.
Proof.
  unfold _mmap_hstack. destruct (length blocks =? 0); [discriminate|].
  intros H. apply bind_Raise in H. destruct H as [H|[info [_ H]]].
  - eapply hstack_info_Raise. exact H.
  - destruct (hstack_rr_to _ _ _ _ _) as [[? ?] ?]. discriminate H.
Qed.

Lemma flatten_model_Ok root path files fm wm root' files' :
  _flatten_model root path files = Ok (fm, wm, root', files') ->
  exists rm idx ws w,
    model root = Some rm /\
    dfs (flatten_visit (bias rm)) root (0, []) = Ok (root', (idx, ws)) /\
    _mmap_hstack ws path files = Ok (w, files') /\
    fm = mkFlatModel "flattened-tree"%string w (bias rm) 0 /\
    wm = cumsum (0 :: map (fun w => snd (dm_shape w)) ws).
Proof.
  unfold _flatten_model. destruct (model root) as [rm|]; [|discriminate].
  intros H. apply bind_Ok in H. destruct H as [[r1 [idx ws]] [Hdfs H]].
  apply bind_Ok in H. destruct H as [[w f1] [Hst H]].
  inversion H; subst; clear H.
  exists rm, idx, ws, w. auto.
Qed.

(** C3, as the code has it. The weight map of [_flatten_model] is the
    exclusive prefix sum of the column counts of the nodes in depth-first
    order: it has one entry more than there are nodes, starts at 0, the
    node at position [i] gets the index [i], and the entries [i] and [i+1]
    differ by the column count of that node; so it never decreases, and it
    increases at a node exactly when the node has a column. *)
Theorem weight_map_prefix_sums root path files fm wm root' files' :
  _flatten_model root path files = Ok (fm, wm, root', files') ->
  length wm = length (dfs_nodes root) + 1 /\
  nth_error wm 0 = Some 0 /\
  forall i node,
    nth_error (dfs_nodes root) i = Some node ->
    exists w node' a,
      node_weights node = Some w /\
      nth_error (dfs_nodes root') i = Some node' /\
      index node' = Some i /\
      label_map node' = label_map node /\
      nth_error wm i = Some a /\
      nth_error wm (S i) = Some (a + snd (dm_shape w)) /\
      (a < a + snd (dm_shape w) <-> 0 < snd (dm_shape w)).
Proof.
  intros H. apply flatten_model_Ok in H.
  destruct H as [rm [idx [ws [w [Hrm [Hdfs [Hst [Hfm Hwm]]]]]]]].
  pose proof (dfs_visit_seq (flatten_visit (bias rm)) root (0, [])) as Hseq.
  rewrite Hdfs in Hseq.
  pose proof (dfs_label_maps _ _ _ Hdfs) as Hlm.
  apply flatten_seq_Ok in Hseq.
  destruct Hseq as [Hidx [Hal [_ [new [Hws HF]]]]]. simpl in Hws. subst new.
  pose proof (Forall2_length HF) as Hlen.
  rewrite Hwm, cumsum_cons0.
  split; [simpl; rewrite cumsum_from_length, length_map; lia|].
  split; [reflexivity|].
  intros i node Hi.
  destruct (Forall2_nth_error HF _ Hi) as [wi [Hwi Hnw]].
  assert (Hi' : i < length (dfs_nodes root))
    by (apply nth_error_Some; rewrite Hi; discriminate).
  assert (Hlen' : length (dfs_nodes root') = length (dfs_nodes root))
    by (rewrite <- (length_map label_map), Hlm, length_map; reflexivity).
  destruct (nth_error (dfs_nodes root') i) as [node'|] eqn:Hn';
    [|apply nth_error_None in Hn'; lia].
  destruct (@cumsum_from_step (map (fun w => snd (dm_shape w)) ws) 0 i
              (snd (dm_shape wi))) as [a [Ha Hb]];
    [rewrite nth_error_map, Hwi; reflexivity|].
  exists wi, node', a.
  split; [exact Hnw|]. split; [reflexivity|].
  split.
  - assert (Hm : nth_error (map snd (map attrs_of (dfs_nodes root'))) i
                 = Some (index node'))
      by (rewrite !nth_error_map, Hn'; reflexivity).
    rewrite Hal, nth_error_map, nth_error_seq in Hm.
    destruct (Nat.ltb_spec i (length (dfs_nodes root))); [|lia].
    simpl in Hm. inversion Hm. reflexivity.
  - split.
    + assert (Hm : nth_error (map label_map (dfs_nodes root')) i
                   = Some (label_map node'))
        by (rewrite nth_error_map, Hn'; reflexivity).
      rewrite Hlm, nth_error_map, Hi in Hm. inversion Hm. reflexivity.
    + split; [exact Ha|]. split; [exact Hb|]. lia.
Qed.

(** C6. On a trained tree whose root holds the bias [b], [_flatten_model]
    raises [AssertionError] if and only if some visited node holds a bias
    that differs from [b]; when every node holds [b], the traversal visits
    all the nodes, and a flattened model that is returned carries [b]. *)
Theorem flatten_model_assertion root path files rm :
  Forall trained (dfs_nodes root) ->
  model root = Some rm ->
  (_flatten_model root path files = Raise AssertionError <->
   Exists (fun n => exists m, model n = Some m /\ ~ bias rm == bias m)
          (dfs_nodes root)) /\
  (Forall (fun n => exists m, model n = Some m /\ bias rm == bias m)
          (dfs_nodes root) ->
   (exists root' ws,
       dfs (flatten_visit (bias rm)) root (0, [])
       = Ok (root', (length (dfs_nodes root), ws))) /\
   forall fm wm root' files',
     _flatten_model root path files = Ok (fm, wm, root', files') ->
     fm_bias fm = bias rm).
Proof.
  intros Htr Hrm.
  pose proof (dfs_visit_seq (flatten_visit (bias rm)) root (0, [])) as Hseq.
  destruct (flatten_seq_trained (bias rm) Htr 0 [])
    as [[Hall [al [ws' Hal]]]|[Hex Hr]].
  - (* every bias is equal *)
    rewrite Hal in Hseq.
    destruct (dfs (flatten_visit (bias rm)) root (0, [])) as [[r1 [i1 ws1]]|e] eqn:Hdfs;
      [|discriminate Hseq].
    inversion Hseq; subst; clear Hseq.
    split.
    + split.
      * intros H. exfalso. unfold _flatten_model in H. rewrite Hrm, Hdfs in H.
        simpl in H. apply bind_Raise in H.
        destruct H as [H|[[w f1] [_ H]]]; [|discriminate H].
        apply mmap_hstack_Raise in H. destruct H; discriminate.
      * intros Hex. exfalso. eapply Forall_Exists_bias_excl; eassumption.
    + intros _. split.
      * exists r1, ws1. reflexivity.
      * intros fm wm root' files' H. apply flatten_model_Ok in H.
        destruct H as [rm' [idx [ws [w [Hrm' [_ [_ [Hfm _]]]]]]]].
        rewrite Hrm in Hrm'. inversion Hrm'; subst. reflexivity.
  - (* some bias differs *)
    rewrite Hr in Hseq.
    destruct (dfs (flatten_visit (bias rm)) root (0, [])) as [[r1 [i1 ws1]]|e] eqn:Hdfs;
      [discriminate Hseq|].
    inversion Hseq; subst; clear Hseq.
    split.
    + split; [intros _; exact Hex|].
      intros _. unfold _flatten_model. rewrite Hrm, Hdfs. reflexivity.
    + intros Hall. exfalso. eapply Forall_Exists_bias_excl; eassumption.
Qed.

(** The loop of [_hstack_info] fails exactly on a block whose number of
    rows is not [m]. *)
Lemma hstack_info_loop (m : nat) (blocks : list dummy) :
  forall i0,
    let body := fun block i =>
      if negb (fst (dm_shape block) =? m)%nat then Raise ValueError
      else Ok (mkHstackInfo m
                 (hi_n i + snd (dm_shape block))
                 (hi_nnz i + dm_nnz block)
                 (hi_cols_array i ++ [snd (dm_shape block)])
                 (hi_data_list i ++ [view_vals (dm_data block)])
                 (hi_indices_list i ++ [view_vals (dm_indices block)])
                 (hi_indptr_list i ++ [view_vals (dm_indptr block)])) in
    (Forall (fun block => fst (dm_shape block) = m) blocks /\
     exists i, for_each blocks body i0 = Ok i) \/
    (Exists (fun block => fst (dm_shape block) <> m) blocks /\
     for_each blocks body i0 = Raise ValueError).
Proof.
  induction blocks as [|b bs IH]; intros i0 body.
  - left. split; [constructor|]. exists i0. reflexivity.
  - simpl. unfold body at 1 3.
    destruct (fst (dm_shape b) =? m) eqn:Hb; simpl.
    + apply Nat.eqb_eq in Hb.
      match goal with |- context [for_each bs body ?i1] =>
        destruct (IH i1) as [[Hall [i Hi]]|[Hex Hr]] end.
      * left. split; [constructor; assumption|]. exists i. exact Hi.
      * right. split; [right; exact Hex | exact Hr].
    + apply Nat.eqb_neq in Hb. right. split; [left; exact Hb | reflexivity].
Qed.

(** C10. On an empty list of blocks [_mmap_hstack] returns the empty
    0-by-0 matrix and creates no file of a mapped array; the check of the
    row counts is made when there is a block, and then it fails exactly
    when some block has not the row count of the first. *)
Theorem mmap_hstack_empty prefix files :
  _mmap_hstack [] prefix files = Ok (mkCsr [] [] [0%Z] (0, 0), files) /\
  forall b bs,
    _mmap_hstack (b :: bs) prefix files = Raise ValueError <->
    Exists (fun block => fst (dm_shape block) <> fst (dm_shape b)) (b :: bs).
Proof.
  split; [reflexivity|].
  intros b bs. unfold _mmap_hstack, _hstack_info.
  change (length (b :: bs) =? 0) with false. cbv iota.
  destruct (hstack_info_loop (fst (dm_shape b)) (b :: bs)
              (mkHstackInfo (fst (dm_shape b)) 0 0 [] [] [] []))
    as [[Hall [i Hi]]|[Hex Hr]].
  - rewrite Hi. simpl.
    destruct (hstack_rr_to _ _ _ _ _) as [[? ?] ?].
    split; [discriminate|].
    intros Hex. exfalso. rewrite Forall_forall in Hall. rewrite Exists_exists in Hex.
    destruct Hex as [x [Hin Hx]]. apply Hx. apply Hall. exact Hin.
  - rewrite Hr. simpl. split; [intros _; exact Hex | reflexivity].
Qed.

End FlattenFacts.

(** ** Streaming into the mapped arrays *)

Lemma resize_shape0 {A : Type} (zero : A) (n : nat) (a : Array A) :
  arr_shape0 (resize zero n a) = n.
Proof.
  unfold arr_shape0, resize. simpl.
  rewrite length_firstn, length_app, repeat_length. lia.
Qed.

(** Writing through a slice leaves the capacity as it is. *)
Lemma slice_assign_shape0 {A : Type} (a a' : Array A) (start stop : nat)
  (vals : list A) (v : view A) :
  slice_assign a start stop vals = Ok (a', v) ->
  arr_shape0 a' = arr_shape0 a.
Proof.
  unfold slice_assign, arr_shape0.
  set (len := length (arr_cells a)).
  set (lo := Nat.min start len).
  set (hi := Nat.max lo (Nat.min stop len)).
  assert (Hput : forall vs, length vs = hi - lo ->
            length (firstn lo (arr_cells a) ++ vs ++ skipn hi (arr_cells a)) = len).
  { intros vs Hvs. rewrite !length_app, length_firstn, length_skipn, Hvs.
    fold len. lia. }
  destruct (length vals =? hi - lo) eqn:Hl.
  - apply Nat.eqb_eq in Hl. intros H. inversion H; subst. simpl. apply Hput. exact Hl.
  - destruct vals as [|v0 [|v1 vals]]; intros H; try discriminate H.
    inversion H; subst. simpl. apply Hput. apply repeat_length.
Qed.

(** A slice that lies inside the array is written as it is. *)
Lemma slice_assign_inside {A : Type} (a : Array A) (start : nat) (vals : list A) :
  start + length vals <= arr_shape0 a ->
  exists a', slice_assign a start (start + length vals) vals
             = Ok (a', mkView start vals).
Proof.
  unfold slice_assign, arr_shape0. intros Hle.
  rewrite (Nat.min_l start) by lia.
  rewrite (Nat.min_l (start + length vals)) by lia.
  rewrite (Nat.max_r start) by lia.
  replace (start + length vals - start) with (length vals) by lia.
  rewrite Nat.eqb_refl. eexists. reflexivity.
Qed.

Lemma as_mmap_Ok (arr : csr) (info : mmap_info) (v : dummy) (info' : mmap_info) :
  _as_mmap arr info = Ok (v, info') ->
  exists d1 dv i1 iv p1 pv,
    slice_assign (if arr_shape0 (mm_data info) <? num_data info + nnz arr
                  then resize 0%Q (grown_size (num_data info + nnz arr)) (mm_data info)
                  else mm_data info)
                 (num_data info) (num_data info + nnz arr) (csr_data arr)
    = Ok (d1, dv) /\
    slice_assign (if arr_shape0 (mm_data info) <? num_data info + nnz arr
                  then resize 0%Z (grown_size (num_data info + nnz arr))
                              (mm_indices info)
                  else mm_indices info)
                 (num_data info) (num_data info + nnz arr) (csr_indices arr)
    = Ok (i1, iv) /\
    slice_assign (mm_indptr info) (num_indptr info)
                 (num_indptr info + fst (csr_shape arr) + 1) (csr_indptr arr)
    = Ok (p1, pv) /\
    v = mkDummy dv iv pv (csr_shape arr) /\
    info' = mkInfo (num_data info + nnz arr)
                   (num_indptr info + (fst (csr_shape arr) + 1)) (chunk_size info)
                   d1 i1 p1.
Proof.
  unfold _as_mmap. intros H.
  destruct (arr_shape0 (mm_data info) <? num_data info + nnz arr).
  - apply bind_Ok in H. destruct H as [[d1 dv] [Hd H]].
    apply bind_Ok in H. destruct H as [[i1 iv] [Hi H]].
    apply bind_Ok in H. destruct H as [[p1 pv] [Hp H]].
    inversion H; subst. exists d1, dv, i1, iv, p1, pv. auto.
  - apply bind_Ok in H. destruct H as [[d1 dv] [Hd H]].
    apply bind_Ok in H. destruct H as [[i1 iv] [Hi H]].
    apply bind_Ok in H. destruct H as [[p1 pv] [Hp H]].
    inversion H; subst. exists d1, dv, i1, iv, p1, pv. auto.
Qed.

(** [_as_mmap] never changes the capacity of the row pointers. *)
Lemma as_mmap_indptr_shape0 arr info v info' :
  _as_mmap arr info = Ok (v, info') ->
  arr_shape0 (mm_indptr info') = arr_shape0 (mm_indptr info).
Proof.
  intros H. apply as_mmap_Ok in H.
  destruct H as [d1 [dv [i1 [iv [p1 [pv [_ [_ [Hp [_ ->]]]]]]]]]]. simpl.
  eapply slice_assign_shape0. exact Hp.
Qed.

(** [2 << (n - 1).bit_length()] is twice the smallest power of two that
    is at least [n]. *)
Lemma grown_size_spec (n : nat) :
  1 <= n ->
  exists p, smallest_pow2_ge p n /\ grown_size n = 2 * p.
Proof.
  intros Hn. unfold grown_size, bit_length.
  destruct (Z.eqb_spec (Z.of_nat n - 1) 0) as [H0|H0].
  - exists 1. assert (n = 1) as -> by lia. split; [|reflexivity].
    split; [exists 0; reflexivity|]. split; [lia|].
    intros q [k ->] _. pose proof (Nat.pow_nonzero 2 k). lia.
  - set (m := (Z.of_nat n - 1)%Z) in *.
    assert (Hm : (0 < m)%Z) by lia.
    rewrite Z.abs_eq by lia.
    destruct (Z.log2_spec m Hm) as [Hlo Hhi].
    pose proof (Z.log2_nonneg m) as Hnn.
    set (k := Z.to_nat (Z.log2 m)).
    assert (Hk : Z.log2 m = Z.of_nat k) by (unfold k; lia).
    exists (2 ^ S k). split.
    + split; [exists (S k); reflexivity|]. split.
      * apply Nat2Z.inj_le. rewrite Nat2Z.inj_pow. change (Z.of_nat 2) with 2%Z.
        rewrite Nat2Z.inj_succ, <- Hk. lia.
      * intros q [j ->] Hq.
        destruct (Nat.le_gt_cases (S k) j) as [Hj|Hj].
        -- apply Nat.pow_le_mono_r; lia.
        -- exfalso.
           assert (2 ^ j <= 2 ^ k) by (apply Nat.pow_le_mono_r; lia).
           assert (Hz : (Z.of_nat (2 ^ k) <= m)%Z)
             by (rewrite Nat2Z.inj_pow, <- Hk; exact Hlo).
           lia.
    + rewrite Z.shiftl_mul_pow2 by lia.
      apply Nat2Z.inj.
      rewrite Z2Nat.id by (apply Z.mul_nonneg_nonneg; [lia | apply Z.pow_nonneg; lia]).
      rewrite Nat2Z.inj_mul, Nat2Z.inj_pow. change (Z.of_nat 2) with 2%Z.
      rewrite Nat2Z.inj_succ, Hk, Z.add_1_r. reflexivity.
Qed.

(** C4, as the code has it. When [_as_mmap] finds the capacity of the data
    and indices arrays below the used size plus [nnz], it grows both to
    twice the smallest power of two that is at least that sum. *)
Theorem as_mmap_growth arr info v info' :
  _as_mmap arr info = Ok (v, info') ->
  arr_shape0 (mm_data info) < num_data info + nnz arr ->
  exists p,
    smallest_pow2_ge p (num_data info + nnz arr) /\
    arr_shape0 (mm_data info') = 2 * p /\
    arr_shape0 (mm_indices info') = 2 * p.
Proof.
  intros H Hlt. apply as_mmap_Ok in H.
  apply Nat.ltb_lt in Hlt. rewrite Hlt in H.
  destruct H as [d1 [dv [i1 [iv [p1 [pv [Hd [Hi [_ [_ ->]]]]]]]]]]. simpl.
  apply Nat.ltb_lt in Hlt.
  destruct (@grown_size_spec (num_data info + nnz arr)) as [p [Hp Hg]]; [lia|].
  exists p. split; [exact Hp|].
  apply slice_assign_shape0 in Hd. apply slice_assign_shape0 in Hi.
  rewrite Hd, Hi, !resize_shape0. auto.
Qed.

(** ** Training *)

Lemma cumsum_length (xs : list nat) : length (cumsum xs) = length xs.
Proof. apply cumsum_from_length. Qed.

Lemma csr_of_dense_shape (r c : nat) (f : nat -> nat -> Q) :
  csr_shape (csr_of_dense (r, c, f)) = (r, c) /\
  length (csr_indptr (csr_of_dense (r, c, f))) = r + 1.
Proof.
  unfold csr_of_dense. simpl. split; [reflexivity|].
  rewrite length_map, cumsum_length. simpl.
  rewrite !length_map. unfold range. rewrite length_seq. lia.
Qed.

(** A block whose row pointers fit behind the cursor: they are written
    there, the cursor moves behind them and the capacity stays. *)
Lemma as_mmap_indptr_step (r c : nat) (f : nat -> nat -> Q) (s s' : mmap_info)
  (wv : dummy) (cap : nat) :
  arr_shape0 (mm_indptr s) = cap ->
  num_indptr s + (r + 1) <= cap ->
  _as_mmap (csr_of_dense (r, c, f)) s = Ok (wv, s') ->
  arr_shape0 (mm_indptr s') = cap /\
  num_indptr s' = num_indptr s + (r + 1) /\
  view_off (dm_indptr wv) = num_indptr s /\
  length (view_vals (dm_indptr wv)) = r + 1 /\
  dm_shape wv = (r, c).
Proof.
  intros Hcap Hfit H.
  assert (Hs := H). apply as_mmap_indptr_shape0 in Hs.
  apply as_mmap_Ok in H.
  destruct H as [d1 [dv [i1 [iv [p1 [pv [_ [_ [Hp [-> ->]]]]]]]]]].
  destruct (csr_of_dense_shape r c f) as [Hshape Hlen].
  rewrite Hshape in *. simpl fst in *. simpl in Hs.
  destruct (@slice_assign_inside _ (mm_indptr s) (num_indptr s)
              (csr_indptr (csr_of_dense (r, c, f)))) as [a' Ha'];
    [rewrite Hlen, Hcap; exact Hfit|].
  rewrite Hlen, Nat.add_assoc in Ha'. rewrite Ha' in Hp.
  injection Hp as Hp1 Hp2. rewrite <- Hp2. simpl.
  split; [congruence|]. auto.
Qed.

Section TrainingFacts.
Context {E : Externals}.
Variables (y x : matrix) (options : String.string).

(** What is asked of the trainer: on the features of [x] and with these
    options, a block has a row per feature, and one for the bias. *)
Hypothesis trainer_rows :
  forall ty tx b rr cc f,
    shape1 tx = shape1 x ->
    train_1vsrest ty tx options false = Ok (b, (rr, cc, f)) ->
    rr <= shape1 x + has_bias options.

Lemma train_node_Ok ty tx node s m s' :
  shape1 tx = shape1 x ->
  _train_node ty tx options node s = Ok (m, s') ->
  exists b rr cc f wv,
    rr <= shape1 x + has_bias options /\
    _as_mmap (csr_of_dense (rr, cc, f)) s = Ok (wv, s') /\
    m = mkNodeModel (Some wv) b.
Proof.
  intros Hx H. unfold _train_node in H.
  apply bind_Ok in H. destruct H as [[b [[rr cc] f]] [Ht H]].
  apply bind_Ok in H. destruct H as [[wv s1] [Hm H]].
  inversion H; subst; clear H.
  exists b, rr, cc, f, wv. split; [|auto].
  destruct (isLeaf node).
  - apply bind_Ok in Ht. destruct Ht as [ysel [_ Ht]].
    eapply trainer_rows; eassumption.
  - apply bind_Ok in Ht. destruct Ht as [my [_ Ht]].
    eapply trainer_rows; eassumption.
Qed.

Lemma train_visit_Ok node s a s' :
  train_visit y x options node s = Ok (a, s') ->
  exists b rr cc f wv,
    rr <= shape1 x + has_bias options /\
    _as_mmap (csr_of_dense (rr, cc, f)) s = Ok (wv, s') /\
    a = (Some (mkNodeModel (Some wv) b), index node).
Proof.
  unfold train_visit. intros H.
  apply bind_Ok in H. destruct H as [ysel [_ H]].
  apply bind_Ok in H. destruct H as [yr [_ H]].
  apply bind_Ok in H. destruct H as [xr [_ H]].
  apply bind_Ok in H. destruct H as [[m s1] [Hn H]].
  inversion H; subst; clear H.
  apply train_node_Ok in Hn; [|reflexivity].
  destruct Hn as [b [rr [cc [f [wv [Hrr [Hm ->]]]]]]].
  exists b, rr, cc, f, wv. auto.
Qed.

(** The visits of the training, with [rem] blocks of room behind the
    visited nodes: the capacity stays, the room is not used up, and every
    node got a view inside the array. *)
Lemma train_seq_bounds (cap : nat) (nodes : list Node) :
  forall rem s al s',
    arr_shape0 (mm_indptr s) = cap ->
    num_indptr s + (length nodes + rem) * (shape1 x + has_bias options + 1) <= cap ->
    visit_seq (train_visit y x options) nodes s = Ok (al, s') ->
    arr_shape0 (mm_indptr s') = cap /\
    num_indptr s' + rem * (shape1 x + has_bias options + 1) <= cap /\
    Forall (fun a => exists m w,
                fst a = Some m /\ weights m = Some w /\
                length (view_vals (dm_indptr w)) = fst (dm_shape w) + 1 /\
                view_off (dm_indptr w) + (fst (dm_shape w) + 1) <= cap) al.
Proof.
  induction nodes as [|n nodes IH]; intros rem s al s' Hcap Hroom H; simpl in H.
  - injection H as Hal Hs. subst al s'. simpl in Hroom. auto.
  - apply bind_Ok in H. destruct H as [[a s1] [Hv H]].
    apply bind_Ok in H. destruct H as [[rest s2] [Hrest H]].
    injection H as Hal Hs. subst al s'.
    apply train_visit_Ok in Hv.
    destruct Hv as [b [rr [cc [f [wv [Hrr [Hm ->]]]]]]].
    simpl length in Hroom.
    apply (@as_mmap_indptr_step rr cc f s s1 wv cap Hcap) in Hm; [|nia].
    destruct Hm as [Hcap1 [Hni [Hoff [Hlen Hshape]]]].
    destruct (IH rem s1 rest s2 Hcap1) as [Hcap' [Hroom' Hall]];
      [rewrite Hni; nia | exact Hrest |].
    split; [exact Hcap'|]. split; [exact Hroom'|].
    constructor; [|exact Hall].
    eexists. exists wv. simpl. split; [reflexivity|]. split; [reflexivity|].
    rewrite Hshape, Hoff. simpl. split; [exact Hlen | nia].
Qed.

(** C7. When every block the trainer returns has at most
    [num_features + has_bias] rows, the array of the row pointers, made
    with the capacity [num_nodes * (num_features + has_bias + 1)], has
    that capacity at the end of the training, the cursor [num_indptr] is
    within it, and the row pointers of every node, [rows + 1] entries at
    the cursor of their visit, lie inside it. *)
Theorem indptr_never_resized mmap_root r r' info' :
  train_nodes r y x options mmap_root = Ok (r', info') ->
  arr_shape0 (mm_indptr info') = indptr_capacity (length (dfs_nodes r)) x options /\
  num_indptr info' <= indptr_capacity (length (dfs_nodes r)) x options /\
  Forall (indptr_in_bounds (indptr_capacity (length (dfs_nodes r)) x options))
         (dfs_nodes r').
Proof.
  unfold train_nodes. intros H.
  destruct (dfs_count r 0) as [r0 Hcount]. rewrite Hcount in H. simpl in H.
  pose proof (dfs_visit_seq (train_visit y x options) r
                (new_mmap_info mmap_root (length (dfs_nodes r)) x options)) as Hseq.
  rewrite H in Hseq.
  apply (@train_seq_bounds (indptr_capacity (length (dfs_nodes r)) x options)
           (dfs_nodes r) 0) in Hseq.
  - destruct Hseq as [Hcap [Hroom Hall]].
    split; [exact Hcap|]. split; [lia|].
    rewrite Forall_map in Hall. exact Hall.
  - unfold new_mmap_info, Array_new, arr_shape0. simpl. apply repeat_length.
  - unfold new_mmap_info, indptr_capacity. simpl. lia.
Qed.

End TrainingFacts.

(** ** The tree cache *)

Section CacheFacts.
Context {E : Externals}.


End CacheFacts.

(** ** Sorting *)

Section SortFacts.
Variable A : Type.
Variable key : A -> Q.

Lemma insert_by_perm (x : A) (l : list A) : Permutation (insert_by key x l) (x :: l).
Proof.
  induction l as [|y l IH]; simpl.
  - apply Permutation_refl.
  - destruct (Qle_bool (key x) (key y)).
    + apply Permutation_refl.
    + eapply perm_trans; [apply perm_skip; exact IH | apply perm_swap].
Qed.

Lemma sorted_perm (l : list A) : Permutation (sorted l key) l.
Proof.
  induction l as [|x l IH]; simpl.
  - constructor.
  - eapply perm_trans; [apply insert_by_perm | apply perm_skip; exact IH].
Qed.

Lemma insert_by_HdRel (x a : A) (l : list A) :
  (key a <= key x)%Q ->
  HdRel (fun a b => key a <= key b)%Q a l ->
  HdRel (fun a b => key a <= key b)%Q a (insert_by key x l).
Proof.
  intros Hax Hl. destruct l as [|y l]; simpl.
  - constructor. exact Hax.
  - destruct (Qle_bool (key x) (key y)); constructor.
    + exact Hax.
    + inversion Hl. assumption.
Qed.

Lemma insert_by_Sorted (x : A) (l : list A) :
  Sorted (fun a b => key a <= key b)%Q l ->
  Sorted (fun a b => key a <= key b)%Q (insert_by key x l).
Proof.
  induction 1 as [|y l Hl IH Hhd]; simpl.
  - repeat constructor.
  - destruct (Qle_bool (key x) (key y)) eqn:Hxy.
    + apply Qle_bool_iff in Hxy. repeat constructor; assumption.
    + constructor; [exact IH|].
      apply insert_by_HdRel; [|exact Hhd].
      apply Qlt_le_weak, Qnot_le_lt. intros Hle.
      apply Qle_bool_iff in Hle. congruence.
Qed.

Lemma sorted_Sorted (l : list A) :
  Sorted (fun a b => key a <= key b)%Q (sorted l key).
Proof.
  induction l as [|x l IH]; simpl; [constructor | apply insert_by_Sorted; exact IH].
Qed.

Lemma sorted_StronglySorted (l : list A) :
  StronglySorted (fun a b => key a <= key b)%Q (sorted l key).
Proof.
  apply Sorted_StronglySorted; [|apply sorted_Sorted].
  intros a b c Hab Hbc. eapply Qle_trans; eassumption.
Qed.

(** An element is carried over elements of strictly smaller key only, so
    the elements of one key keep their order. *)
Lemma insert_by_stable (q : Q) (x : A) (l : list A) :
  filter (fun a => Qeq_bool (key a) q) (insert_by key x l)
  = filter (fun a => Qeq_bool (key a) q) (x :: l).
Proof.
  induction l as [|y l IH]; [reflexivity|].
  cbn [insert_by]. destruct (Qle_bool (key x) (key y)) eqn:Hxy; [reflexivity|].
  cbn [filter] in *. rewrite IH.
  destruct (Qeq_bool (key y) q) eqn:Hy; [|reflexivity].
  destruct (Qeq_bool (key x) q) eqn:Hx; [|reflexivity].
  exfalso. apply Qeq_bool_iff in Hx, Hy.
  assert (Hle : (key x <= key y)%Q) by (rewrite Hx, Hy; apply Qle_refl).
  apply Qle_bool_iff in Hle. congruence.
Qed.

Lemma sorted_stable (q : Q) (l : list A) :
  filter (fun a => Qeq_bool (key a) q) (sorted l key)
  = filter (fun a => Qeq_bool (key a) q) l.
Proof.
  induction l as [|x l IH]; [reflexivity|].
  cbn [sorted]. rewrite insert_by_stable. cbn [filter]. rewrite IH. reflexivity.
Qed.

End SortFacts.

Lemma take_nonneg {A : Type} (k : Z) (l : list A) :
  (0 <= k)%Z -> take k l = firstn (Z.to_nat k) l.
Proof.
  intros Hk. unfold take. destruct (Z.leb_spec 0 k); [reflexivity | lia].
Qed.

Lemma In_firstn_In {A : Type} (n : nat) (l : list A) (x : A) :
  In x (firstn n l) -> In x l.
Proof.
  revert l. induction n as [|n IH]; intros [|y l] H; simpl in *; try contradiction.
  destruct H as [H|H]; [left; exact H | right; apply IH; exact H].
Qed.

Lemma In_take {A : Type} (k : Z) (l : list A) (x : A) : In x (take k l) -> In x l.
Proof.
  unfold take. destruct (0 <=? k)%Z; intros H; eapply In_firstn_In; exact H.
Qed.

Lemma StronglySorted_map_opp {A : Type} (score : A -> Q) (l : list A) :
  StronglySorted (fun a b => - score a <= - score b)%Q l ->
  StronglySorted (fun a b => score b <= score a)%Q l.
Proof.
  induction 1 as [|a l _ IH Hall]; constructor; [exact IH|].
  eapply Forall_impl; [|exact Hall].
  intros b Hb. simpl in Hb. apply Qopp_le_compat in Hb.
  rewrite !Qopp_involutive in Hb. exact Hb.
Qed.

Lemma Qeq_bool_opp (a b : Q) : Qeq_bool (- a) (- b) = Qeq_bool a b.
Proof.
  destruct (Qeq_bool a b) eqn:Hab.
  - apply Qeq_bool_iff. apply Qeq_bool_iff in Hab. rewrite Hab. reflexivity.
  - destruct (Qeq_bool (- a) (- b)) eqn:Hn; [|reflexivity].
    apply Qeq_bool_iff in Hn.
    assert (Heq : (a == b)%Q)
      by (rewrite <- (Qopp_involutive a), Hn; apply Qopp_involutive).
    apply Qeq_bool_iff in Heq. congruence.
Qed.

(** ** Beam search *)

Section BeamFacts.
Variable tm : TreeModel.
Variable instance_preds : list Q.
Variable beam_width : Z.

(** The pool of a round: what the pairs of the beam emit, in their order. *)
Lemma expand_pool (cur : list (Node * Q)) :
  forall acc next,
    for_each cur (expand tm instance_preds) acc = Ok next ->
    exists outs, Forall2 (emits tm instance_preds) cur outs /\
                 next = acc ++ concat outs.
Proof.
  induction cur as [|[node score] cur IH]; intros acc next H; cbn [for_each] in H.
  - injection H as <-. exists []. split; [constructor | simpl; rewrite app_nil_r; reflexivity].
  - destruct (expand tm instance_preds (node, score) acc) as [acc1|e] eqn:He;
      [|discriminate H].
    destruct (IH _ _ H) as [outs [Houts ->]].
    unfold expand in He.
    destruct (isLeaf node) eqn:Hleaf.
    + injection He as <-. exists ([(node, score)] :: outs). split.
      * constructor; [|exact Houts]. unfold emits. simpl. rewrite Hleaf. reflexivity.
      * simpl. rewrite <- app_assoc. reflexivity.
    + apply bind_Ok in He. destruct He as [pred [Hpred He]]. injection He as <-.
      exists (combine (children node) (children_score score pred) :: outs). split.
      * constructor; [|exact Houts]. unfold emits. simpl. rewrite Hleaf.
        exists pred. auto.
      * simpl. rewrite <- app_assoc. reflexivity.
Qed.

(** C2. In a round in which the beam has an internal node, the pool is
    what the pairs of the beam emit, in order (a leaf itself, an internal
    node its children with their scores), and the next beam is kept from
    it as follows: the pool is sorted, the sorted pool is a permutation of
    the pool with the scores in descending order and with the pairs of
    equal score in the order of the pool, and its first [beam_width] pairs
    are kept. *)
Theorem keep_stable_top (fuel : nat) (cur next : list (Node * Q)) :
  (0 <= beam_width)%Z ->
  num_internal cur <> 0 ->
  for_each cur (expand tm instance_preds) [] = Ok next ->
  (exists outs, Forall2 (emits tm instance_preds) cur outs /\ next = concat outs) /\
  beam_rounds tm instance_preds beam_width (S fuel) cur
  = beam_rounds tm instance_preds beam_width fuel (keep beam_width next) /\
  keep beam_width next
  = firstn (Z.to_nat beam_width) (sorted next (fun pair => (- snd pair)%Q)) /\
  length (keep beam_width next) = Nat.min (Z.to_nat beam_width) (length next) /\
  Permutation (sorted next (fun pair => (- snd pair)%Q)) next /\
  StronglySorted (fun a b => snd b <= snd a)%Q
                 (sorted next (fun pair => (- snd pair)%Q)) /\
  forall q, filter (fun pair => Qeq_bool (snd pair) q)
                   (sorted next (fun pair => (- snd pair)%Q))
            = filter (fun pair => Qeq_bool (snd pair) q) next.
Proof.
  intros Hbw Hint Hnext.
  split; [apply expand_pool in Hnext; exact Hnext|].
  split.
  { cbn [beam_rounds]. apply Nat.eqb_neq in Hint. rewrite Hint, Hnext. reflexivity. }
  assert (Hkeep : keep beam_width next
                  = firstn (Z.to_nat beam_width)
                           (sorted next (fun pair => (- snd pair)%Q)))
    by (unfold keep; apply take_nonneg; exact Hbw).
  split; [exact Hkeep|].
  split.
  { rewrite Hkeep, length_firstn.
    rewrite (Permutation_length (sorted_perm (fun pair => (- snd pair)%Q) next)).
    reflexivity. }
  split; [apply sorted_perm|].
  split; [apply StronglySorted_map_opp; apply sorted_StronglySorted|].
  intros q.
  rewrite (filter_ext (fun pair : Node * Q => Qeq_bool (snd pair) q)
                      (fun pair => Qeq_bool (- snd pair) (- q)))
    by (intros a; symmetry; apply Qeq_bool_opp).
  rewrite (filter_ext (fun pair : Node * Q => Qeq_bool (snd pair) q)
                      (fun pair => Qeq_bool (- snd pair) (- q)))
    by (intros a; symmetry; apply Qeq_bool_opp).
  apply (sorted_stable (fun pair : Node * Q => (- snd pair)%Q)).
Qed.

End BeamFacts.

(** ** The scores of the beam search *)

Lemma hinge_nonneg (p : Q) : (0 <= hinge p)%Q.
Proof. unfold hinge. apply Qsqr_nonneg. Qed.

Lemma score_step_le (score p : Q) : (score - hinge p <= score)%Q.
Proof.
  pose proof (hinge_nonneg p) as H.
  rewrite <- (Qplus_0_r score) at 2. unfold Qminus.
  apply Qplus_le_r. apply (Qopp_le_compat 0 (hinge p)) in H. exact H.
Qed.

Lemma children_score_le (score : Q) (pred : list Q) :
  Forall (fun c => c <= score)%Q (children_score score pred).
Proof.
  unfold children_score. apply Forall_forall. intros c Hc.
  apply in_map_iff in Hc. destruct Hc as [p [<- _]]. apply score_step_le.
Qed.




Lemma height_eq (n : Node) :
  height n = fold_right (fun c h => Nat.max (S (height c)) h) 0 (children n).
Proof. destruct n. reflexivity. Qed.




Section ScoreFacts.
Variable tm : TreeModel.
Variable instance_preds : list Q.
Variable beam_width : Z.


(** What a round puts into the pool: [R] holds of it when it holds of the
    leaves of the beam and of the children of the internal nodes of the
    beam, with any score that is not above the score of the parent. *)
Lemma expand_Forall (P R : Node * Q -> Prop) (cur : list (Node * Q)) :
  (forall node score, P (node, score) -> isLeaf node = true -> R (node, score)) ->
  (forall node score c s,
      P (node, score) -> isLeaf node = false -> In c (children node) ->
      (s <= score)%Q -> R (c, s)) ->
  forall acc next,
    Forall P cur -> Forall R acc ->
    for_each cur (expand tm instance_preds) acc = Ok next ->
    Forall R next.
Proof.
  intros Hleaf Hstep. induction cur as [|[node score] cur IH];
    intros acc next Hcur Hacc H; cbn [for_each] in H.
  - injection H as <-. exact Hacc.
  - inversion Hcur as [|? ? Hp Hcur']; subst.
    destruct (expand tm instance_preds (node, score) acc) as [acc1|e] eqn:He;
      [|discriminate H].
    eapply IH; [exact Hcur' | | exact H].
    unfold expand in He. destruct (isLeaf node) eqn:Hl.
    + injection He as <-. apply Forall_app. split; [exact Hacc|]. constructor; auto.
    + apply bind_Ok in He. destruct He as [pred [_ He]]. injection He as <-.
      apply Forall_app. split; [exact Hacc|].
      apply Forall_forall. intros [c s] Hin.
      pose proof (in_combine_l _ _ _ _ Hin) as Hc.
      pose proof (in_combine_r _ _ _ _ Hin) as Hs.
      pose proof (children_score_le score pred) as Hle.
      rewrite Forall_forall in Hle.
      eapply Hstep; [exact Hp | exact Hl | exact Hc | apply Hle; exact Hs].
Qed.


Lemma keep_Forall (P : Node * Q -> Prop) (next : list (Node * Q)) :
  Forall P next -> Forall P (keep beam_width next).
Proof.
  intros H. rewrite Forall_forall in *. intros p Hp. apply H.
  unfold keep in Hp. apply In_take in Hp.
  eapply Permutation_in; [apply sorted_perm | exact Hp].
Qed.




End ScoreFacts.



Section SearchFacts.
Variable tm : TreeModel.
Variable instance_preds : list Q.
Variable beam_width : Z.




End SearchFacts.

(** ** The properties on the sample *)

Lemma sample_trainer_rows :
  forall ty tx b rr cc f,
    shape1 tx = shape1 x ->
    @train_1vsrest externals ty tx ""%string false = Ok (b, (rr, cc, f)) ->
    rr <= shape1 x + has_bias ""%string.
Proof.
  intros ty tx b rr cc f Hx H. simpl in H. unfold train in H. simpl in H.
  injection H as _ <- _ _. rewrite Hx. simpl. lia.
Qed.

Lemma weight_map_prefix_sums_witness :
  @_flatten_model externals (fst sample_training) "weights/a/flat_model"%string []
  = Ok sample_flat /\
  length (snd (fst (fst sample_flat))) = length (dfs_nodes (fst sample_training)) + 1 /\
  nth_error (snd (fst (fst sample_flat))) 0 = Some 0.
Proof.
  split; [vm_compute; reflexivity|].
  destruct (@weight_map_prefix_sums externals (fst sample_training)
              "weights/a/flat_model"%string []
              (fst (fst (fst sample_flat))) (snd (fst (fst sample_flat)))
              (snd (fst sample_flat)) (snd sample_flat))
    as [Hlen [H0 _]].
  - vm_compute. reflexivity.
  - split; [exact Hlen | exact H0].
Defined.

(** C3, as the specification has it, fails: the sample, whose second
    cluster is empty, is trained to a weight map that does not increase
    from the entry 2 to the entry 3, the node with the index 2 having no
    column. *)
Lemma weight_map_not_strict :
  exists tm w',
    @train_tree externals y x ""%string 2 1 true world = Ok (tm, w') /\
    weight_map tm = [0; 2; 5; 5] /\
    nth_error (weight_map tm) 2 = Some 5 /\
    nth_error (weight_map tm) 3 = Some 5 /\
    ~ 5 < 5.
Proof.
  eexists. eexists. split; [vm_compute; reflexivity|].
  repeat split; lia.
Qed.

Lemma as_mmap_growth_witness :
  (arr_shape0 (mm_data sample_info) <? num_data sample_info + nnz sample_block) = true /\
  exists p,
    smallest_pow2_ge p (num_data sample_info + nnz sample_block) /\
    arr_shape0 (mm_data (snd sample_grown)) = 2 * p /\
    arr_shape0 (mm_indices (snd sample_grown)) = 2 * p.
Proof.
  split; [vm_compute; reflexivity|].
  apply (@as_mmap_growth sample_block sample_info (fst sample_grown) (snd sample_grown)).
  - vm_compute. reflexivity.
  - apply Nat.ltb_lt. vm_compute. reflexivity.
Defined.

(** C4, as the specification has it, fails: for a block of 4098 non-zeros
    written into the empty arrays of 4096 cells, the smallest power of two
    that is at least 4098 is [2 ^ 13], and the arrays are grown to
    [2 ^ 14]. *)
Lemma as_mmap_growth_not_smallest :
  _as_mmap sample_block sample_info = Ok sample_grown /\
  (arr_shape0 (mm_data sample_info) <? num_data sample_info + nnz sample_block) = true /\
  smallest_pow2_ge (2 ^ 13) (num_data sample_info + nnz sample_block) /\
  arr_shape0 (mm_data (snd sample_grown)) = 2 ^ 14 /\
  arr_shape0 (mm_indices (snd sample_grown)) = 2 ^ 14 /\
  (2 ^ 14 =? 2 ^ 13) = false.
Proof.
  split; [vm_compute; reflexivity|].
  split; [vm_compute; reflexivity|].
  split.
  - assert (Hn : num_data sample_info + nnz sample_block = 4098)
      by (vm_compute; reflexivity).
    rewrite Hn. split; [exists 13; reflexivity|]. split.
    + apply Nat.leb_le. vm_compute. reflexivity.
    + intros q [k ->] Hq.
      destruct (Nat.le_gt_cases 13 k) as [Hk|Hk]; [apply Nat.pow_le_mono_r; lia|].
      exfalso.
      assert (H12 : 2 ^ k <= 2 ^ 12) by (apply Nat.pow_le_mono_r; lia).
      assert (Hlt : (2 ^ 12 <? 4098) = true) by (vm_compute; reflexivity).
      apply Nat.ltb_lt in Hlt. lia.
  - repeat split; vm_compute; reflexivity.
Qed.



Lemma flatten_model_assertion_witness :
  Forall trained (dfs_nodes (fst sample_training)) /\
  model (fst sample_training) = Some sample_root_model /\
  (Forall (fun n => exists m, model n = Some m /\ bias sample_root_model == bias m)
          (dfs_nodes (fst sample_training)) ->
   forall fm wm root' files',
     @_flatten_model externals (fst sample_training) "weights/a/flat_model"%string []
     = Ok (fm, wm, root', files') ->
     fm_bias fm = bias sample_root_model).
Proof.
  assert (Htr : Forall trained (dfs_nodes (fst sample_training))).
  { vm_compute. repeat constructor; eexists; eexists; split; reflexivity. }
  assert (Hrm : model (fst sample_training) = Some sample_root_model)
    by (vm_compute; reflexivity).
  split; [exact Htr|]. split; [exact Hrm|].
  intros Hall.
  exact (proj2 (proj2 (@flatten_model_assertion externals (fst sample_training)
                         "weights/a/flat_model"%string [] sample_root_model Htr Hrm)
                      Hall)).
Defined.

Lemma indptr_never_resized_witness :
  @train_nodes externals sample_tree y x ""%string "weights/a"%string
  = Ok sample_training /\
  arr_shape0 (mm_indptr (snd sample_training))
  = indptr_capacity (length (dfs_nodes sample_tree)) x ""%string /\
  num_indptr (snd sample_training)
  <= indptr_capacity (length (dfs_nodes sample_tree)) x ""%string /\
  Forall (indptr_in_bounds (indptr_capacity (length (dfs_nodes sample_tree)) x ""%string))
         (dfs_nodes (fst sample_training)).
Proof.
  split; [vm_compute; reflexivity|].
  apply (@indptr_never_resized externals y x ""%string sample_trainer_rows
           "weights/a"%string sample_tree (fst sample_training) (snd sample_training)).
  vm_compute. reflexivity.
Defined.

Lemma keep_stable_top_witness :
  for_each [(root sample_model, 0%Q)] (expand sample_model sample_preds) []
  = Ok sample_pool /\
  keep 10 sample_pool
  = firstn (Z.to_nat 10) (sorted sample_pool (fun pair => (- snd pair)%Q)) /\
  length (keep 10 sample_pool) = Nat.min (Z.to_nat 10) (length sample_pool).
Proof.
  split; [vm_compute; reflexivity|].
  destruct (@keep_stable_top sample_model sample_preds 10 0
              [(root sample_model, 0%Q)] sample_pool)
    as [_ [_ [Hkeep [Hlen _]]]].
  - lia.
  - vm_compute. discriminate.
  - vm_compute. reflexivity.
  - split; [exact Hkeep | exact Hlen].
Defined.

(** The beam search on the sample: both leaves are kept, and the labels
    of the first get their scores. *)
Example beam_search_sample :
  _beam_search sample_model sample_preds 10 = Ok [Exp (-1 # 4); Exp (-1); Exp 0].
Proof. vm_compute. reflexivity. Qed.


(* ------------------------------------------------------------------ *)
(** * Further properties of the code *)

(** ** Tree building, on the whole tree *)

Lemma Permutation_concat {A : Type} (ls ls' : list (list A)) :
  Forall2 (@Permutation A) ls ls' -> Permutation (concat ls) (concat ls').
Proof.
  induction 1 as [|l l' ls ls' Hl _ IH]; simpl.
  - constructor.
  - apply Permutation_app; assumption.
Qed.

Lemma filter_or_perm {A : Type} (f g : A -> bool) (l : list A) :
  (forall a, f a = true -> g a = true -> False) ->
  Permutation (filter (fun a => f a || g a) l) (filter f l ++ filter g l).
Proof.
  intros Hfg. induction l as [|a l IH]; simpl; [constructor|].
  destruct (f a) eqn:Hf, (g a) eqn:Hg; simpl.
  - exfalso. eapply Hfg; eassumption.
  - constructor. exact IH.
  - eapply perm_trans; [constructor; exact IH|]. apply Permutation_middle.
  - exact IH.
Qed.

(** The selection of a mask [metalabels == i], as a filter on the pairs
    of a metalabel and an element. *)
Lemma eq_mask_select {A : Type} (ml : list nat) (i : nat) (xs : list A) :
  map snd (filter fst (combine (eq_mask ml i) xs))
  = map snd (filter (fun p => fst p =? i) (combine ml xs)).
Proof.
  revert xs. induction ml as [|c ml IH]; intros [|x xs]; simpl; try reflexivity.
  destruct (c =? i); simpl; rewrite IH; reflexivity.
Qed.

(** The selections of the cluster ids below [K], one after the other,
    hold the elements whose metalabel is below [K]. *)
Lemma selections_below {A : Type} (ml : list nat) (xs : list A) (K : nat) :
  Permutation
    (concat (map (fun i => map snd (filter fst (combine (eq_mask ml i) xs)))
                 (seq 0 K)))
    (map snd (filter (fun p => fst p <? K) (combine ml xs))).
Proof.
  induction K as [|K IH].
  - simpl. replace (filter (fun p : nat * A => fst p <? 0) (combine ml xs)) with
      (@nil (nat * A)); [constructor|].
    induction (combine ml xs) as [|p l IHl]; simpl; [reflexivity | exact IHl].
  - rewrite seq_S, map_app, concat_app. simpl. rewrite app_nil_r.
    rewrite eq_mask_select.
    rewrite (filter_ext (fun p : nat * A => fst p <? S K)
                        (fun p => (fst p <? K) || (fst p =? K))).
    + eapply perm_trans; [apply Permutation_app_tail; exact IH|].
      rewrite <- map_app. apply Permutation_map. apply Permutation_sym.
      apply filter_or_perm. intros p H1 H2.
      apply Nat.ltb_lt in H1. apply Nat.eqb_eq in H2. lia.
    + intros p. destruct (Nat.ltb_spec (fst p) (S K)), (Nat.ltb_spec (fst p) K),
        (Nat.eqb_spec (fst p) K); simpl; try reflexivity; lia.
Qed.

Lemma map_snd_combine_eq {A B : Type} (l : list A) (l' : list B) :
  length l = length l' -> map snd (combine l l') = l'.
Proof.
  revert l'. induction l as [|a l IH]; intros [|b l'] H; simpl in *;
    try discriminate; [reflexivity|].
  injection H as H. rewrite IH by exact H. reflexivity.
Qed.

(** With every metalabel below [K], the selections split the list. *)
Lemma selections_split {A : Type} (ml : list nat) (xs : list A) (K : nat) :
  length ml = length xs ->
  Forall (fun c => c < K) ml ->
  Permutation
    (concat (map (fun i => map snd (filter fst (combine (eq_mask ml i) xs)))
                 (seq 0 K)))
    xs.
Proof.
  intros Hlen Hml. eapply perm_trans; [apply selections_below|].
  replace (filter (fun p : nat * A => fst p <? K) (combine ml xs)) with (combine ml xs).
  - rewrite map_snd_combine_eq by exact Hlen. apply Permutation_refl.
  - symmetry. apply forallb_filter_id. apply forallb_forall. intros [c a] Hin.
    apply in_combine_l in Hin. rewrite Forall_forall in Hml. simpl.
    apply Nat.ltb_lt. apply Hml. exact Hin.
Qed.


Lemma Forall2_seq {A : Type} (R : A -> nat -> Prop) (l : list A) :
  forall start,
    (forall k, k < length l -> exists a, nth_error l k = Some a /\ R a (start + k)) ->
    Forall2 R l (seq start (length l)).
Proof.
  induction l as [|a l IH]; intros start H; simpl; constructor.
  - destruct (H 0) as [a' [Ha' Ra']]; [simpl; lia|].
    injection Ha' as <-. rewrite Nat.add_0_r in Ra'. exact Ra'.
  - apply IH. intros k Hk. destruct (H (S k)) as [a' [Ha' Ra']]; [simpl; lia|].
    exists a'. split; [exact Ha'|]. replace (S start + k) with (start + S k) by lia.
    exact Ra'.
Qed.

Lemma Forall2_map_both {A B C D : Type} (R : C -> D -> Prop) (f : A -> C) (g : B -> D)
  (l : list A) (l' : list B) :
  Forall2 (fun a b => R (f a) (g b)) l l' -> Forall2 R (map f l) (map g l').
Proof. induction 1; simpl; constructor; assumption. Qed.

Lemma filter_flat_map {A B : Type} (p : B -> bool) (f : A -> list B) (l : list A) :
  filter p (flat_map f l) = flat_map (fun a => filter p (f a)) l.
Proof.
  induction l as [|a l IH]; simpl; [reflexivity|].
  rewrite filter_app, IH. reflexivity.
Qed.

Lemma concat_map_flat_map {A B C : Type} (g : B -> list C) (f : A -> list B)
  (l : list A) :
  concat (map g (flat_map f l)) = concat (map (fun a => concat (map g (f a))) l).
Proof.
  induction l as [|a l IH]; simpl; [reflexivity|].
  rewrite map_app, concat_app, IH. reflexivity.
Qed.

(** The leaves of a node with a child are the leaves of its children. *)
Lemma leaves_internal (n : Node) :
  children n <> [] -> leaves n = flat_map leaves (children n).
Proof.
  intros Hc. destruct n as [lm cs m i]. simpl in Hc. unfold leaves at 1.
  simpl dfs_nodes. cbn [filter]. unfold isLeaf at 1. simpl children.
  destruct cs as [|c cs]; [contradiction|]. simpl length. simpl Nat.eqb. cbv iota.
  apply filter_flat_map.
Qed.

Lemma leaves_leaf (n : Node) : children n = [] -> leaves n = [n].
Proof.
  intros Hc. destruct n as [lm cs m i]. simpl in Hc. subst cs. reflexivity.
Qed.

Lemma height_bound (lm : list nat) (cs : list Node) (h : nat) :
  Forall (fun c => S (height c) <= h) cs -> height (new_node lm cs) <= h.
Proof.
  intros H. rewrite height_eq. simpl children.
  induction H as [|c cs Hc _ IH]; cbn [fold_right]; lia.
Qed.

Section BuildTreeWhole.
Context {E : Externals}.
Variables K dmax : nat.

(** What is proved of every call of [_build_tree] by the two cases of the
    code: of the leaf of the base case, and of the node of the recursive
    case from what holds of its [K] children. *)
Variable P : matrix -> list nat -> nat -> Node -> Prop.

Hypothesis P_base :
  forall rep lm d, dmax <= d \/ shape0 rep <= K -> P rep lm d (new_node lm []).

Hypothesis P_step :
  forall rep lm d seed ml cs,
    d < dmax -> K < shape0 rep ->
    kmeans_labels K seed rep = Ok ml ->
    length cs = K ->
    (forall i, i < K ->
       exists c,
         nth_error cs i = Some c /\
         length ml = length lm /\
         P (with_rows rep (map snd (filter fst (combine (eq_mask ml i) (rows rep)))))
           (map snd (filter fst (combine (eq_mask ml i) lm))) (S d) c) ->
    P rep lm d (new_node lm cs).

Lemma build_tree_rec_cases (fuel : nat) :
  forall rep lm d g n g',
    build_tree_rec fuel rep lm d K dmax g = Ok (n, g') -> P rep lm d n.
Proof.
  induction fuel as [|fuel IH]; intros rep lm d g n g' H;
    rewrite build_tree_rec_eq in H;
    destruct ((dmax <=? d) || (shape0 rep <=? K)) eqn:Hc;
    try discriminate H;
    try (injection H as <- _; apply P_base;
         apply orb_true_iff in Hc; destruct Hc as [Hc|Hc]; apply Nat.leb_le in Hc;
         auto).
  apply orb_false_iff in Hc. destruct Hc as [Hd HK].
  apply Nat.leb_gt in Hd. apply Nat.leb_gt in HK.
  destruct (randint (2 ^ 31 - 1) g) as [seed g1].
  apply bind_Ok in H. destruct H as [ml [Hml H]].
  apply bind_Ok in H. destruct H as [[cs g2] [Hloop H]].
  injection H as <- _.
  unfold range in Hloop.
  apply (for_each_collect (built_child fuel rep lm ml d K dmax)) in Hloop.
  - destruct Hloop as [bs [Hcs [Hlen Hnth]]]. simpl in Hcs. subst bs.
    eapply P_step; [exact Hd | exact HK | exact Hml | exact Hlen |].
    intros i Hi. destruct (Hnth i Hi) as [c [Hc [rs [cm [g0 [g0' [Hrs [Hcm Hb]]]]]]]].
    exists c. split; [exact Hc|].
    apply bool_index_Ok in Hrs. destruct Hrs as [_ ->].
    apply bool_index_Ok in Hcm. destruct Hcm as [Hl ->].
    rewrite eq_mask_length in Hl. split; [exact Hl|].
    eapply IH. exact Hb.
  - clear. intros i acc s acc' s' H.
    apply bind_Ok in H. destruct H as [rs [Hrs H]].
    apply bind_Ok in H. destruct H as [cm [Hcm H]].
    apply bind_Ok in H. destruct H as [[c g'] [Hc H]].
    inversion H; subst. exists c. split; [reflexivity|].
    exists rs, cm, s. eexists. split; [exact Hrs|]. split; [exact Hcm|]. exact Hc.
Qed.

End BuildTreeWhole.


Lemma children_Forall (K : nat) (R : nat -> Node -> Prop) (cs : list Node) :
  length cs = K ->
  (forall i, i < K -> exists c, nth_error cs i = Some c /\ R i c) ->
  Forall (fun c => exists i, i < K /\ R i c) cs.
Proof.
  intros Hlen H. apply Forall_forall. intros c Hc.
  apply In_nth_error in Hc. destruct Hc as [i Hi].
  assert (HiK : i < K) by (rewrite <- Hlen; apply nth_error_Some; rewrite Hi; discriminate).
  destruct (H i HiK) as [c' [Hc' Rc']]. rewrite Hi in Hc'. injection Hc' as <-.
  exists i. auto.
Qed.

Lemma children_Forall2 (K : nat) (R : Node -> nat -> Prop) (cs : list Node) :
  length cs = K ->
  (forall i, i < K -> exists c, nth_error cs i = Some c /\ R c i) ->
  Forall2 R cs (seq 0 K).
Proof.
  intros Hlen H. rewrite <- Hlen. apply Forall2_seq. intros k Hk. simpl.
  apply H. lia.
Qed.

Section BuildTreeExtras.
Context {E : Externals}.

(** X1. The tree [_build_tree] returns from depth [d] is at most
    [dmax - d] levels high: with the root at depth 0 no node lies deeper
    than [dmax]. *)
Theorem build_tree_height rep lm d K dmax g n g' :
  _build_tree rep lm d K dmax g = Ok (n, g') ->
  height n <= dmax - d.
Proof.
  unfold _build_tree.
  apply (@build_tree_rec_cases E K dmax (fun _ _ d n => height n <= dmax - d)).
  - intros rep0 lm0 d0 _. rewrite height_eq. simpl. lia.
  - intros rep0 lm0 d0 seed ml cs Hd _ _ Hlen Hch.
    apply height_bound.
    eapply Forall_impl; [|apply (@children_Forall _ _ _ Hlen Hch)].
    intros c [i [_ [_ Hc]]]. simpl in Hc. lia.
Qed.

(** X2. Every node of the tree [_build_tree] returns is without model
    and index, and has no child or exactly [K] children, at every depth. *)
Theorem build_tree_shape_only rep lm d K dmax g n g' :
  _build_tree rep lm d K dmax g = Ok (n, g') ->
  Forall (shape_only K) (dfs_nodes n).
Proof.
  unfold _build_tree.
  apply (@build_tree_rec_cases E K dmax
           (fun _ _ _ n => Forall (shape_only K) (dfs_nodes n))).
  - intros rep0 lm0 d0 _. constructor; [|constructor].
    unfold shape_only. simpl. auto.
  - intros rep0 lm0 d0 seed ml cs _ _ _ Hlen Hch.
    simpl dfs_nodes. constructor.
    + unfold shape_only. simpl. auto.
    + apply Forall_flat_map.
      eapply Forall_impl; [|apply (@children_Forall _ _ _ Hlen Hch)].
      intros c [i [_ [_ Hc]]]. exact Hc.
Qed.

(** What is asked of k-means: the cluster ids are below [K]. *)
Hypothesis kmeans_ids :
  forall K seed rep ml,
    kmeans_labels K seed rep = Ok ml -> Forall (fun c => c < K) ml.

Lemma build_tree_rec_partition K dmax fuel rep lm d g n g' :
  build_tree_rec fuel rep lm d K dmax g = Ok (n, g') ->
  label_map n = lm /\ Forall splits_labels (dfs_nodes n).
Proof.
  apply (@build_tree_rec_cases E K dmax
           (fun _ lm _ n => label_map n = lm /\ Forall splits_labels (dfs_nodes n))).
  - intros rep0 lm0 d0 _. split; [reflexivity|].
    constructor; [left; reflexivity | constructor].
  - intros rep0 lm0 d0 seed ml cs _ _ Hml Hlen Hch.
    split; [reflexivity|]. simpl dfs_nodes. constructor.
    + unfold splits_labels. simpl.
      destruct K as [|K']; [left; apply length_zero_iff_nil; exact Hlen|].
      right.
      destruct (Hch 0) as [c0 [_ [Hl _]]]; [lia|].
      assert (Hmap : map label_map cs
                     = map (fun i => map snd (filter fst (combine (eq_mask ml i) lm0)))
                           (seq 0 (S K'))).
      { assert (HF : Forall2 (fun c i => label_map c
                        = map snd (filter fst (combine (eq_mask ml i) lm0)))
                             cs (seq 0 (S K'))).
        { apply children_Forall2; [exact Hlen|].
          intros i Hi. destruct (Hch i Hi) as [c [Hc [_ [Hlmc _]]]].
          exists c. auto. }
        clear -HF. induction HF; simpl; [reflexivity | f_equal; assumption]. }
      rewrite Hmap. apply selections_split; [exact Hl|].
      eapply kmeans_ids. exact Hml.
    + apply Forall_flat_map.
      eapply Forall_impl; [|apply (@children_Forall _ _ _ Hlen Hch)].
      intros c [i [_ [_ [_ Hc]]]]. exact Hc.
Qed.

(** X3. With cluster ids below [K], the label maps of the children of
    every internal node of the built tree split the label map of the
    node: put one after the other they are a permutation of it. The root
    carries the label map that was given. *)
Theorem build_tree_partition rep lm d K dmax g n g' :
  _build_tree rep lm d K dmax g = Ok (n, g') ->
  label_map n = lm /\ Forall splits_labels (dfs_nodes n).
Proof. unfold _build_tree. apply build_tree_rec_partition. Qed.

(** X4. With cluster ids below [K], the label maps of the leaves of the
    built tree, put one after the other, are a permutation of the label map
    that was given: every label is in a leaf, as often as it was given, so
    labels given once are in exactly one leaf. *)
Theorem build_tree_leaf_cover rep lm d K dmax g n g' :
  _build_tree rep lm d K dmax g = Ok (n, g') ->
  Permutation (concat (map label_map (leaves n))) lm /\
  (NoDup lm -> NoDup (concat (map label_map (leaves n)))).
Proof.
  unfold _build_tree. intros H.
  assert (Hperm : Permutation (concat (map label_map (leaves n))) lm).
  { revert H.
    apply (@build_tree_rec_cases E K dmax
             (fun _ lm _ n => Permutation (concat (map label_map (leaves n))) lm)).
    - intros rep0 lm0 d0 _. rewrite leaves_leaf by reflexivity. simpl.
      rewrite app_nil_r. apply Permutation_refl.
    - intros rep0 lm0 d0 seed ml cs _ _ Hml Hlen Hch.
      destruct K as [|K'].
      + apply length_zero_iff_nil in Hlen. subst cs.
        rewrite leaves_leaf by reflexivity. simpl.
        rewrite app_nil_r. apply Permutation_refl.
      + rewrite leaves_internal
          by (simpl; intros ->; discriminate Hlen).
        simpl children. rewrite concat_map_flat_map.
        destruct (Hch 0) as [c0 [_ [Hl _]]]; [lia|].
        eapply perm_trans;
          [|apply (@selections_split _ ml lm0 (S K') Hl (kmeans_ids _ _ _ Hml))].
        apply Permutation_concat. apply Forall2_map_both.
        apply children_Forall2; [exact Hlen|].
        intros i Hi. destruct (Hch i Hi) as [c [Hc [_ Hp]]].
        exists c. auto. }
  split; [exact Hperm|].
  intros Hnd. eapply Permutation_NoDup; [apply Permutation_sym; exact Hperm | exact Hnd].
Qed.

End BuildTreeExtras.


(** ** Appending to the mapped arrays *)

Lemma grown_size_ge (n : nat) : 1 <= n -> n <= grown_size n.
Proof.
  intros Hn. destruct (grown_size_spec Hn) as [p [[_ [Hp _]] ->]]. lia.
Qed.

Lemma slice_app_middle {A : Type} (l1 l2 l3 : list A) :
  slice (length l1) (length l1 + length l2) (l1 ++ l2 ++ l3) = l2.
Proof.
  unfold slice. rewrite skipn_app, skipn_all, Nat.sub_diag. simpl.
  replace (length l1 + length l2 - length l1) with (length l2) by lia.
  rewrite firstn_app, firstn_all, Nat.sub_diag. simpl. apply app_nil_r.
Qed.

(** A write inside the array: the view holds the values, they are read
    back from the array, the cells before them stay, and so does the
    capacity. *)
Lemma slice_assign_spec {A : Type} (a a' : Array A) (start : nat) (vals : list A)
  (v : view A) :
  start + length vals <= arr_shape0 a ->
  slice_assign a start (start + length vals) vals = Ok (a', v) ->
  v = mkView start vals /\
  read a' start (start + length vals) = vals /\
  firstn start (arr_cells a') = firstn start (arr_cells a) /\
  arr_shape0 a' = arr_shape0 a.
Proof.
  intros Hle H. assert (Hs := H). apply slice_assign_shape0 in Hs.
  destruct (slice_assign_inside a start vals Hle) as [a0 Ha0].
  rewrite Ha0 in H. injection H as <- <-.
  split; [reflexivity|].
  unfold slice_assign, arr_shape0 in *.
  rewrite (Nat.min_l start) in Ha0 by lia.
  rewrite (Nat.min_l (start + length vals)) in Ha0 by lia.
  rewrite (Nat.max_r start) in Ha0 by lia.
  replace (start + length vals - start) with (length vals) in Ha0 by lia.
  rewrite Nat.eqb_refl in Ha0. injection Ha0 as <-. simpl.
  assert (Hf : length (firstn start (arr_cells a)) = start)
    by (rewrite length_firstn; lia).
  split.
  - unfold read. simpl. rewrite <- Hf at 1 2. apply slice_app_middle.
  - split; [|exact Hs].
    rewrite firstn_app, Hf, Nat.sub_diag. simpl.
    rewrite app_nil_r, firstn_firstn, Nat.min_id. reflexivity.
Qed.

Lemma resize_prefix {A : Type} (zero : A) (n k : nat) (a : Array A) :
  k <= arr_shape0 a -> arr_shape0 a <= n ->
  firstn k (arr_cells (resize zero n a)) = firstn k (arr_cells a).
Proof.
  unfold arr_shape0, resize. simpl. intros Hk Hn.
  rewrite firstn_firstn, (Nat.min_l k n) by lia.
  rewrite firstn_app. replace (k - length (arr_cells a)) with 0 by lia.
  simpl. apply app_nil_r.
Qed.

(** The arrays [_as_mmap] writes the values and the column indices into:
    long enough for what is used and what is added, not shorter than
    before, and with the cells that were used before. *)
Lemma as_mmap_room {A : Type} (zero : A) (a : Array A) (used n : nat) :
  used <= arr_shape0 a ->
  let a0 := if arr_shape0 a <? used + n then resize zero (grown_size (used + n)) a
            else a in
  used + n <= arr_shape0 a0 /\
  arr_shape0 a <= arr_shape0 a0 /\
  firstn used (arr_cells a0) = firstn used (arr_cells a).
Proof.
  intros Hused. cbv zeta.
  destruct (Nat.ltb_spec (arr_shape0 a) (used + n)) as [Hlt|Hge].
  - pose proof (@grown_size_ge (used + n)) as Hg.
    rewrite resize_shape0. split; [lia|]. split; [lia|].
    apply resize_prefix; lia.
  - auto.
Qed.



Lemma slice_assign_prefix {A : Type} (a a' : Array A) (start stop : nat)
  (vals : list A) (v : view A) :
  start <= arr_shape0 a ->
  slice_assign a start stop vals = Ok (a', v) ->
  firstn start (arr_cells a') = firstn start (arr_cells a).
Proof.
  unfold slice_assign, arr_shape0. intros Hle.
  rewrite (Nat.min_l start) by lia.
  assert (Hput : forall vs : list A,
             firstn start (firstn start (arr_cells a) ++ vs ++
                           skipn (Nat.max start (Nat.min stop (length (arr_cells a))))
                                 (arr_cells a))
             = firstn start (arr_cells a)).
  { intros vs. rewrite firstn_app, length_firstn, (Nat.min_l start) by lia.
    rewrite Nat.sub_diag. simpl. rewrite app_nil_r, firstn_firstn, Nat.min_id.
    reflexivity. }
  destruct (length vals =? _).
  - intros H. injection H as <- _. simpl. apply Hput.
  - destruct vals as [|v0 [|v1 vals]]; intros H; try discriminate H.
    injection H as <- _. simpl. apply Hput.
Qed.

(** X6. [_as_mmap] only appends: what lies before the cursors in the
    three mapped arrays is the same after the call, also when the data
    and indices arrays were grown. *)
Theorem as_mmap_keeps_written arr info v info' :
  info_wf info ->
  _as_mmap arr info = Ok (v, info') ->
  firstn (num_data info) (arr_cells (mm_data info'))
  = firstn (num_data info) (arr_cells (mm_data info)) /\
  firstn (num_data info) (arr_cells (mm_indices info'))
  = firstn (num_data info) (arr_cells (mm_indices info)) /\
  firstn (num_indptr info) (arr_cells (mm_indptr info'))
  = firstn (num_indptr info) (arr_cells (mm_indptr info)).
Proof.
  intros [Hnd [Hcap Hni]] H. apply as_mmap_Ok in H.
  destruct H as [d1 [dv [i1 [iv [p1 [pv [Hd [Hi [Hp [_ ->]]]]]]]]]]. simpl.
  destruct (@as_mmap_room Q 0%Q (mm_data info) (num_data info) (nnz arr) Hnd)
    as [_ [Hd2 Hd3]].
  destruct (@as_mmap_room Z 0%Z (mm_indices info) (num_data info) (nnz arr))
    as [_ [Hi2 Hi3]]; [lia|].
  rewrite Hcap in Hi2, Hi3.
  apply slice_assign_prefix in Hd; [|lia].
  apply slice_assign_prefix in Hi; [|lia].
  apply slice_assign_prefix in Hp; [|exact Hni].
  rewrite Hd, Hi, Hp, Hd3, Hi3. auto.
Qed.

(** X7. After [_as_mmap] the data array is not shorter than before and
    holds all that is used; when there was room for the block, the two
    arrays keep their capacity. *)
Theorem as_mmap_capacity arr info v info' :
  _as_mmap arr info = Ok (v, info') ->
  arr_shape0 (mm_data info) <= arr_shape0 (mm_data info') /\
  num_data info' <= arr_shape0 (mm_data info') /\
  (num_data info + nnz arr <= arr_shape0 (mm_data info) ->
   arr_shape0 (mm_data info') = arr_shape0 (mm_data info) /\
   arr_shape0 (mm_indices info') = arr_shape0 (mm_indices info)).
Proof.
  intros H. apply as_mmap_Ok in H.
  destruct H as [d1 [dv [i1 [iv [p1 [pv [Hd [Hi [_ [_ ->]]]]]]]]]]. simpl.
  apply slice_assign_shape0 in Hd. apply slice_assign_shape0 in Hi.
  rewrite Hd, Hi.
  destruct (Nat.ltb_spec (arr_shape0 (mm_data info)) (num_data info + nnz arr))
    as [Hlt|Hge].
  - rewrite !resize_shape0.
    pose proof (@grown_size_ge (num_data info + nnz arr)) as Hg.
    split; [lia|]. split; [lia|]. intros Hroom. lia.
  - auto.
Qed.


(** ** Traversal and training *)

(** X8. [Node.dfs] calls [visit] on the nodes in the order of [dfs_nodes]
    (a node before its children, the children in their order), each node
    once, with the state of the visit before: it raises what the first
    failing visit raises, and otherwise leaves in every node what its
    visit returned, and the label maps and the number of nodes as they
    were. *)
Theorem dfs_in_preorder (St : Type) (visit : Node -> St -> result (attrs * St))
  (n : Node) (s : St) :
  (forall e, dfs visit n s = Raise e -> visit_seq visit (dfs_nodes n) s = Raise e) /\
  (forall n' s',
      dfs visit n s = Ok (n', s') ->
      visit_seq visit (dfs_nodes n) s = Ok (map attrs_of (dfs_nodes n'), s') /\
      map label_map (dfs_nodes n') = map label_map (dfs_nodes n) /\
      length (dfs_nodes n') = length (dfs_nodes n)).
Proof.
  pose proof (dfs_visit_seq visit n s) as Hseq.
  split.
  - intros e H. rewrite H in Hseq. exact Hseq.
  - intros n' s' H. rewrite H in Hseq. split; [exact Hseq|].
    pose proof (dfs_label_maps _ _ _ H) as Hlm. split; [exact Hlm|].
    rewrite <- (length_map label_map), Hlm, length_map. reflexivity.
Qed.

Lemma csr_of_dense_wf (w : dense) : csr_wf (csr_of_dense w).
Proof.
  destruct w as [[r c] f]. split.
  - unfold csr_of_dense. simpl. rewrite !length_map. reflexivity.
  - apply csr_of_dense_shape.
Qed.

Section TrainingExtras.
Context {E : Externals}.
Variables (y x : matrix) (options : String.string).

Lemma train_visit_block node s a s' :
  train_visit y x options node s = Ok (a, s') ->
  exists b w wv,
    _as_mmap (csr_of_dense w) s = Ok (wv, s') /\
    a = (Some (mkNodeModel (Some wv) b), index node).
Proof.
  unfold train_visit. intros H.
  apply bind_Ok in H. destruct H as [ysel [_ H]].
  apply bind_Ok in H. destruct H as [yr [_ H]].
  apply bind_Ok in H. destruct H as [xr [_ H]].
  apply bind_Ok in H. destruct H as [[m s1] [Hn H]].
  injection H as <- <-. unfold _train_node in Hn.
  apply bind_Ok in Hn. destruct Hn as [[b w] [_ Hn]].
  apply bind_Ok in Hn. destruct Hn as [[wv s2] [Hm Hn]].
  injection Hn as <- <-. exists b, w, wv. auto.
Qed.

Lemma train_seq_attrs (nodes : list Node) :
  forall s al s',
    visit_seq (train_visit y x options) nodes s = Ok (al, s') ->
    map snd al = map index nodes /\
    Forall (fun a => exists m w, fst a = Some m /\ weights m = Some w) al.
Proof.
  induction nodes as [|n nodes IH]; intros s al s' H; simpl in H.
  - injection H as <- _. split; constructor.
  - apply bind_Ok in H. destruct H as [[a s1] [Hv H]].
    apply bind_Ok in H. destruct H as [[rest s2] [Hrest H]].
    injection H as <- _.
    apply train_visit_block in Hv. destruct Hv as [b [w [wv [_ ->]]]].
    destruct (IH _ _ _ Hrest) as [Hidx Hall].
    split; [simpl; f_equal; exact Hidx|].
    constructor; [|exact Hall]. eexists. eexists. split; reflexivity.
Qed.

Lemma train_nodes_trained mmap_root r r' info' :
  train_nodes r y x options mmap_root = Ok (r', info') ->
  Forall trained (dfs_nodes r') /\
  map label_map (dfs_nodes r') = map label_map (dfs_nodes r) /\
  map index (dfs_nodes r') = map index (dfs_nodes r) /\
  length (dfs_nodes r') = length (dfs_nodes r).
Proof.
  unfold train_nodes. intros H.
  destruct (dfs_count r 0) as [r0 Hcount]. rewrite Hcount in H. simpl in H.
  pose proof (dfs_visit_seq (train_visit y x options) r
                (new_mmap_info mmap_root (length (dfs_nodes r)) x options)) as Hseq.
  rewrite H in Hseq. apply train_seq_attrs in Hseq. destruct Hseq as [Hidx Hall].
  pose proof (dfs_label_maps _ _ _ H) as Hlm.
  split.
  - rewrite Forall_map in Hall. exact Hall.
  - split; [exact Hlm|]. split.
    + rewrite <- Hidx, map_map. reflexivity.
    + rewrite <- (length_map label_map), Hlm, length_map. reflexivity.
Qed.

(** X9. The training traversal attaches to every node a model that holds
    a weight block, and changes nothing else: the label maps, the number
    of nodes and the indices are as before. The tree is then what the
    flattener expects. *)
Theorem train_nodes_attaches mmap_root r r' info' :
  train_nodes r y x options mmap_root = Ok (r', info') ->
  Forall trained (dfs_nodes r') /\
  map label_map (dfs_nodes r') = map label_map (dfs_nodes r) /\
  map index (dfs_nodes r') = map index (dfs_nodes r) /\
  length (dfs_nodes r') = length (dfs_nodes r).
Proof. apply train_nodes_trained. Qed.

(** The visits of the training keep the data cursor inside the data
    array and the two arrays equally long, and give every node views of
    one place and length for the values and the column indices. *)
Lemma train_seq_data (nodes : list Node) :
  forall s al s',
    num_data s <= arr_shape0 (mm_data s) ->
    arr_shape0 (mm_indices s) = arr_shape0 (mm_data s) ->
    visit_seq (train_visit y x options) nodes s = Ok (al, s') ->
    num_data s' <= arr_shape0 (mm_data s') /\
    arr_shape0 (mm_indices s') = arr_shape0 (mm_data s') /\
    num_data s <= num_data s' /\
    Forall (fun a => exists m w,
                fst a = Some m /\ weights m = Some w /\
                length (view_vals (dm_indices w)) = dm_nnz w /\
                view_off (dm_indices w) = view_off (dm_data w) /\
                view_off (dm_data w) + dm_nnz w <= num_data s') al.
Proof.
  induction nodes as [|n nodes IH]; intros s al s' Hnd Hcap H; simpl in H.
  - injection H as <- <-. auto.
  - apply bind_Ok in H. destruct H as [[a s1] [Hv H]].
    apply bind_Ok in H. destruct H as [[rest s2] [Hrest H]].
    injection H as <- <-.
    apply train_visit_block in Hv. destruct Hv as [b [w [wv [Hm ->]]]].
    destruct (csr_of_dense_wf w) as [Hind _].
    set (arr := csr_of_dense w) in *.
    apply as_mmap_Ok in Hm.
    destruct Hm as [d1 [dv [i1 [iv [p1 [pv [Hd [Hi [_ [-> ->]]]]]]]]]].
    destruct (@as_mmap_room Q 0%Q (mm_data s) (num_data s) (nnz arr) Hnd)
      as [Hd1 _].
    destruct (@as_mmap_room Z 0%Z (mm_indices s) (num_data s) (nnz arr))
      as [Hi1 _]; [lia|].
    rewrite Hcap in Hi1.
    assert (Hshapes : arr_shape0 i1 = arr_shape0 d1).
    { apply slice_assign_shape0 in Hd. apply slice_assign_shape0 in Hi.
      rewrite Hd, Hi.
      destruct (arr_shape0 (mm_data s) <? num_data s + nnz arr);
        [rewrite !resize_shape0; reflexivity | exact Hcap]. }
    assert (Hroom : num_data s + nnz arr <= arr_shape0 d1).
    { apply slice_assign_shape0 in Hd. rewrite Hd. exact Hd1. }
    unfold nnz in Hd. apply slice_assign_spec in Hd; [|exact Hd1].
    unfold nnz in Hi. rewrite <- Hind in Hi.
    apply slice_assign_spec in Hi; [|rewrite Hind; exact Hi1].
    destruct Hd as [-> _]. destruct Hi as [-> _].
    apply IH in Hrest; [|simpl; exact Hroom|simpl; exact Hshapes].
    destruct Hrest as [Hnd' [Hcap' [Hmono Hall]]].
    simpl in Hmono.
    split; [exact Hnd'|]. split; [exact Hcap'|]. split; [lia|].
    constructor; [|exact Hall].
    eexists. eexists. simpl. split; [reflexivity|]. split; [reflexivity|].
    unfold dm_nnz. simpl. split; [exact Hind|]. split; [reflexivity|].
    unfold nnz in Hmono. exact Hmono.
Qed.

(** X10. At the end of the training the values and the column indices
    of every node are views of one place and one length that lie in the
    used part of the mapped arrays; the used part is within the capacity,
    and the two arrays have one capacity, however often they were
    grown. *)
Theorem train_nodes_data_in_bounds mmap_root r r' info' :
  train_nodes r y x options mmap_root = Ok (r', info') ->
  num_data info' <= arr_shape0 (mm_data info') /\
  arr_shape0 (mm_indices info') = arr_shape0 (mm_data info') /\
  Forall (data_in_bounds (num_data info')) (dfs_nodes r').
Proof.
  unfold train_nodes. intros H.
  destruct (dfs_count r 0) as [r0 Hcount]. rewrite Hcount in H. simpl in H.
  pose proof (dfs_visit_seq (train_visit y x options) r
                (new_mmap_info mmap_root (length (dfs_nodes r)) x options)) as Hseq.
  rewrite H in Hseq. apply train_seq_data in Hseq.
  - destruct Hseq as [Hnd [Hcap [_ Hall]]].
    split; [exact Hnd|]. split; [exact Hcap|].
    rewrite Forall_map in Hall. exact Hall.
  - simpl. lia.
  - reflexivity.
Qed.

End TrainingExtras.


(** ** Concatenation and flattening *)

Lemma hstack_info_loop_Ok (m : nat) (blocks : list dummy) :
  forall i0 i,
    for_each blocks
      (fun block i =>
         if negb (fst (dm_shape block) =? m)%nat then Raise ValueError
         else Ok (mkHstackInfo m
                    (hi_n i + snd (dm_shape block))
                    (hi_nnz i + dm_nnz block)
                    (hi_cols_array i ++ [snd (dm_shape block)])
                    (hi_data_list i ++ [view_vals (dm_data block)])
                    (hi_indices_list i ++ [view_vals (dm_indices block)])
                    (hi_indptr_list i ++ [view_vals (dm_indptr block)])))
      i0 = Ok i ->
    hi_m i0 = m ->
    Forall (fun block => fst (dm_shape block) = m) blocks /\
    i = mkHstackInfo m
          (hi_n i0 + list_sum (map (fun b => snd (dm_shape b)) blocks))
          (hi_nnz i0 + list_sum (map dm_nnz blocks))
          (hi_cols_array i0 ++ map (fun b => snd (dm_shape b)) blocks)
          (hi_data_list i0 ++ map (fun b => view_vals (dm_data b)) blocks)
          (hi_indices_list i0 ++ map (fun b => view_vals (dm_indices b)) blocks)
          (hi_indptr_list i0 ++ map (fun b => view_vals (dm_indptr b)) blocks).
Proof.
  induction blocks as [|b bs IH]; intros i0 i H Hm; simpl in H.
  - injection H as <-. split; [constructor|]. simpl.
    rewrite !app_nil_r, !Nat.add_0_r. destruct i0; simpl in *; subst; reflexivity.
  - destruct (fst (dm_shape b) =? m) eqn:Hb; simpl in H; [|discriminate H].
    apply Nat.eqb_eq in Hb. apply IH in H; [|reflexivity].
    destruct H as [Hall ->]. split; [constructor; assumption|]. simpl.
    rewrite <- !app_assoc. simpl. f_equal; lia.
Qed.

(** X11. [_hstack_info] raises [IndexError] on no block. On blocks it
    returns, when it returns, the row count of the first block, which is
    the row count of every block, the sums of the column counts and of
    the non-zero counts, and the column counts and the arrays of the
    blocks in their order. *)
Theorem hstack_info_sums :
  _hstack_info [] = Raise IndexError /\
  forall blocks info,
    _hstack_info blocks = Ok info ->
    exists b0 bs,
      blocks = b0 :: bs /\
      hi_m info = fst (dm_shape b0) /\
      Forall (fun block => fst (dm_shape block) = hi_m info) blocks /\
      hi_n info = list_sum (map (fun b => snd (dm_shape b)) blocks) /\
      hi_nnz info = list_sum (map dm_nnz blocks) /\
      hi_cols_array info = map (fun b => snd (dm_shape b)) blocks /\
      hi_data_list info = map (fun b => view_vals (dm_data b)) blocks /\
      hi_indices_list info = map (fun b => view_vals (dm_indices b)) blocks /\
      hi_indptr_list info = map (fun b => view_vals (dm_indptr b)) blocks.
Proof.
  split; [reflexivity|].
  intros [|b0 bs] info H; [discriminate H|].
  unfold _hstack_info in H. apply hstack_info_loop_Ok in H; [|reflexivity].
  destruct H as [Hall ->]. exists b0, bs. simpl. repeat split; try reflexivity.
  exact Hall.
Qed.

Section FlattenExtras.
Context {E : Externals}.

Lemma mmap_hstack_Ok blocks prefix files w files' :
  _mmap_hstack blocks prefix files = Ok (w, files') ->
  blocks <> [] ->
  exists info,
    _hstack_info blocks = Ok info /\
    csr_shape w = (hi_m info, hi_n info) /\
    files' = files ++ hstack_files prefix.
Proof.
  unfold _mmap_hstack. destruct blocks as [|b bs]; [intros _ H; contradiction|].
  intros H _. change (length (b :: bs) =? 0) with false in H. cbv iota in H.
  apply bind_Ok in H. destruct H as [info [Hinfo H]].
  destruct (hstack_rr_to _ _ _ _ _) as [[dat ind] ptr].
  injection H as <- <-. exists info. auto.
Qed.

(** X12. When [_mmap_hstack] returns for at least one block, the matrix
    has the rows of the first block and as many columns as the blocks
    have together, and exactly the three files of the prefix were made,
    after the files that were there. *)
Theorem mmap_hstack_shape b0 bs prefix files w files' :
  _mmap_hstack (b0 :: bs) prefix files = Ok (w, files') ->
  csr_shape w = (fst (dm_shape b0),
                 list_sum (map (fun b => snd (dm_shape b)) (b0 :: bs))) /\
  Forall (fun block => fst (dm_shape block) = fst (dm_shape b0)) (b0 :: bs) /\
  files' = files ++ hstack_files prefix.
Proof.
  intros H. apply mmap_hstack_Ok in H; [|discriminate].
  destruct H as [info [Hinfo [Hshape Hfiles]]].
  unfold _hstack_info in Hinfo. apply hstack_info_loop_Ok in Hinfo; [|reflexivity].
  destruct Hinfo as [Hall ->]. simpl in Hshape.
  split; [exact Hshape|]. split; [exact Hall | exact Hfiles].
Qed.

Lemma cumsum_from_last (xs : list nat) :
  forall acc, last (acc :: cumsum_from acc xs) 0 = acc + list_sum xs.
Proof.
  induction xs as [|x xs IH]; intros acc.
  - simpl. lia.
  - change (cumsum_from acc (x :: xs)) with ((acc + x) :: cumsum_from (acc + x) xs).
    change (last (acc :: (acc + x) :: cumsum_from (acc + x) xs) 0)
      with (last ((acc + x) :: cumsum_from (acc + x) xs) 0).
    rewrite IH. simpl. lia.
Qed.

Lemma flatten_seq_popped (b : Q) (nodes : list Node) :
  forall st al st',
    visit_seq (flatten_visit b) nodes st = Ok (al, st') ->
    Forall (fun a => exists m, fst a = Some m /\ weights m = None) al.
Proof.
  induction nodes as [|n nodes IH]; intros [i ws] al st' H; simpl in H.
  - injection H as <- _. constructor.
  - apply bind_Ok in H. destruct H as [[a [i1 ws1]] [Hv H]].
    apply bind_Ok in H. destruct H as [[rest st2] [Hrest H]].
    injection H as <- _.
    constructor; [|eapply IH; exact Hrest].
    unfold flatten_visit in Hv.
    destruct (model n) as [m|]; [|discriminate Hv].
    destruct (negb (Qeq_bool b (bias m))); [discriminate Hv|].
    destruct (weights m); [|discriminate Hv].
    injection Hv as <- _ _. eexists. split; reflexivity.
Qed.

Lemma flatten_shape root path files fm wm root' files' :
  _flatten_model root path files = Ok (fm, wm, root', files') ->
  last wm 0 = snd (csr_shape (fm_weights fm)) /\
  has_rows (fst (csr_shape (fm_weights fm))) root /\
  files' = files ++ hstack_files path.
Proof.
  intros H. apply flatten_model_Ok in H.
  destruct H as [rm [idx [ws [w [Hrm [Hdfs [Hst [-> ->]]]]]]]].
  pose proof (dfs_visit_seq (flatten_visit (bias rm)) root (0, [])) as Hseq.
  rewrite Hdfs in Hseq. apply flatten_seq_Ok in Hseq.
  destruct Hseq as [_ [_ [_ [new [Hws HF]]]]]. simpl in Hws. subst new.
  destruct root as [lm cs m i]. simpl dfs_nodes in HF.
  inversion HF as [|n0 w0 ns ws0 Hw0 HF' Hn Hws]; subst.
  apply mmap_hstack_Ok in Hst; [|discriminate].
  destruct Hst as [info [Hinfo [Hshape Hfiles]]].
  unfold _hstack_info in Hinfo. apply hstack_info_loop_Ok in Hinfo; [|reflexivity].
  destruct Hinfo as [_ ->]. cbn [hi_m hi_n] in Hshape. simpl Nat.add in Hshape.
  cbn [fm_weights]. rewrite Hshape. cbn [fst snd].
  split; [rewrite cumsum_cons0, cumsum_from_last; reflexivity|].
  split; [exists w0; auto | exact Hfiles].
Qed.

(** X13. The flattened model fits its weight map: the last entry of the
    weight map is the number of columns of the flattened matrix, whose
    rows are those of the block of the root; the three files of the
    flattened matrix are made after the files that were there. *)
Theorem flatten_model_shape root path files fm wm root' files' :
  _flatten_model root path files = Ok (fm, wm, root', files') ->
  last wm 0 = snd (csr_shape (fm_weights fm)) /\
  has_rows (fst (csr_shape (fm_weights fm))) root /\
  files' = files ++ hstack_files path.
Proof. apply flatten_shape. Qed.

(** X14. The flattener takes the weight block out of every model: after
    [_flatten_model] every node holds a model without weights, and a
    second [_flatten_model] on the tree raises [KeyError]. *)
Theorem flatten_model_once root path files fm wm root' files' :
  _flatten_model root path files = Ok (fm, wm, root', files') ->
  Forall popped (dfs_nodes root') /\
  forall path2 files2, _flatten_model root' path2 files2 = Raise KeyError.
Proof.
  intros H. apply flatten_model_Ok in H.
  destruct H as [rm [idx [ws [w [Hrm [Hdfs [_ _]]]]]]].
  pose proof (dfs_visit_seq (flatten_visit (bias rm)) root (0, [])) as Hseq.
  rewrite Hdfs in Hseq. apply flatten_seq_popped in Hseq.
  rewrite Forall_map in Hseq.
  split; [exact Hseq|].
  intros path2 files2.
  destruct root' as [lm cs m i]. simpl dfs_nodes in Hseq.
  inversion Hseq as [|? ? [m0 [Hm0 Hw0]] _]; subst. simpl in Hm0. subst m.
  assert (Hb : Qeq_bool (bias m0) (bias m0) = true)
    by (apply Qeq_bool_iff; reflexivity).
  assert (Hv : forall st,
             flatten_visit (bias m0) (mkNode lm cs (Some m0) i) st = Raise KeyError).
  { intros [i0 ws0]. unfold flatten_visit. cbn [model]. rewrite Hb, Hw0. reflexivity. }
  unfold _flatten_model. cbn [model]. rewrite dfs_eq, Hv. reflexivity.
Qed.

End FlattenExtras.


Lemma blocks_rows (m : nat) (nodes : list Node) (ws : list dummy) :
  Forall2 (fun n w => node_weights n = Some w) nodes ws ->
  (Forall (fun w => fst (dm_shape w) = m) ws <-> Forall (has_rows m) nodes).
Proof.
  induction 1 as [|n w nodes ws Hw _ IH].
  - split; constructor.
  - split; intros H; inversion H as [|? ? Hhd Htl]; subst; constructor.
    + exists w. auto.
    + apply IH. exact Htl.
    + destruct Hhd as [w' [Hw' Hr]]. rewrite Hw in Hw'. injection Hw' as <-. exact Hr.
    + apply IH. exact Htl.
Qed.

Section FlattenOutcomes.
Context {E : Externals}.

(** The concatenation of blocks, of which there is one: it returns when
    the blocks have the rows of the first, and raises [ValueError]
    otherwise. *)
Lemma mmap_hstack_cases b0 bs prefix files :
  (Forall (fun w => fst (dm_shape w) = fst (dm_shape b0)) (b0 :: bs) /\
   exists res, _mmap_hstack (b0 :: bs) prefix files = Ok res) \/
  (~ Forall (fun w => fst (dm_shape w) = fst (dm_shape b0)) (b0 :: bs) /\
   _mmap_hstack (b0 :: bs) prefix files = Raise ValueError).
Proof.
  unfold _mmap_hstack, _hstack_info.
  change (length (b0 :: bs) =? 0) with false. cbv iota.
  destruct (hstack_info_loop (fst (dm_shape b0)) (b0 :: bs)
              (mkHstackInfo (fst (dm_shape b0)) 0 0 [] [] [] []))
    as [[Hall [i Hi]]|[Hex Hr]].
  - left. split; [exact Hall|]. rewrite Hi. cbn [bind].
    destruct (hstack_rr_to _ _ _ _ _) as [[? ?] ?]. eexists. reflexivity.
  - right. split; [|rewrite Hr; reflexivity].
    intros Hall. rewrite Forall_forall in Hall. rewrite Exists_exists in Hex.
    destruct Hex as [w [Hin Hw]]. apply Hw. apply Hall. exact Hin.
Qed.

Lemma flatten_outcomes root path files rm w0 :
  Forall trained (dfs_nodes root) ->
  model root = Some rm -> weights rm = Some w0 ->
  ((exists res, _flatten_model root path files = Ok res) <->
   Forall (has_bias_of (bias rm)) (dfs_nodes root) /\
   Forall (has_rows (fst (dm_shape w0))) (dfs_nodes root)) /\
  (_flatten_model root path files = Raise ValueError <->
   Forall (has_bias_of (bias rm)) (dfs_nodes root) /\
   ~ Forall (has_rows (fst (dm_shape w0))) (dfs_nodes root)) /\
  (forall e, _flatten_model root path files = Raise e ->
             e = AssertionError \/ e = ValueError).
Proof.
  intros Htr Hrm Hw0.
  pose proof (dfs_visit_seq (flatten_visit (bias rm)) root (0, [])) as Hseq.
  unfold _flatten_model. rewrite Hrm.
  destruct (flatten_seq_trained (bias rm) Htr 0 [])
    as [[Hall [al [ws Hal]]]|[Hex Hr]].
  - rewrite Hal in Hseq.
    destruct (dfs (flatten_visit (bias rm)) root (0, [])) as [[r1 [i1 ws1]]|e] eqn:Hdfs;
      [|discriminate Hseq].
    injection Hseq as Hal' Hi1 Hws1. subst ws1. cbn [bind].
    apply flatten_seq_Ok in Hal. destruct Hal as [_ [_ [_ [new [Hws HF]]]]].
    simpl in Hws. subst new.
    assert (Hroot : exists ws0, ws = w0 :: ws0).
    { destruct root as [lm cs m i]. simpl dfs_nodes in HF. simpl in Hrm. subst m.
      inversion HF as [|? w ? ws0 Hw _]; subst.
      unfold node_weights in Hw. simpl in Hw. rewrite Hw0 in Hw. injection Hw as <-.
      exists ws0. reflexivity. }
    destruct Hroot as [ws0 ->].
    pose proof (blocks_rows (fst (dm_shape w0)) HF) as Hrows.
    destruct (mmap_hstack_cases w0 ws0 path files)
      as [[Hsame [[w f1] Hok]]|[Hdiff Hraise]].
    + rewrite Hok. cbn [bind]. split; [|split].
      * split; [intros _; split; [exact Hall | apply Hrows; exact Hsame]|].
        intros _. eexists. reflexivity.
      * split; [discriminate|]. intros [_ Hn]. exfalso. apply Hn, Hrows, Hsame.
      * intros e He. discriminate He.
    + rewrite Hraise. cbn [bind]. split; [|split].
      * split; [intros [res Hres]; discriminate Hres|].
        intros [_ Hr]. exfalso. apply Hdiff, Hrows, Hr.
      * split; [|reflexivity]. intros _. split; [exact Hall|].
        intros Hr. apply Hdiff, Hrows, Hr.
      * intros e He. injection He as <-. auto.
  - rewrite Hr in Hseq.
    destruct (dfs (flatten_visit (bias rm)) root (0, [])) as [[r1 [i1 ws1]]|e] eqn:Hdfs;
      [discriminate Hseq|].
    injection Hseq as He. subst e. cbn [bind].
    assert (Hno : ~ Forall (has_bias_of (bias rm)) (dfs_nodes root))
      by (intros Hall; eapply Forall_Exists_bias_excl; eassumption).
    split; [|split].
    + split; [intros [res Hres]; discriminate Hres | intros [Hall _]; contradiction].
    + split; [discriminate | intros [Hall _]; contradiction].
    + intros e He. injection He as <-. auto.
Qed.

(** X15. What [_flatten_model] does with a trained tree: it returns
    exactly when every node holds the bias of the root and a block with
    as many rows as the block of the root; it raises [ValueError] exactly
    when the biases agree and some block has other rows; and it raises
    nothing but [AssertionError] and [ValueError]. *)
Theorem flatten_model_outcomes root path files rm w0 :
  Forall trained (dfs_nodes root) ->
  model root = Some rm -> weights rm = Some w0 ->
  ((exists res, _flatten_model root path files = Ok res) <->
   Forall (has_bias_of (bias rm)) (dfs_nodes root) /\
   Forall (has_rows (fst (dm_shape w0))) (dfs_nodes root)) /\
  (_flatten_model root path files = Raise ValueError <->
   Forall (has_bias_of (bias rm)) (dfs_nodes root) /\
   ~ Forall (has_rows (fst (dm_shape w0))) (dfs_nodes root)) /\
  (forall e, _flatten_model root path files = Raise e ->
             e = AssertionError \/ e = ValueError).
Proof. apply flatten_outcomes. Qed.

(** X16. After a training that returned, flattening the trained tree
    returns, or raises [AssertionError] (two nodes with different biases)
    or [ValueError] (two blocks with different row counts), and nothing
    else: no model and no weight block is missing. *)
Theorem train_then_flatten y x options mmap_root r r' info' path files :
  train_nodes r y x options mmap_root = Ok (r', info') ->
  (exists res, _flatten_model r' path files = Ok res) \/
  _flatten_model r' path files = Raise AssertionError \/
  _flatten_model r' path files = Raise ValueError.
Proof.
  intros Htrain.
  destruct (_flatten_model r' path files) as [res|e] eqn:Hflat;
    [left; exists res; reflexivity|].
  right.
  assert (He : e = AssertionError \/ e = ValueError);
    [|destruct He as [->| ->]; auto].
  apply train_nodes_trained in Htrain. destruct Htrain as [Htrain _].
  assert (Hroot : trained r').
  { destruct r' as [lm cs m i]. simpl dfs_nodes in Htrain.
    inversion Htrain. assumption. }
  destruct Hroot as [rm [w0 [Hrm Hw0]]].
  eapply (proj2 (proj2 (@flatten_outcomes r' path files rm w0 Htrain Hrm Hw0))).
  exact Hflat.
Qed.

End FlattenOutcomes.


(** ** The beam and the vector of scores *)

Lemma set_nth_length {A : Type} (i : nat) (v : A) (l : list A) :
  length (set_nth i v l) = length l.
Proof.
  revert i. induction l as [|x l IH]; intros [|i]; simpl; try reflexivity.
  rewrite IH. reflexivity.
Qed.

Lemma set_nth_other {A : Type} (i j : nat) (v : A) (l : list A) :
  i <> j -> nth_error (set_nth i v l) j = nth_error l j.
Proof.
  revert i j. induction l as [|x l IH]; intros [|i] [|j] Hij; simpl;
    try reflexivity; try (exfalso; apply Hij; reflexivity).
  apply IH. intros ->. apply Hij. reflexivity.
Qed.

(** An assignment at indices keeps the length of the vector and the
    entries at the other indices. *)
Lemma fancy_assign_frame {A : Type} (scores : list A) (idxs : list nat)
  (vals scores' : list A) :
  fancy_assign scores idxs vals = Ok scores' ->
  length scores' = length scores /\
  forall j, ~ In j idxs -> nth_error scores' j = nth_error scores j.
Proof.
  assert (Hput : forall (vs : list A) (idxs0 : list nat) (sc sc' : list A),
             for_each (combine idxs0 vs)
               (fun '(i, v) sc => if (i <? length sc)%nat then Ok (set_nth i v sc)
                                  else Raise IndexError) sc = Ok sc' ->
             length sc' = length sc /\
             forall j, ~ In j idxs0 -> nth_error sc' j = nth_error sc j).
  { induction vs as [|v vs IH]; intros [|i idxs0] sc sc' H; simpl in H;
      try (injection H as <-; split; [reflexivity | intros; reflexivity]).
    destruct (i <? length sc); [|discriminate H].
    apply IH in H. destruct H as [Hlen Hfr]. rewrite set_nth_length in Hlen.
    split; [exact Hlen|]. intros j Hj. simpl in Hj.
    rewrite Hfr by tauto. apply set_nth_other. tauto. }
  unfold fancy_assign. destruct (length vals =? length idxs).
  - apply Hput.
  - destruct vals as [|v [|v' vals]]; intros H; try discriminate H.
    apply Hput in H. exact H.
Qed.

Lemma dfs_nodes_self (n : Node) : In n (dfs_nodes n).
Proof. destruct n. simpl. left. reflexivity. Qed.

Lemma dfs_nodes_eq (n : Node) : dfs_nodes n = n :: flat_map dfs_nodes (children n).
Proof. destruct n. reflexivity. Qed.

(** The nodes of a tree are closed under children. *)
Lemma dfs_nodes_child (r : Node) :
  forall n c, In n (dfs_nodes r) -> In c (children n) -> In c (dfs_nodes r).
Proof.
  induction r as [lm cs m i IH] using Node_ind'. intros n c Hn Hc.
  rewrite dfs_nodes_eq in *. simpl children in *.
  destruct Hn as [<-|Hn].
  - right. simpl in Hc. apply in_flat_map. exists c. split; [exact Hc|].
    apply dfs_nodes_self.
  - right. apply in_flat_map in Hn. destruct Hn as [c0 [Hc0 Hn]].
    apply in_flat_map. exists c0. split; [exact Hc0|].
    rewrite Forall_forall in IH. eapply IH; eassumption.
Qed.

Lemma num_internal_leaves (cur : list (Node * Q)) :
  num_internal cur = 0 -> Forall (fun pair => isLeaf (fst pair) = true) cur.
Proof.
  unfold num_internal. induction cur as [|p cur IH]; simpl; intros H; [constructor|].
  destruct (isLeaf (fst p)) eqn:Hp; simpl in H; [|discriminate H].
  constructor; [exact Hp | apply IH; exact H].
Qed.

Section BeamExtras.
Variable tm : TreeModel.
Variable instance_preds : list Q.
Variable beam_width : Z.

Lemma keep_length (next : list (Node * Q)) :
  (0 <= beam_width)%Z -> length (keep beam_width next) <= Z.to_nat beam_width.
Proof.
  intros Hbw. unfold keep. rewrite take_nonneg by exact Hbw.
  rewrite length_firstn. lia.
Qed.

Lemma beam_rounds_final (fuel : nat) :
  forall cur lvl,
    Forall (fun pair => In (fst pair) (dfs_nodes (root tm))) cur ->
    beam_rounds tm instance_preds beam_width fuel cur = Ok lvl ->
    Forall (fun pair => isLeaf (fst pair) = true /\
                        In (fst pair) (dfs_nodes (root tm))) lvl /\
    ((0 <= beam_width)%Z ->
     length lvl <= Nat.max (length cur) (Z.to_nat beam_width)).
Proof.
  induction fuel as [|fuel IH]; intros cur lvl Hcur H; cbn [beam_rounds] in H;
    destruct (num_internal cur =? 0) eqn:Hint; try discriminate H;
    try (injection H as <-; apply Nat.eqb_eq in Hint;
         apply num_internal_leaves in Hint; split; [|intros; lia];
         rewrite Forall_forall in *; intros p Hp; split; auto).
  apply bind_Ok in H. destruct H as [next [Hnext H]].
  apply IH in H.
  - destruct H as [Hlvl Hlen]. split; [exact Hlvl|].
    intros Hbw. specialize (Hlen Hbw). pose proof (keep_length next Hbw). lia.
  - apply keep_Forall.
    eapply (@expand_Forall tm instance_preds
              (fun pair => In (fst pair) (dfs_nodes (root tm)))
              (fun pair => In (fst pair) (dfs_nodes (root tm))));
      [ | | exact Hcur | constructor | exact Hnext].
    + intros node score Hp _. exact Hp.
    + simpl. intros node score c s Hp _ Hc _. eapply dfs_nodes_child; eassumption.
Qed.

(** X17. The beam the search ends with holds leaves of the tree only,
    and, for a beam width that is not negative, at most [beam_width] of
    them, or the root alone. *)
Theorem beam_ends_with_leaves (fuel : nat) (lvl : list (Node * Q)) :
  beam_rounds tm instance_preds beam_width fuel [(root tm, 0%Q)] = Ok lvl ->
  Forall (fun pair => isLeaf (fst pair) = true /\
                      In (fst pair) (dfs_nodes (root tm))) lvl /\
  ((0 <= beam_width)%Z -> length lvl <= Nat.max 1 (Z.to_nat beam_width)).
Proof.
  intros H. apply beam_rounds_final in H; [exact H|].
  constructor; [apply dfs_nodes_self | constructor].
Qed.

Lemma leaf_scores_frame (lvl : list (Node * Q)) (scores : list entry) :
  leaf_scores tm instance_preds lvl = Ok scores ->
  length scores = length (label_map (root tm)) /\
  forall j,
    (forall pair, In pair lvl -> ~ In j (label_map (fst pair))) ->
    nth_error scores j = nth_error (repeat NegInf (length (label_map (root tm)))) j.
Proof.
  unfold leaf_scores.
  assert (Hgen : forall s0 : list entry,
    for_each lvl
      (fun '(node, score) scores =>
         pred <- node_preds tm instance_preds node ;;
         fancy_assign scores (label_map node)
                      (map (fun p => Exp (score - hinge p)%Q) pred)) s0 = Ok scores ->
    length scores = length s0 /\
    forall j, (forall pair, In pair lvl -> ~ In j (label_map (fst pair))) ->
              nth_error scores j = nth_error s0 j).
  { induction lvl as [|[node score] lvl IH]; intros s0 H; cbn [for_each] in H.
    - injection H as <-. split; [reflexivity | intros; reflexivity].
    - match type of H with match ?b with _ => _ end = _ =>
        destruct b as [s1|e] eqn:Hb; [|discriminate H] end.
      apply bind_Ok in Hb. destruct Hb as [pred [_ Hb]].
      apply fancy_assign_frame in Hb. destruct Hb as [Hl1 Hf1].
      apply IH in H. destruct H as [Hl Hf].
      split; [lia|]. intros j Hj.
      rewrite Hf by (intros pair Hp; apply Hj; right; exact Hp).
      apply Hf1. apply (Hj (node, score)). left. reflexivity. }
  intros H. apply Hgen in H. rewrite repeat_length in H. exact H.
Qed.



End BeamExtras.


(** ** Prediction for a batch *)

Lemma map_result_Ok {A B : Type} (f : A -> result B) (xs : list A) (ys : list B) :
  map_result f xs = Ok ys -> Forall2 (fun x y => f x = Ok y) xs ys.
Proof.
  revert ys. induction xs as [|x xs IH]; intros ys H; simpl in H.
  - injection H as <-. constructor.
  - apply bind_Ok in H. destruct H as [y0 [Hy H]].
    apply bind_Ok in H. destruct H as [ys0 [Hys H]].
    injection H as <-. constructor; [exact Hy | apply IH; exact Hys].
Qed.

Section PredictExtras.
Variable linear_predict_values : FlatModel -> matrix -> list (list Q).

(** X20. [predict_values] raises [ValueError] for a batch without
    instance. When it returns, there is a vector of scores for every row
    of decision values, in their order, each the result of the beam search
    on that row and as long as the root has labels. *)
Theorem predict_values_rows tm x beam_width :
  (linear_predict_values (flat_model tm) x = [] ->
   predict_values linear_predict_values tm x beam_width = Raise ValueError) /\
  forall out,
    predict_values linear_predict_values tm x beam_width = Ok out ->
    Forall2 (fun instance_preds scores =>
               _beam_search tm instance_preds beam_width = Ok scores /\
               length scores = length (label_map (root tm)))
            (linear_predict_values (flat_model tm) x) out.
Proof.
  unfold predict_values. split.
  - intros ->. reflexivity.
  - intros out H. apply bind_Ok in H. destruct H as [rows [Hrows H]].
    assert (out = rows) as ->.
    { unfold vstack in H. destruct rows as [|a rest]; [discriminate H|].
      destruct (forallb _ rest); [|discriminate H]. injection H as <-. reflexivity. }
    apply map_result_Ok in Hrows.
    eapply Forall2_impl; [|exact Hrows].
    intros p s Hs. split; [exact Hs|].
    unfold _beam_search in Hs. apply bind_Ok in Hs. destruct Hs as [lvl [_ Hs]].
    apply leaf_scores_frame in Hs. apply Hs.
Qed.

End PredictExtras.


(** ** The whole of [train_tree] *)

Lemma slice_assign_path {A : Type} (a a' : Array A) (start stop : nat)
  (vals : list A) (v : view A) :
  slice_assign a start stop vals = Ok (a', v) -> arr_path a' = arr_path a.
Proof.
  unfold slice_assign. destruct (length vals =? _).
  - intros H. injection H as <- _. reflexivity.
  - destruct vals as [|v0 [|v1 vals]]; intros H; try discriminate H.
    injection H as <- _. reflexivity.
Qed.

Lemma as_mmap_paths arr info v info' :
  _as_mmap arr info = Ok (v, info') ->
  arr_path (mm_data info') = arr_path (mm_data info) /\
  arr_path (mm_indices info') = arr_path (mm_indices info) /\
  arr_path (mm_indptr info') = arr_path (mm_indptr info).
Proof.
  intros H. apply as_mmap_Ok in H.
  destruct H as [d1 [dv [i1 [iv [p1 [pv [Hd [Hi [Hp [_ ->]]]]]]]]]]. simpl.
  apply slice_assign_path in Hd. apply slice_assign_path in Hi.
  apply slice_assign_path in Hp. rewrite Hd, Hi, Hp.
  destruct (arr_shape0 (mm_data info) <? num_data info + nnz arr); auto.
Qed.

Section TrainTreeExtras.
Context {E : Externals}.

Lemma train_seq_paths y x options (nodes : list Node) :
  forall s al s',
    visit_seq (train_visit y x options) nodes s = Ok (al, s') ->
    arr_path (mm_data s') = arr_path (mm_data s) /\
    arr_path (mm_indices s') = arr_path (mm_indices s) /\
    arr_path (mm_indptr s') = arr_path (mm_indptr s).
Proof.
  induction nodes as [|n nodes IH]; intros s al s' H; simpl in H.
  - injection H as _ <-. auto.
  - apply bind_Ok in H. destruct H as [[a s1] [Hv H]].
    apply bind_Ok in H. destruct H as [[rest s2] [Hrest H]].
    injection H as _ <-.
    apply train_visit_block in Hv. destruct Hv as [b [w [wv [Hm _]]]].
    apply as_mmap_paths in Hm. apply IH in Hrest.
    destruct Hm as [H1 [H2 H3]]. destruct Hrest as [R1 [R2 R3]].
    rewrite R1, R2, R3. auto.
Qed.

Lemma train_nodes_paths y x options mmap_root r r' info :
  train_nodes r y x options mmap_root = Ok (r', info) ->
  [arr_path (mm_data info); arr_path (mm_indices info); arr_path (mm_indptr info)]
  = node_files mmap_root.
Proof.
  unfold train_nodes. intros H.
  destruct (dfs_count r 0) as [r0 Hcount]. rewrite Hcount in H. simpl in H.
  pose proof (dfs_visit_seq (train_visit y x options) r
                (new_mmap_info mmap_root (length (dfs_nodes r)) x options)) as Hseq.
  rewrite H in Hseq. apply train_seq_paths in Hseq.
  destruct Hseq as [R1 [R2 R3]]. rewrite R1, R2, R3. reflexivity.
Qed.

(** The steps of a [train_tree] that returns. *)
Lemma train_tree_Ok y x options K dmax verbose w tm w' :
  train_tree y x options K dmax verbose w = Ok (tm, w') ->
  exists r w1 r1 info fm wm r2 files2,
    load_or_build y x K dmax w = Ok (r, w1) /\
    train_nodes r y x options (String.append "weights/" (uuid4_hex (w_uuids w1)))
    = Ok (r1, info) /\
    _flatten_model r1
      (String.append (String.append "weights/" (uuid4_hex (w_uuids w1))) "/flat_model")
      (w_arrays w1 ++ node_files (String.append "weights/" (uuid4_hex (w_uuids w1))))
    = Ok (fm, wm, r2, files2) /\
    tm = mkTreeModel r2 fm wm
           (mkMmapDesc (String.append "weights/" (uuid4_hex (w_uuids w1)))
                       (csr_shape (fm_weights fm)) (nnz (fm_weights fm))) /\
    w' = mkWorld (w_rng w1) (w_cache w1) files2 (S (w_uuids w1)) (w_log w1).
Proof.
  unfold train_tree. intros H.
  apply bind_Ok in H. destruct H as [[r w1] [Hload H]].
  apply bind_Ok in H. destruct H as [[r1 info] [Htrain H]].
  apply bind_Ok in H. destruct H as [[[[fm wm] r2] files2] [Hflat H]].
  injection H as <- <-.
  assert (Hp := Htrain). apply train_nodes_paths in Hp. rewrite Hp in Hflat.
  exists r, w1, r1, info, fm, wm, r2, files2. auto.
Qed.

(** What [load_or_build] leaves of the world. *)
Lemma load_or_build_Ok y x K dmax w r w1 :
  load_or_build y x K dmax w = Ok (r, w1) ->
  w_arrays w1 = w_arrays w /\ w_uuids w1 = w_uuids w /\
  exists path,
    cache_path y x (w_rng w) = Ok path /\
    ((exists bytes,
         lookup path (w_cache w) = Some bytes /\
         pickle_load bytes = Ok r /\
         w_rng w1 = w_rng w /\ w_cache w1 = w_cache w /\
         w_log w1 = w_log w ++
                    [(INFO, String.append "loading tree (no weights) from cache " path)])
     \/
     (lookup path (w_cache w) = None /\
      _build_tree (label_representation y x) (range (shape1 y)) 0 K dmax (w_rng w)
      = Ok (r, w_rng w1) /\
      w_cache w1 = (path, pickle_dump r) :: w_cache w /\
      w_log w1 = w_log w)).
Proof.
  unfold load_or_build. intros H.
  apply bind_Ok in H. destruct H as [path [Hpath H]].
  destruct (lookup path (w_cache w)) as [bytes|] eqn:Hfile.
  - apply bind_Ok in H. destruct H as [r0 [Hload H]]. injection H as <- <-.
    simpl. split; [reflexivity|]. split; [reflexivity|].
    exists path. split; [exact Hpath|]. left. exists bytes. auto.
  - apply bind_Ok in H. destruct H as [[r0 g] [Hbuild H]]. injection H as <- <-.
    simpl. split; [reflexivity|]. split; [reflexivity|].
    exists path. split; [exact Hpath|]. right. auto.
Qed.

Lemma lookup_head {A : Type} (k : String.string) (v : A) kvs :
  lookup k ((k, v) :: kvs) = Some v.
Proof. simpl. rewrite String.eqb_refl. reflexivity. Qed.

(** The label maps of the tree of the model are those of the tree that
    was trained. *)
Lemma train_flatten_label_maps y x options mmap_root r r1 info path files fm wm r2 files2 :
  train_nodes r y x options mmap_root = Ok (r1, info) ->
  _flatten_model r1 path files = Ok (fm, wm, r2, files2) ->
  map label_map (dfs_nodes r2) = map label_map (dfs_nodes r).
Proof.
  intros Htrain Hflat.
  apply train_nodes_trained in Htrain. destruct Htrain as [_ [Hlm _]].
  apply flatten_model_Ok in Hflat.
  destruct Hflat as [rm [idx [ws [w [_ [Hdfs _]]]]]].
  apply dfs_label_maps in Hdfs. rewrite Hdfs. exact Hlm.
Qed.


(** X22. A cache miss builds and stores: when the cache holds no entry
    for the fingerprint, a [train_tree] that returns has built the tree
    with [_build_tree] from depth 0, has trained that tree, has put its
    pickle into the cache under the fingerprint, before the entries that
    were there, where a lookup now finds it, and has logged nothing. *)
Theorem train_tree_cache_miss y x options K dmax verbose w path tm w' :
  cache_path y x (w_rng w) = Ok path ->
  lookup path (w_cache w) = None ->
  train_tree y x options K dmax verbose w = Ok (tm, w') ->
  exists r,
    _build_tree (label_representation y x) (range (shape1 y)) 0 K dmax (w_rng w)
    = Ok (r, w_rng w') /\
    map label_map (dfs_nodes (root tm)) = map label_map (dfs_nodes r) /\
    w_cache w' = (path, pickle_dump r) :: w_cache w /\
    lookup path (w_cache w') = Some (pickle_dump r) /\
    w_log w' = w_log w.
Proof.
  intros Hpath Hfile H. apply train_tree_Ok in H.
  destruct H as [r0 [w1 [r1 [info [fm [wm [r2 [files2
                   [Hlb [Htrain [Hflat [-> ->]]]]]]]]]]]].
  simpl.
  assert (Hlm := Hflat). eapply train_flatten_label_maps in Hlm; [|exact Htrain].
  apply load_or_build_Ok in Hlb. destruct Hlb as [_ [_ [path' [Hpath' Hcase]]]].
  rewrite Hpath in Hpath'. injection Hpath' as <-.
  destruct Hcase as [[bytes' [Hfile' _]]|[_ [Hbuild [Hcache Hlog]]]].
  - rewrite Hfile in Hfile'. discriminate Hfile'.
  - exists r0. split; [exact Hbuild|]. split; [exact Hlm|].
    split; [exact Hcache|]. split; [rewrite Hcache; apply lookup_head | exact Hlog].
Qed.

(** X23. [train_tree] on a feature matrix without rows raises
    [IndexError]: the fingerprint needs the first and the last row. *)
Theorem train_tree_no_rows y x options K dmax verbose w :
  rows x = [] ->
  train_tree y x options K dmax verbose w = Raise IndexError.
Proof.
  intros Hx. unfold train_tree, load_or_build, cache_path. rewrite Hx. reflexivity.
Qed.

Lemma flatten_model_indexed root path files fm wm root' files' :
  _flatten_model root path files = Ok (fm, wm, root', files') ->
  length wm = length (dfs_nodes root') + 1 /\
  forall i node, nth_error (dfs_nodes root') i = Some node -> index node = Some i.
Proof.
  intros H. apply flatten_model_Ok in H.
  destruct H as [rm [idx [ws [w [_ [Hdfs [_ [_ ->]]]]]]]].
  pose proof (dfs_visit_seq (flatten_visit (bias rm)) root (0, [])) as Hseq.
  rewrite Hdfs in Hseq.
  pose proof (dfs_label_maps _ _ _ Hdfs) as Hlm.
  assert (Hlen' : length (dfs_nodes root') = length (dfs_nodes root))
    by (rewrite <- (length_map label_map), Hlm, length_map; reflexivity).
  apply flatten_seq_Ok in Hseq.
  destruct Hseq as [_ [Hal [_ [new [Hws HF]]]]]. simpl in Hws. subst new.
  pose proof (Forall2_length HF) as Hlen.
  split.
  - rewrite cumsum_cons0. simpl. rewrite cumsum_from_length, length_map. lia.
  - intros i node Hi.
    assert (Hm : nth_error (map snd (map attrs_of (dfs_nodes root'))) i
                 = Some (index node))
      by (rewrite !nth_error_map, Hi; reflexivity).
    rewrite Hal, nth_error_map, nth_error_seq in Hm.
    assert (Hlt : i < length (dfs_nodes root'))
      by (apply nth_error_Some; rewrite Hi; discriminate).
    destruct (Nat.ltb_spec i (length (dfs_nodes root))); [|lia].
    simpl in Hm. injection Hm as <-. reflexivity.
Qed.

(** X24. In a model [train_tree] returns the weight map has an entry
    more than the tree has nodes, the node at the place [i] of the
    depth-first order has the index [i], and so the slice of the decision
    values of every node of the tree can be taken: the beam search finds
    an index and both ends of the slice for every node it meets. *)
Theorem trained_model_slices y x options K dmax verbose w tm w' :
  train_tree y x options K dmax verbose w = Ok (tm, w') ->
  length (weight_map tm) = length (dfs_nodes (root tm)) + 1 /\
  (forall i node, nth_error (dfs_nodes (root tm)) i = Some node -> index node = Some i) /\
  forall instance_preds node,
    In node (dfs_nodes (root tm)) ->
    exists pred, node_preds tm instance_preds node = Ok pred.
Proof.
  intros H. apply train_tree_Ok in H.
  destruct H as [r0 [w1 [r1 [info [fm [wm [r2 [files2
                   [_ [_ [Hflat [-> _]]]]]]]]]]]].
  apply flatten_model_indexed in Hflat. destruct Hflat as [Hlen Hidx].
  simpl. split; [exact Hlen|]. split; [exact Hidx|].
  intros preds node Hin. apply In_nth_error in Hin. destruct Hin as [i Hi].
  assert (Hlt : i < length (dfs_nodes r2))
    by (apply nth_error_Some; rewrite Hi; discriminate).
  unfold node_preds. simpl. rewrite (Hidx i node Hi).
  destruct (nth_error wm i) as [a|] eqn:Ha;
    [|apply nth_error_None in Ha; lia].
  destruct (nth_error wm (i + 1)) as [b|] eqn:Hb;
    [|apply nth_error_None in Hb; lia].
  eexists. reflexivity.
Qed.

(** X25. A [train_tree] that returns has made six files and no other:
    the three mapped arrays of the nodes and the three of the flattened
    matrix, under the root [weights/] with a fresh identifier, after the
    files that were there. The model names that root, and the shape it
    records is the shape of the flattened matrix, whose number of columns
    is the last entry of the weight map. *)
Theorem train_tree_files y x options K dmax verbose w tm w' :
  train_tree y x options K dmax verbose w = Ok (tm, w') ->
  md_root (mmap tm) = String.append "weights/" (uuid4_hex (w_uuids w)) /\
  w_arrays w' = w_arrays w ++ node_files (md_root (mmap tm))
                ++ hstack_files (String.append (md_root (mmap tm)) "/flat_model") /\
  w_uuids w' = S (w_uuids w) /\
  md_shape (mmap tm) = csr_shape (fm_weights (flat_model tm)) /\
  last (weight_map tm) 0 = snd (md_shape (mmap tm)).
Proof.
  intros H. apply train_tree_Ok in H.
  destruct H as [r0 [w1 [r1 [info [fm [wm [r2 [files2
                   [Hlb [_ [Hflat [-> ->]]]]]]]]]]]].
  apply load_or_build_Ok in Hlb. destruct Hlb as [Harr [Huu _]].
  simpl. rewrite Huu in *. rewrite Harr in Hflat.
  apply flatten_shape in Hflat. destruct Hflat as [Hlast [_ Hfiles]].
  split; [reflexivity|]. split; [rewrite Hfiles, <- app_assoc; reflexivity|].
  split; [reflexivity|]. split; [reflexivity | exact Hlast].
Qed.

End TrainTreeExtras.


(** ** Logging *)

Module LoggingFacts.
Import Logging.

Section HandlerFacts.
Variable format : option String.string -> LogRecord -> String.string.

Lemma emits_logs (rs : list LogRecord) :
  forall h,
    logs (fold_left (emit format) rs h)
    = logs h ++ map (format (lh_formatter h)) rs /\
    lh_level (fold_left (emit format) rs h) = lh_level h /\
    lh_formatter (fold_left (emit format) rs h) = lh_formatter h /\
    lh_collect_filter (fold_left (emit format) rs h) = lh_collect_filter h.
Proof.
  induction rs as [|r rs IH]; intros h; simpl.
  - rewrite app_nil_r. auto.
  - destruct (IH (emit format h r)) as [Hl [H1 [H2 H3]]].
    rewrite Hl, H1, H2, H3. simpl. rewrite <- app_assoc. auto.
Qed.

(** X26. [get_logs] returns the texts of the records emitted since the
    handler was made or emptied, in the order of the calls of [emit],
    behind what it held, and empties the handler: a [get_logs] right
    after returns nothing. The level and the formatter stay. *)
Theorem get_logs_returns_emitted (h : ListHandler) (rs : list LogRecord) :
  fst (get_logs (fold_left (emit format) rs h))
  = logs h ++ map (format (lh_formatter h)) rs /\
  logs (snd (get_logs (fold_left (emit format) rs h))) = [] /\
  fst (get_logs (snd (get_logs (fold_left (emit format) rs h)))) = [] /\
  lh_level (snd (get_logs (fold_left (emit format) rs h))) = lh_level h /\
  lh_formatter (snd (get_logs (fold_left (emit format) rs h))) = lh_formatter h.
Proof.
  destruct (emits_logs rs h) as [Hl [H1 [H2 _]]].
  unfold get_logs. simpl. auto.
Qed.

Lemma handles_logs (rs : list LogRecord) :
  forall h,
    lh_collect_filter h = true ->
    logs (fold_left (handle format) rs h)
    = logs h ++ map (format (lh_formatter h))
                    (filter (fun r => (lh_level h <=? levelno r) && collect_filter r)
                            rs).
Proof.
  induction rs as [|r rs IH]; intros h Hf; simpl.
  - rewrite app_nil_r. reflexivity.
  - unfold handle at 2. rewrite Hf. simpl.
    destruct (lh_level h <=? levelno r); simpl; [|apply IH; exact Hf].
    destruct (collect_filter r); simpl; [|apply IH; exact Hf].
    rewrite IH by exact Hf. simpl. rewrite <- app_assoc. reflexivity.
Qed.

(** X28. The handler [add_collect_handler] makes collects, of the records
    the root logger hands to it, those at or above its level that carry a
    true [collect], and no other: [get_logs] returns their texts under
    [LOG_FORMAT], in their order. *)
Theorem collected_records (level : nat) (st : State) (rs : list LogRecord) :
  collect_handler st = None ->
  fst (get_logs (fold_left (handle format) rs (fst (add_collect_handler level st))))
  = map (format (Some LOG_FORMAT))
        (filter (fun r => (level <=? levelno r) && collect_filter r) rs).
Proof.
  intros Hnone. unfold add_collect_handler. rewrite Hnone. simpl fst.
  unfold get_logs. simpl fst. rewrite handles_logs by reflexivity. reflexivity.
Qed.

End HandlerFacts.

(** X27. Each of the two handlers is made and attached once: a second
    [add_collect_handler] (or [add_stream_handler]) returns the handler
    of the first and changes nothing, whatever level it is given; the
    first call attaches its handler once to the root logger, behind the
    handlers that were there, and leaves the other handler alone. *)
Theorem add_handlers_once (l1 l2 : nat) (st : State) :
  (add_collect_handler l2 (snd (add_collect_handler l1 st))
   = add_collect_handler l1 st /\
   (collect_handler st = None ->
    root_handlers (snd (add_collect_handler l1 st)) = root_handlers st ++ [CollectRef] /\
    attached CollectRef (snd (add_collect_handler l1 st)) = attached CollectRef st + 1 /\
    attached StreamRef (snd (add_collect_handler l1 st)) = attached StreamRef st /\
    stream_handler (snd (add_collect_handler l1 st)) = stream_handler st /\
    lh_level (fst (add_collect_handler l1 st)) = l1)) /\
  (add_stream_handler l2 (snd (add_stream_handler l1 st))
   = add_stream_handler l1 st /\
   (stream_handler st = None ->
    root_handlers (snd (add_stream_handler l1 st)) = root_handlers st ++ [StreamRef] /\
    attached StreamRef (snd (add_stream_handler l1 st)) = attached StreamRef st + 1 /\
    attached CollectRef (snd (add_stream_handler l1 st)) = attached CollectRef st /\
    collect_handler (snd (add_stream_handler l1 st)) = collect_handler st /\
    root_level (snd (add_stream_handler l1 st)) = NOTSET /\
    sh_level (fst (add_stream_handler l1 st)) = l1)).
Proof.
  split.
  - split.
    + unfold add_collect_handler.
      destruct (collect_handler st) as [h|] eqn:Hc; simpl; [rewrite Hc|]; reflexivity.
    + intros Hnone. unfold add_collect_handler. rewrite Hnone.
      unfold attached. cbn [fst snd root_handlers stream_handler lh_level].
      rewrite !filter_app, !length_app. simpl. repeat split; lia.
  - split.
    + unfold add_stream_handler.
      destruct (stream_handler st) as [h|] eqn:Hc; simpl; [rewrite Hc|]; reflexivity.
    + intros Hnone. unfold add_stream_handler. rewrite Hnone.
      unfold attached.
      cbn [fst snd root_handlers collect_handler root_level sh_level].
      rewrite !filter_app, !length_app. simpl. repeat split; lia.
Qed.

End LoggingFacts.


(** ** The further properties on the sample *)

Lemma sample_kmeans_ids :
  forall K seed rep ml,
    @kmeans_labels externals K seed rep = Ok ml -> Forall (fun c => c < K) ml.
Proof.
  intros K seed rep ml H. simpl in H. unfold kmeans in H.
  destruct (K =? 0) eqn:HK; [discriminate H|]. apply Nat.eqb_neq in HK.
  injection H as <-. apply Forall_forall. intros c Hc.
  apply in_map_iff in Hc. destruct Hc as [r [<- _]].
  apply Nat.mod_upper_bound. exact HK.
Qed.

Lemma build_tree_height_witness : height sample_deep <= 3 - 0.
Proof.
  apply (@build_tree_height externals (yT_x y x) (range 3) 0 2 3 0 sample_deep 3).
  vm_compute. reflexivity.
Defined.

Lemma build_tree_shape_only_witness : Forall (shape_only 2) (dfs_nodes sample_deep).
Proof.
  apply (@build_tree_shape_only externals (yT_x y x) (range 3) 0 2 3 0 sample_deep 3).
  vm_compute. reflexivity.
Defined.

Lemma build_tree_partition_witness :
  label_map sample_deep = range 3 /\ Forall splits_labels (dfs_nodes sample_deep).
Proof.
  apply (@build_tree_partition externals sample_kmeans_ids (yT_x y x) (range 3)
           0 2 3 0 sample_deep 3).
  vm_compute. reflexivity.
Defined.

Lemma build_tree_leaf_cover_witness :
  Permutation (concat (map label_map (leaves sample_deep))) (range 3) /\
  (NoDup (range 3) -> NoDup (concat (map label_map (leaves sample_deep)))).
Proof.
  apply (@build_tree_leaf_cover externals sample_kmeans_ids (yT_x y x) (range 3)
           0 2 3 0 sample_deep 3).
  vm_compute. reflexivity.
Defined.



Lemma as_mmap_keeps_written_witness :
  firstn (num_data (snd sample_appended)) (arr_cells (mm_data (snd sample_grown_twice)))
  = firstn (num_data (snd sample_appended)) (arr_cells (mm_data (snd sample_appended))) /\
  firstn (num_data (snd sample_appended))
         (arr_cells (mm_indices (snd sample_grown_twice)))
  = firstn (num_data (snd sample_appended))
           (arr_cells (mm_indices (snd sample_appended))) /\
  firstn (num_indptr (snd sample_appended))
         (arr_cells (mm_indptr (snd sample_grown_twice)))
  = firstn (num_indptr (snd sample_appended))
           (arr_cells (mm_indptr (snd sample_appended))).
Proof.
  apply (@as_mmap_keeps_written sample_block (snd sample_appended)
           (fst sample_grown_twice) (snd sample_grown_twice)).
  - unfold info_wf. repeat split; try (apply Nat.leb_le); vm_compute; reflexivity.
  - vm_compute. reflexivity.
Defined.

Lemma as_mmap_capacity_witness :
  arr_shape0 (mm_data sample_info) <= arr_shape0 (mm_data (snd sample_appended)) /\
  num_data (snd sample_appended) <= arr_shape0 (mm_data (snd sample_appended)) /\
  (num_data sample_info + nnz sample_small_block <= arr_shape0 (mm_data sample_info) ->
   arr_shape0 (mm_data (snd sample_appended)) = arr_shape0 (mm_data sample_info) /\
   arr_shape0 (mm_indices (snd sample_appended)) = arr_shape0 (mm_indices sample_info)).
Proof.
  apply (@as_mmap_capacity sample_small_block sample_info
           (fst sample_appended) (snd sample_appended)).
  vm_compute. reflexivity.
Defined.

Lemma train_nodes_attaches_witness :
  Forall trained (dfs_nodes (fst sample_training)) /\
  map label_map (dfs_nodes (fst sample_training)) = map label_map (dfs_nodes sample_tree) /\
  map index (dfs_nodes (fst sample_training)) = map index (dfs_nodes sample_tree) /\
  length (dfs_nodes (fst sample_training)) = length (dfs_nodes sample_tree).
Proof.
  apply (@train_nodes_attaches externals y x ""%string "weights/a"%string sample_tree
           (fst sample_training) (snd sample_training)).
  vm_compute. reflexivity.
Defined.

Lemma train_nodes_data_in_bounds_witness :
  num_data (snd sample_training) <= arr_shape0 (mm_data (snd sample_training)) /\
  arr_shape0 (mm_indices (snd sample_training))
  = arr_shape0 (mm_data (snd sample_training)) /\
  Forall (data_in_bounds (num_data (snd sample_training)))
         (dfs_nodes (fst sample_training)).
Proof.
  apply (@train_nodes_data_in_bounds externals y x ""%string "weights/a"%string
           sample_tree (fst sample_training) (snd sample_training)).
  vm_compute. reflexivity.
Defined.


Lemma mmap_hstack_shape_witness :
  exists b0 bs w files',
    sample_blocks = b0 :: bs /\
    @_mmap_hstack externals (b0 :: bs) "weights/a/flat_model"%string [] = Ok (w, files') /\
    csr_shape w = (fst (dm_shape b0),
                   list_sum (map (fun b => snd (dm_shape b)) (b0 :: bs))) /\
    files' = [] ++ hstack_files "weights/a/flat_model"%string.
Proof.
  eexists. eexists. eexists. eexists.
  split; [vm_compute; reflexivity|].
  assert (H : @_mmap_hstack externals sample_blocks "weights/a/flat_model"%string []
              = Ok (fm_weights (fst (fst (fst sample_flat))), snd sample_flat))
    by (vm_compute; reflexivity).
  split; [exact H|].
  destruct (@mmap_hstack_shape externals _ _ _ _ _ _ H) as [Hs [_ Hf]].
  split; [exact Hs | exact Hf].
Defined.

Lemma flatten_model_shape_witness :
  last (snd (fst (fst sample_flat))) 0
  = snd (csr_shape (fm_weights (fst (fst (fst sample_flat))))) /\
  has_rows (fst (csr_shape (fm_weights (fst (fst (fst sample_flat))))))
           (fst sample_training) /\
  snd sample_flat = [] ++ hstack_files "weights/a/flat_model"%string.
Proof.
  apply (@flatten_model_shape externals (fst sample_training)
           "weights/a/flat_model"%string []
           (fst (fst (fst sample_flat))) (snd (fst (fst sample_flat)))
           (snd (fst sample_flat)) (snd sample_flat)).
  vm_compute. reflexivity.
Defined.

Lemma flatten_model_once_witness :
  Forall popped (dfs_nodes (snd (fst sample_flat))) /\
  forall path2 files2,
    @_flatten_model externals (snd (fst sample_flat)) path2 files2 = Raise KeyError.
Proof.
  apply (@flatten_model_once externals (fst sample_training)
           "weights/a/flat_model"%string []
           (fst (fst (fst sample_flat))) (snd (fst (fst sample_flat)))
           (snd (fst sample_flat)) (snd sample_flat)).
  vm_compute. reflexivity.
Defined.

Lemma sample_training_trained : Forall trained (dfs_nodes (fst sample_training)).
Proof. vm_compute. repeat constructor; eexists; eexists; split; reflexivity. Qed.

Lemma flatten_model_outcomes_witness :
  exists w0,
    weights sample_root_model = Some w0 /\
    ((exists res,
         @_flatten_model externals (fst sample_training)
           "weights/a/flat_model"%string [] = Ok res) <->
     Forall (has_bias_of (bias sample_root_model)) (dfs_nodes (fst sample_training)) /\
     Forall (has_rows (fst (dm_shape w0))) (dfs_nodes (fst sample_training))).
Proof.
  eexists. split; [vm_compute; reflexivity|].
  refine (proj1 (@flatten_model_outcomes externals (fst sample_training)
                   "weights/a/flat_model"%string [] sample_root_model _
                   sample_training_trained _ _)).
  - vm_compute. reflexivity.
  - vm_compute. reflexivity.
Defined.

Lemma train_then_flatten_witness :
  (exists res,
      @_flatten_model externals (fst sample_training) "weights/a/flat_model"%string []
      = Ok res) \/
  @_flatten_model externals (fst sample_training) "weights/a/flat_model"%string []
  = Raise AssertionError \/
  @_flatten_model externals (fst sample_training) "weights/a/flat_model"%string []
  = Raise ValueError.
Proof.
  apply (@train_then_flatten externals y x ""%string "weights/a"%string sample_tree
           (fst sample_training) (snd sample_training)).
  vm_compute. reflexivity.
Defined.

Lemma beam_ends_with_leaves_witness :
  Forall (fun pair => isLeaf (fst pair) = true /\
                      In (fst pair) (dfs_nodes (root sample_model)))
         (keep 10 sample_pool) /\
  ((0 <= 10)%Z -> length (keep 10 sample_pool) <= Nat.max 1 (Z.to_nat 10)).
Proof.
  apply (@beam_ends_with_leaves sample_model sample_preds 10 1 (keep 10 sample_pool)).
  vm_compute. reflexivity.
Defined.




Lemma train_tree_cache_miss_witness :
  exists r,
    @_build_tree externals (label_representation y x) (range (shape1 y)) 0 2 1
                 (w_rng world)
    = Ok (r, w_rng (snd sample_run)) /\
    map label_map (dfs_nodes (root (fst sample_run))) = map label_map (dfs_nodes r) /\
    w_cache (snd sample_run)
    = ("tree_cache/o0.pickle"%string, pickle_dump r) :: w_cache world /\
    lookup "tree_cache/o0.pickle"%string (w_cache (snd sample_run))
    = Some (pickle_dump r) /\
    w_log (snd sample_run) = w_log world.
Proof.
  apply (@train_tree_cache_miss externals y x ""%string 2 1 true world
           "tree_cache/o0.pickle"%string (fst sample_run) (snd sample_run)).
  - vm_compute. reflexivity.
  - vm_compute. reflexivity.
  - vm_compute. reflexivity.
Defined.

Lemma train_tree_no_rows_witness :
  @train_tree externals y (mkMatrix 2 []) ""%string 2 1 true world = Raise IndexError.
Proof.
  apply (@train_tree_no_rows externals y (mkMatrix 2 []) ""%string 2 1 true world).
  reflexivity.
Defined.

Lemma trained_model_slices_witness :
  length (weight_map (fst sample_run)) = length (dfs_nodes (root (fst sample_run))) + 1 /\
  (forall i node,
      nth_error (dfs_nodes (root (fst sample_run))) i = Some node ->
      index node = Some i) /\
  forall instance_preds node,
    In node (dfs_nodes (root (fst sample_run))) ->
    exists pred, node_preds (fst sample_run) instance_preds node = Ok pred.
Proof.
  apply (@trained_model_slices externals y x ""%string 2 1 true world
           (fst sample_run) (snd sample_run)).
  vm_compute. reflexivity.
Defined.

Lemma train_tree_files_witness :
  md_root (mmap (fst sample_run))
  = String.append "weights/" (@uuid4_hex externals (w_uuids world)) /\
  w_arrays (snd sample_run)
  = w_arrays world ++ node_files (md_root (mmap (fst sample_run)))
    ++ hstack_files (String.append (md_root (mmap (fst sample_run))) "/flat_model") /\
  w_uuids (snd sample_run) = S (w_uuids world) /\
  md_shape (mmap (fst sample_run)) = csr_shape (fm_weights (flat_model (fst sample_run))) /\
  last (weight_map (fst sample_run)) 0 = snd (md_shape (mmap (fst sample_run))).
Proof.
  apply (@train_tree_files externals y x ""%string 2 1 true world
           (fst sample_run) (snd sample_run)).
  vm_compute. reflexivity.
Defined.

Lemma collected_records_witness :
  fst (Logging.get_logs
         (fold_left (Logging.handle (fun _ r => Logging.msg r)) sample_records
                    (fst (Logging.add_collect_handler 20 sample_logging))))
  = map (fun r => Logging.msg r)
        (filter (fun r => (20 <=? Logging.levelno r) && Logging.collect_filter r)
                sample_records).
Proof.
  apply (@LoggingFacts.collected_records (fun _ r => Logging.msg r) 20 sample_logging
           sample_records).
  reflexivity.
Defined.
